(** * Incremental mesh segmenter (hydra_dsg_builder): object lifecycle

    A shallow embedding of
    [src/hydra_dsg_builder/src/incremental_mesh_segmenter.cpp]:
    the per-cycle detection glue ([detect]) and the object lifecycle manager
    ([archiveOldObjects], [updateGraph], [updateObjectInGraph],
    [addObjectToGraph], [pruneObjectsToCheckForPlaces]).

    Conventions.
    - [std::set<NodeId>] is a [gset Z]; a range-for over it enumerates the
      keys in ascending order ([sorted_ids]).  [std::map] is a [gmap]; a
      range-for over it enumerates ascending keys as well.
    - [uint64_t] values are [Z] in [0, 2^64); the one subtraction of the file
      is written with its wrap-around ([sub64]).
    - [.at(k)] on a missing key raises [out_of_range], [.value()] on an empty
      optional raises [bad_optional_access]; reading through a reference to a
      node that has been removed from the graph has no defined behaviour and is
      reported as [dangling_reference].  A call that raises does not complete;
      its partial effects are not observable in the model. *)

From Stdlib Require Import ZArith QArith Lia.
From stdpp Require Import base option list sorting gmap sets.

Local Open Scope Z_scope.

(** ** Exceptions *)

Inductive Exn : Type :=
| out_of_range
| bad_optional_access
| dangling_reference.

Inductive Res (A : Type) : Type :=
| Ret (a : A)
| Raise (e : Exn).
Arguments Ret {A} a.
Arguments Raise {A} e.

#[global] Instance Res_ret : MRet Res := fun A a => Ret a.
#[global] Instance Res_bind : MBind Res := fun A B k m =>
  match m with
  | Ret a => k a
  | Raise e => Raise e
  end.

(** [.at(k)] of a [std::map]. *)
Definition at_ {K V} `{Countable K} (m : gmap K V) (k : K) : Res V :=
  match m !! k with
  | Some v => Ret v
  | None => Raise out_of_range
  end.

(** [optional.value()]. *)
Definition value {V} (o : option V) : Res V :=
  match o with
  | Some v => Ret v
  | None => Raise bad_optional_access
  end.

(** A range-for whose body may raise: the loop state is threaded left to
    right and the first exception ends the loop. *)
Fixpoint for_each {A S} (body : A -> S -> Res S) (l : list A) (s : S) : Res S :=
  match l with
  | [] => Ret s
  | a :: l' => s' ← body a s; for_each body l' s'
  end.

(** ** Ordered containers *)


(** Enumeration order of a [std::set<NodeId>] / [std::set<uint8_t>]. *)
Definition sorted_ids (X : gset Z) : list Z := merge_sort Z.le (elements X).

(** Enumeration order of a [std::map] with integer keys. *)
Definition key_le {V} (a b : Z * V) : Prop := a.1 <= b.1.

#[global] Instance key_le_dec {V} : RelDecision (@key_le V) :=
  fun a b => decide (a.1 <= b.1).

Definition sorted_entries {V} (m : gmap Z V) : list (Z * V) :=
  merge_sort key_le (map_to_list m).

(** ** Unsigned 64-bit arithmetic *)

Definition two64 : Z := 2 ^ 64.

(** [a - b] on [uint64_t]. *)
Definition sub64 (a b : Z) : Z := (a - b) mod two64.

(** ** External collaborators

    Modelled from the spec: the bounding-box type and its [volume] /
    [isInside], [bounding_box::extract], the point type of the mesh, the
    clustering oracle, the colour-to-label table and the centroid accumulator
    are declared outside [src/]; section 6 of the spec gives their
    interfaces.  Volumes are compared as rationals. *)
Class Collaborators : Type := {
  Position : Type;
  BoundingBox : Type;
  MeshPoint : Type;
  Color : Type;
  (** [box.isInside(p)] *)
  isInside : BoundingBox -> Position -> bool;
  (** [box.volume()] *)
  volume : BoundingBox -> Q;
  (** [bounding_box::extract(cloud, config_.bounding_box_type)] *)
  extract : list MeshPoint -> BoundingBox;
  (** [(r, g, b)] of a mesh point *)
  point_color : MeshPoint -> Color;
  (** the centroid a [pcl::CentroidPoint] reports after the points of a
      cloud have been added to it *)
  centroid_of : list MeshPoint -> Position;
  (** [(vertex_pos - root_pos).norm() < config_.active_index_horizon_m] *)
  within_horizon : MeshPoint -> Position -> bool;
  (** [label_map.getSemanticLabelFromColor(color)] *)
  SemanticLabel2Color : Type;
  getSemanticLabelFromColor : SemanticLabel2Color -> Color -> option Z;
  (** [pcl::EuclideanClusterExtraction::extract] on a cloud and an index
      subset: the member indices of each cluster *)
  euclidean_clusters : list MeshPoint -> list Z -> list (list Z);
}.

Section Model.
Context `{Collaborators}.

(** ** Clusters *)

Record Cluster : Type := {
  indices : list Z;
  cloud : list MeshPoint;
  centroid : Position;
}.

(** ** The scene graph store

    Modelled from the spec: [DynamicSceneGraph] is declared outside [src/];
    section 6 of the spec lists [hasNode], [getNode], [emplaceNode],
    [removeNode] and [insertMeshEdge].  [emplaceNode] keeps an existing node,
    [insertMeshEdge] needs its source node, [removeNode] drops the node with
    its mesh edges. *)

Record ObjectNodeAttributes : Type := {
  semantic_label : Z;
  name : Z;
  bounding_box : BoundingBox;
  color : Color;
  position : Position;
}.

Record SceneGraphNode : Type := {
  attributes : ObjectNodeAttributes;
  has_parent : bool;
}.

Record DynamicSceneGraph : Type := {
  nodes : gmap Z SceneGraphNode;
  mesh_edges : gset (Z * Z);
}.

Definition hasNode (g : DynamicSceneGraph) (id : Z) : bool :=
  bool_decide (is_Some (nodes g !! id)).

Definition getNode (g : DynamicSceneGraph) (id : Z) : option SceneGraphNode :=
  nodes g !! id.

Definition emplaceNode (g : DynamicSceneGraph) (id : Z)
    (attrs : ObjectNodeAttributes) : DynamicSceneGraph :=
  if hasNode g id then g
  else {| nodes := <[id := {| attributes := attrs; has_parent := false |}]> (nodes g);
          mesh_edges := mesh_edges g |}.

Definition removeNode (g : DynamicSceneGraph) (id : Z) : DynamicSceneGraph :=
  {| nodes := delete id (nodes g);
     mesh_edges := filter (fun e => e.1 ≠ id) (mesh_edges g) |}.

Definition insertMeshEdge (g : DynamicSceneGraph) (id idx : Z) : DynamicSceneGraph :=
  if hasNode g id
  then {| nodes := nodes g; mesh_edges := {[ (id, idx) ]} ∪ mesh_edges g |}
  else g.

(** Writing through [node.attributes<ObjectNodeAttributes>()]. *)
Definition set_attributes (g : DynamicSceneGraph) (id : Z)
    (attrs : ObjectNodeAttributes) : DynamicSceneGraph :=
  {| nodes := alter (fun n => {| attributes := attrs; has_parent := has_parent n |})
                id (nodes g);
     mesh_edges := mesh_edges g |}.

(** ** Configuration and segmenter state *)

Record MeshSegmenterConfig : Type := {
  labels : gset Z;
  min_cluster_size : Z;
  (** [static_cast<uint64_t>(config_.active_horizon_s * 1e9)] *)
  active_horizon_ns : Z;
}.

(** The mutable members of [MeshSegmenter].

    Modelled from the spec: [NodeSymbol] (the type of [next_node_id_]) is
    declared outside [src/]; section 4.6 of the spec describes it as a
    monotonic per-run counter, so [++next_node_id_] is [+ 1] on [Z]. *)
Record MeshSegmenter : Type := {
  active_objects_ : gmap Z (gset Z);
  active_object_timestamps_ : gmap Z Z;
  objects_to_check_for_places_ : gset Z;
  next_node_id_ : Z;
}.

(** The constructor: one empty active set per configured label, counter at
    the first identifier of the configured prefix. *)
Definition MeshSegmenter_new (config_ : MeshSegmenterConfig) (first_id : Z)
    : MeshSegmenter :=
  {| active_objects_ := gset_to_gmap ∅ (labels config_);
     active_object_timestamps_ := ∅;
     objects_to_check_for_places_ := ∅;
     next_node_id_ := first_id |}.

(** [active_objects_[label]]: [operator[]] default-constructs a missing
    entry. *)
Definition active_bracket (s : MeshSegmenter) (label : Z) : gset Z :=
  default ∅ (active_objects_ s !! label).

Definition touch_label (s : MeshSegmenter) (label : Z) : MeshSegmenter :=
  {| active_objects_ := <[label := active_bracket s label]> (active_objects_ s);
     active_object_timestamps_ := active_object_timestamps_ s;
     objects_to_check_for_places_ := objects_to_check_for_places_ s;
     next_node_id_ := next_node_id_ s |}.

(** ** archiveOldObjects *)

(** [latest_timestamp - active_object_timestamps_.at(id) > horizon] *)
Definition expired (config_ : MeshSegmenterConfig) (latest_timestamp last : Z) : bool :=
  active_horizon_ns config_ <? sub64 latest_timestamp last.

(** The age test of line 225 for an identifier, read off a timestamp map. *)
Definition is_expired (config_ : MeshSegmenterConfig) (latest_timestamp : Z)
    (ts : gmap Z Z) (id : Z) : bool :=
  match ts !! id with
  | Some last => expired config_ latest_timestamp last
  | None => false
  end.

(** An identifier one of the two tests of the scan marks for removal. *)
Definition must_remove (config_ : MeshSegmenterConfig) (g : DynamicSceneGraph)
    (latest_timestamp : Z) (ts : gmap Z Z) (id : Z) : bool :=
  negb (hasNode g id) || is_expired config_ latest_timestamp ts id.

(** What one iteration of the scan appends to the removal list. *)
Definition removal_entries (config_ : MeshSegmenterConfig) (g : DynamicSceneGraph)
    (latest_timestamp : Z) (ts : gmap Z Z) (id : Z) : list Z :=
  (if hasNode g id then [] else [id])
  ++ (if is_expired config_ latest_timestamp ts id then [id] else []).

(** Body of the scan over one label's active set (lines 220-230): the loop
    state is the removal list and the archived set. *)
Definition archive_scan_body (config_ : MeshSegmenterConfig)
    (g : DynamicSceneGraph) (latest_timestamp : Z) (ts : gmap Z Z)
    (object_node : Z) (st : list Z * gset Z) : Res (list Z * gset Z) :=
  let '(removed_nodes, archived) := st in
  let removed_nodes :=
    if hasNode g object_node then removed_nodes
    else removed_nodes ++ [object_node] in
  last ← at_ ts object_node;
  if expired config_ latest_timestamp last
  then Ret (removed_nodes ++ [object_node], {[ object_node ]} ∪ archived)
  else Ret (removed_nodes, archived).

(** Body of the erase loop (lines 232-235). *)
Definition archive_erase (label : Z) (node_id : Z) (s : MeshSegmenter)
    : MeshSegmenter :=
  {| active_objects_ :=
       <[label := active_bracket s label ∖ {[ node_id ]}]> (active_objects_ s);
     active_object_timestamps_ := delete node_id (active_object_timestamps_ s);
     objects_to_check_for_places_ := objects_to_check_for_places_ s;
     next_node_id_ := next_node_id_ s |}.

(** The removal list one label's scan builds. *)
Definition archive_scan (config_ : MeshSegmenterConfig) (g : DynamicSceneGraph)
    (latest_timestamp : Z) (s : MeshSegmenter) (label : Z) (archived : gset Z)
    : Res (list Z * gset Z) :=
  X ← at_ (active_objects_ s) label;
  for_each (archive_scan_body config_ g latest_timestamp
              (active_object_timestamps_ s))
           (sorted_ids X) ([], archived).

(** One iteration of the loop over [config_.labels] (lines 218-236). *)
Definition archive_label (config_ : MeshSegmenterConfig) (g : DynamicSceneGraph)
    (latest_timestamp : Z) (label : Z) (st : MeshSegmenter * gset Z)
    : Res (MeshSegmenter * gset Z) :=
  let '(s, archived) := st in
  '(removed_nodes, archived') ← archive_scan config_ g latest_timestamp s label archived;
  Ret (foldl (fun s node_id => archive_erase label node_id s) s removed_nodes,
       archived').

Definition archiveOldObjects (config_ : MeshSegmenterConfig)
    (g : DynamicSceneGraph) (latest_timestamp : Z) (s : MeshSegmenter)
    : Res (MeshSegmenter * gset Z) :=
  for_each (archive_label config_ g latest_timestamp)
           (sorted_ids (labels config_)) (s, ∅).

(** ** updateObjectInGraph / addObjectToGraph *)

Definition objectsMatch (cluster : Cluster) (node : SceneGraphNode) : bool :=
  isInside (bounding_box (attributes node)) (centroid cluster).

Definition insertMeshEdges (g : DynamicSceneGraph) (id : Z) (idxs : list Z)
    : DynamicSceneGraph :=
  foldl (fun g idx => insertMeshEdge g id idx) g idxs.

(** Lines 348-372.  [node_id] and [node] are [node.id] and the node the
    caller read from the graph. *)
Definition updateObjectInGraph (g : DynamicSceneGraph) (cluster : Cluster)
    (node_id : Z) (node : SceneGraphNode) (timestamp : Z) (s : MeshSegmenter)
    : Res (DynamicSceneGraph * MeshSegmenter) :=
  _ ← at_ (active_object_timestamps_ s) node_id;
  let ts := <[node_id := timestamp]> (active_object_timestamps_ s) in
  let g1 := insertMeshEdges g node_id (indices cluster) in
  let new_box := extract (cloud cluster) in
  let attrs := attributes node in
  if Qle_bool (volume new_box) (volume (bounding_box attrs))
  then Ret (g1,
            {| active_objects_ := active_objects_ s;
               active_object_timestamps_ := ts;
               objects_to_check_for_places_ := objects_to_check_for_places_ s;
               next_node_id_ := next_node_id_ s |})
  else Ret (set_attributes g1 node_id
              {| semantic_label := semantic_label attrs;
                 name := name attrs;
                 bounding_box := new_box;
                 color := color attrs;
                 position := centroid cluster |},
            {| active_objects_ := active_objects_ s;
               active_object_timestamps_ := ts;
               objects_to_check_for_places_ :=
                 {[ node_id ]} ∪ objects_to_check_for_places_ s;
               next_node_id_ := next_node_id_ s |}).

(** Lines 374-407. *)
Definition addObjectToGraph (g : DynamicSceneGraph) (cluster : Cluster)
    (label : Z) (timestamp : Z) (s : MeshSegmenter)
    : Res (DynamicSceneGraph * MeshSegmenter) :=
  match cloud cluster with
  | [] => Ret (g, s)
  | point :: _ =>
      let id := next_node_id_ s in
      let attrs := {| semantic_label := label;
                      name := id;
                      bounding_box := extract (cloud cluster);
                      color := point_color point;
                      position := centroid cluster |} in
      let g1 := emplaceNode g id attrs in
      X ← at_ (active_objects_ s) label;
      let g2 := insertMeshEdges g1 id (indices cluster) in
      Ret (g2,
           {| active_objects_ := <[label := {[ id ]} ∪ X]> (active_objects_ s);
              active_object_timestamps_ :=
                <[id := timestamp]> (active_object_timestamps_ s);
              objects_to_check_for_places_ :=
                {[ id ]} ∪ objects_to_check_for_places_ s;
              next_node_id_ := id + 1 |})
  end.

(** ** updateGraph *)

(** The scan of lines 292-299: the first active identifier, in enumeration
    order, whose node matches the cluster. *)
Fixpoint find_match (g : DynamicSceneGraph) (cluster : Cluster) (ids : list Z)
    : Res (option (Z * SceneGraphNode)) :=
  match ids with
  | [] => Ret None
  | prev_node_id :: ids' =>
      prev_node ← value (getNode g prev_node_id);
      if objectsMatch cluster prev_node
      then Ret (Some (prev_node_id, prev_node))
      else find_match g cluster ids'
  end.

(** Body of the loop over one label's clusters (lines 289-304). *)
Definition match_or_create (label timestamp : Z) (cluster : Cluster)
    (st : DynamicSceneGraph * MeshSegmenter)
    : Res (DynamicSceneGraph * MeshSegmenter) :=
  let '(g, s) := st in
  X ← at_ (active_objects_ s) label;
  found ← find_match g cluster (sorted_ids X);
  match found with
  | Some (prev_node_id, prev_node) =>
      updateObjectInGraph g cluster prev_node_id prev_node timestamp s
  | None => addObjectToGraph g cluster label timestamp s
  end.

(** The four erases of lines 330-333 and 335-338. *)
Definition remove_object (label id : Z) (g : DynamicSceneGraph) (s : MeshSegmenter)
    : DynamicSceneGraph * MeshSegmenter :=
  (removeNode g id,
   {| active_objects_ :=
        <[label := active_bracket s label ∖ {[ id ]}]> (active_objects_ s);
      active_object_timestamps_ := delete id (active_object_timestamps_ s);
      objects_to_check_for_places_ := objects_to_check_for_places_ s ∖ {[ id ]};
      next_node_id_ := next_node_id_ s |}).

(** The containment test of lines 327-328. *)
Definition overlapping (node other : ObjectNodeAttributes) : bool :=
  isInside (bounding_box node) (position other)
  || isInside (bounding_box other) (position node).

(** Body of the inner loop (lines 315-341).  [node] is the reference taken at
    line 312; [node_alive] records whether [node_id] is still in the graph,
    that is, whether that reference may still be read. *)
Definition dedup_inner_body (label node_id : Z) (node : ObjectNodeAttributes)
    (other_id : Z) (st : DynamicSceneGraph * MeshSegmenter * bool)
    : Res (DynamicSceneGraph * MeshSegmenter * bool) :=
  let '(g, s, node_alive) := st in
  if decide (node_id = other_id) then Ret st
  else if negb (hasNode g other_id) then Ret st
  else
    other_node ← value (getNode g other_id);
    let other := attributes other_node in
    if node_alive then
      if overlapping node other
      then
        if Qle_bool (volume (bounding_box other)) (volume (bounding_box node))
        then let '(g', s') := remove_object label other_id g s in
             Ret (g', s', true)
        else let '(g', s') := remove_object label node_id g s in
             Ret (g', s', false)
      else Ret st
    else Raise dangling_reference.

(** Body of the outer loop (lines 307-342). *)
Definition dedup_outer_body (label : Z) (to_check : list Z) (node_id : Z)
    (st : DynamicSceneGraph * MeshSegmenter)
    : Res (DynamicSceneGraph * MeshSegmenter) :=
  let '(g, s) := st in
  if negb (hasNode g node_id) then Ret st
  else
    node ← value (getNode g node_id);
    '(g', s', _) ← for_each (dedup_inner_body label node_id (attributes node))
                            to_check (g, s, true);
    Ret (g', s').

(** Lines 306-342. *)
Definition dedup (label : Z) (st : DynamicSceneGraph * MeshSegmenter)
    : Res (DynamicSceneGraph * MeshSegmenter) :=
  let '(g, s) := st in
  let s := touch_label s label in
  let to_check := sorted_ids (active_bracket s label) in
  for_each (dedup_outer_body label to_check) to_check (g, s).

(** Body of the loop over [clusters] (lines 288-343). *)
Definition update_label (timestamp : Z) (label_clusters : Z * list Cluster)
    (st : DynamicSceneGraph * MeshSegmenter)
    : Res (DynamicSceneGraph * MeshSegmenter) :=
  st' ← for_each (match_or_create label_clusters.1 timestamp) label_clusters.2 st;
  dedup label_clusters.1 st'.

Definition updateGraph (config_ : MeshSegmenterConfig) (g : DynamicSceneGraph)
    (clusters : gmap Z (list Cluster)) (timestamp : Z) (s : MeshSegmenter)
    : Res (DynamicSceneGraph * MeshSegmenter * gset Z) :=
  '(s1, archived) ← archiveOldObjects config_ g timestamp s;
  '(g2, s2) ← for_each (update_label timestamp) (sorted_entries clusters) (g, s1);
  Ret (g2, s2, archived).

(** ** pruneObjectsToCheckForPlaces (lines 196-213) *)

Definition prune_scan_body (g : DynamicSceneGraph) (to_remove : list Z)
    (object_id : Z) : list Z :=
  match getNode g object_id with
  | None => to_remove ++ [object_id]
  | Some node => if has_parent node then to_remove ++ [object_id] else to_remove
  end.

Definition pruneObjectsToCheckForPlaces (g : DynamicSceneGraph) (s : MeshSegmenter)
    : MeshSegmenter :=
  let to_remove :=
    foldl (prune_scan_body g) [] (sorted_ids (objects_to_check_for_places_ s)) in
  {| active_objects_ := active_objects_ s;
     active_object_timestamps_ := active_object_timestamps_ s;
     objects_to_check_for_places_ :=
       foldl (fun p node_id => p ∖ {[ node_id ]})
             (objects_to_check_for_places_ s) to_remove;
     next_node_id_ := next_node_id_ s |}.

(** ** detect *)

(** What a run of [detect] does besides returning: the clustering oracle is
    run on a label's indices, a registered callback is called. *)
Inductive Event : Type :=
| FindClusters (label : Z) (idxs : list Z)
| Callback (f : nat) (active_indices : list Z) (label_indices : gmap Z (list Z)).

(** [full_mesh_vertices_->at(idx)] *)
Definition mesh_at (full_mesh_vertices_ : list MeshPoint) (idx : Z) : Res MeshPoint :=
  if idx <? 0 then Raise out_of_range
  else match full_mesh_vertices_ !! Z.to_nat idx with
       | Some p => Ret p
       | None => Raise out_of_range
       end.

(** Lines 131-149; [config_.active_index_horizon_m] is inside
    [within_horizon]. *)
Definition getActiveIndices (full_mesh_vertices_ : list MeshPoint)
    (idxs : list Z) (pos : option Position) : Res (list Z) :=
  match pos with
  | None => Ret idxs
  | Some root_pos =>
      for_each (fun idx active_indices =>
                  p ← mesh_at full_mesh_vertices_ idx;
                  Ret (if within_horizon p root_pos
                       then active_indices ++ [idx] else active_indices))
               idxs []
  end.

(** Lines 240-250. *)
Definition getVertexLabel (full_mesh_vertices_ : list MeshPoint)
    (label_map : SemanticLabel2Color) (index : Z) : option Z :=
  if Z.of_nat (length full_mesh_vertices_) <=? index then None
  else match full_mesh_vertices_ !! Z.to_nat index with
       | Some point => getSemanticLabelFromColor label_map (point_color point)
       | None => None
       end.

(** Lines 252-281. *)
Definition getLabelIndices (config_ : MeshSegmenterConfig)
    (full_mesh_vertices_ : list MeshPoint) (label_map : SemanticLabel2Color)
    (idxs : list Z) : gmap Z (list Z) :=
  foldl (fun label_indices idx =>
           match getVertexLabel full_mesh_vertices_ label_map idx with
           | None => label_indices
           | Some label =>
               if decide (label ∈ labels config_)
               then <[label := default [] (label_indices !! label) ++ [idx]]> label_indices
               else label_indices
           end)
        ∅ idxs.

(** Lines 93-129: the oracle's index groups, each with its points and
    centroid. *)
Definition findClusters (full_mesh_vertices_ : list MeshPoint) (idxs : list Z)
    : Res (list Cluster) :=
  for_each (fun object_indices clusters =>
              pts ← for_each (fun i pts => cp ← mesh_at full_mesh_vertices_ i;
                                           Ret (pts ++ [cp]))
                             object_indices [];
              Ret (clusters ++ [{| indices := object_indices;
                                   cloud := pts;
                                   centroid := centroid_of pts |}]))
           (euclidean_clusters full_mesh_vertices_ idxs) [].

Definition notify (callback_funcs_ : list nat) (active_indices : list Z)
    (label_indices : gmap Z (list Z)) : list Event :=
  map (fun f => Callback f active_indices label_indices) callback_funcs_.

(** Body of the loop over [config_.labels] (lines 173-187). *)
Definition detect_label (config_ : MeshSegmenterConfig)
    (full_mesh_vertices_ : list MeshPoint) (label_indices : gmap Z (list Z))
    (label : Z) (st : gmap Z (list Cluster) * list Event)
    : Res (gmap Z (list Cluster) * list Event) :=
  let '(label_clusters, trace) := st in
  match label_indices !! label with
  | None => Ret st
  | Some idxs =>
      if Z.of_nat (length idxs) <? min_cluster_size config_ then Ret st
      else
        clusters ← findClusters full_mesh_vertices_ idxs;
        Ret (match label_clusters !! label with
             | Some _ => label_clusters
             | None => <[label := clusters]> label_clusters
             end,
             trace ++ [FindClusters label idxs])
  end.

(** Lines 151-194: the returned clusters and the trace of oracle runs and
    callback calls, in order. *)
Definition detect (config_ : MeshSegmenterConfig)
    (full_mesh_vertices_ : list MeshPoint) (callback_funcs_ : list nat)
    (label_map : SemanticLabel2Color) (frontend_indices : list Z)
    (pos : option Position) : Res (gmap Z (list Cluster) * list Event) :=
  active_indices ← getActiveIndices full_mesh_vertices_ frontend_indices pos;
  match active_indices with
  | [] => Ret (∅, [])
  | _ :: _ =>
      let label_indices :=
        getLabelIndices config_ full_mesh_vertices_ label_map active_indices in
      if decide (label_indices = ∅)
      then Ret (∅, notify callback_funcs_ active_indices label_indices)
      else
        '(label_clusters, trace) ←
          for_each (detect_label config_ full_mesh_vertices_ label_indices)
                   (sorted_ids (labels config_)) (∅, []);
        Ret (label_clusters,
             trace ++ notify callback_funcs_ active_indices label_indices)
  end.

End Model.

(** ** A concrete set of collaborators

    Axis-aligned boxes with integer corners, used to run the model on
    examples: a point is a coordinate triple with a colour, the colour is
    the label, the clustering oracle returns its index set as one cluster
    when it is non-empty, the centroid of a cloud is its first point. *)
Module Fake.

Record Box : Type := { lo : Z * Z * Z; hi : Z * Z * Z }.

Definition inside (b : Box) (p : Z * Z * Z) : bool :=
  let '(x, y, z) := p in
  let '(x0, y0, z0) := lo b in
  let '(x1, y1, z1) := hi b in
  (x0 <=? x) && (x <=? x1) && (y0 <=? y) && (y <=? y1) && (z0 <=? z) && (z <=? z1).

Definition vol (b : Box) : Q :=
  let '(x0, y0, z0) := lo b in
  let '(x1, y1, z1) := hi b in
  inject_Z ((x1 - x0) * (y1 - y0) * (z1 - z0)).

Definition box_of (pts : list (Z * Z * Z * Z)) : Box :=
  match pts with
  | [] => {| lo := (0, 0, 0); hi := (0, 0, 0) |}
  | p :: _ =>
      foldl (fun b q =>
               let '(x, y, z, _) := q in
               let '(x0, y0, z0) := lo b in
               let '(x1, y1, z1) := hi b in
               {| lo := (Z.min x0 x, Z.min y0 y, Z.min z0 z);
                  hi := (Z.max x1 x, Z.max y1 y, Z.max z1 z) |})
            {| lo := p.1; hi := p.1 |} pts
  end.

#[global] Instance collaborators : Collaborators := {|
  Position := Z * Z * Z;
  BoundingBox := Box;
  MeshPoint := Z * Z * Z * Z;
  Color := Z;
  isInside := inside;
  volume := vol;
  extract := box_of;
  point_color := snd;
  centroid_of := fun pts => match pts with [] => (0, 0, 0) | p :: _ => p.1 end;
  within_horizon := fun _ _ => true;
  SemanticLabel2Color := unit;
  getSemanticLabelFromColor := fun _ c => Some c;
  euclidean_clusters := fun _ idxs => match idxs with [] => [] | _ => [idxs] end;
|}.

(** The same collaborators with an oracle that finds no cluster (the points
    are too far apart for the tolerance). *)
Definition silent : Collaborators := {|
  Position := Z * Z * Z;
  BoundingBox := Box;
  MeshPoint := Z * Z * Z * Z;
  Color := Z;
  isInside := inside;
  volume := vol;
  extract := box_of;
  point_color := snd;
  centroid_of := fun pts => match pts with [] => (0, 0, 0) | p :: _ => p.1 end;
  within_horizon := fun _ _ => true;
  SemanticLabel2Color := unit;
  getSemanticLabelFromColor := fun _ c => Some c;
  euclidean_clusters := fun _ _ => [];
|}.

End Fake.

(** ** Example inputs *)

Module Examples.
Import Fake.

(** Label 3 is the only label of interest; the archive horizon is 5 s. *)
Definition cfg3 : MeshSegmenterConfig :=
  {| labels := {[ 3 ]}; min_cluster_size := 1; active_horizon_ns := 5000000000 |}.

Definition cube (a b : Z) : Box := {| lo := (a, a, a); hi := (b, b, b) |}.

(** An object node of label 3 with box [b] at position [(p, p, p)]. *)
Definition object (id : Z) (b : Box) (p : Z) : SceneGraphNode :=
  {| attributes := {| semantic_label := 3; name := id; bounding_box := b;
                      color := 3; position := (p, p, p) |};
     has_parent := false |}.

Definition graph_of (l : list (Z * SceneGraphNode)) : DynamicSceneGraph :=
  {| nodes := list_to_map l; mesh_edges := ∅ |}.

Definition segmenter (ids : list Z) (ts : list (Z * Z)) (pending : list Z)
    (next : Z) : MeshSegmenter :=
  {| active_objects_ := {[ 3 := list_to_set ids ]};
     active_object_timestamps_ := list_to_map ts;
     objects_to_check_for_places_ := list_to_set pending;
     next_node_id_ := next |}.

(** Object 0 is tracked and pending, but its node has left the graph. *)
Definition vanished_graph : DynamicSceneGraph := graph_of [].
Definition vanished_state : MeshSegmenter := segmenter [0] [(0, 0)] [0] 1.

(** At 6 s: object 0 is stale and has no node, object 1 is stale, object 2
    was seen at 5 s. *)
Definition aged_graph : DynamicSceneGraph :=
  graph_of [(1, object 1 (cube 0 1) 0); (2, object 2 (cube 10 11) 10)].
Definition aged_state : MeshSegmenter :=
  segmenter [0; 1; 2] [(0, 0); (1, 0); (2, 5000000000)] [] 3.

(** Object 1 carries a timestamp ahead of the cycle's. *)
Definition ahead_graph : DynamicSceneGraph := graph_of [(1, object 1 (cube 0 1) 0)].
Definition ahead_state (last : Z) : MeshSegmenter := segmenter [1] [(1, last)] [] 2.

(** The scenario of section 8 of the spec: object 7 of label 3 has a box of
    volume 10 and is updated, at 200 ns, with a cluster whose box has volume
    8. *)
Definition scenario_node : SceneGraphNode :=
  object 7 {| lo := (0, 0, 0); hi := (1, 2, 5) |} 1.
Definition scenario_graph : DynamicSceneGraph := graph_of [(7, scenario_node)].
Definition scenario_state : MeshSegmenter := segmenter [7] [(7, 100)] [] 8.
Definition scenario_cluster : Cluster :=
  {| indices := [4; 5];
     cloud := [(0, 0, 0, 3); (2, 2, 2, 3)];
     centroid := (1, 1, 1) |}.


(** What two creates from [scenario_cluster] leave behind, the first as
    identifier 0 on a fresh segmenter, the second as identifier 1. *)
Definition created_node (id : Z) : SceneGraphNode := object id (cube 0 2) 1.
Definition created_graph : DynamicSceneGraph :=
  {| nodes := list_to_map [(0, created_node 0)];
     mesh_edges := list_to_set [(0, 4); (0, 5)] |}.
Definition created_state : MeshSegmenter := segmenter [0] [(0, 200)] [0] 1.
Definition recreated_graph : DynamicSceneGraph :=
  {| nodes := list_to_map [(0, created_node 0); (1, created_node 1)];
     mesh_edges := list_to_set [(0, 4); (0, 5); (1, 4); (1, 5)] |}.
Definition recreated_state : MeshSegmenter :=
  segmenter [1] [(1, 10000000000)] [0; 1] 2.

(** A second cluster, next to [scenario_cluster]: its centroid is outside
    the box of the first, the position of the first is inside its box. *)
Definition neighbour_cluster : Cluster :=
  {| indices := [6; 7];
     cloud := [(1, 1, 1, 3); (4, 4, 4, 3)];
     centroid := (3, 3, 3) |}.

(** Three objects of label 3 around the same place: object 0 is the
    largest and contains the positions of 1 and 2, which contain each
    other's. *)
Definition crowd_graph : DynamicSceneGraph :=
  graph_of [(0, object 0 (cube 0 10) 5); (1, object 1 (cube 4 6) 5);
            (2, object 2 (cube 3 7) 5)].
Definition crowd_state : MeshSegmenter :=
  segmenter [0; 1; 2] [(0, 0); (1, 0); (2, 0)] [1; 2] 3.

(** Two overlapping objects, the first enumerated being the smaller. *)
Definition pair_graph : DynamicSceneGraph :=
  graph_of [(1, object 1 (cube 4 6) 5); (2, object 2 (cube 3 7) 5)].
Definition pair_state : MeshSegmenter :=
  segmenter [1; 2] [(1, 0); (2, 0)] [1; 2] 3.


End Examples.

(** ** Specification predicates *)

Section Predicates.
Context `{Collaborators}.

(** The state of the archive pass once the labels [visited] have been
    processed, in terms of the state [s0] the pass started from. *)
Definition archived_upto (config_ : MeshSegmenterConfig) (g : DynamicSceneGraph)
    (t : Z) (s0 : MeshSegmenter) (visited : list Z)
    (st : MeshSegmenter * gset Z) : Prop :=
  let ts0 := active_object_timestamps_ s0 in
  (forall l, l ∈ visited ->
     is_Some (active_objects_ s0 !! l) /\
     forall id, id ∈ active_bracket s0 l -> is_Some (ts0 !! id)) /\
  (forall l, l ∈ visited ->
     is_Some (active_objects_ st.1 !! l) /\
     forall id, id ∈ active_bracket st.1 l <->
                id ∈ active_bracket s0 l /\ must_remove config_ g t ts0 id = false) /\
  (forall l, l ∉ visited -> active_objects_ st.1 !! l = active_objects_ s0 !! l) /\
  (forall id v, active_object_timestamps_ st.1 !! id = Some v <->
     ts0 !! id = Some v /\
     ~ exists l, l ∈ visited /\ id ∈ active_bracket s0 l /\
                 must_remove config_ g t ts0 id = true) /\
  (forall id, id ∈ st.2 <->
     exists l, l ∈ visited /\ id ∈ active_bracket s0 l /\
               is_expired config_ t ts0 id = true) /\
  objects_to_check_for_places_ st.1 = objects_to_check_for_places_ s0 /\
  next_node_id_ st.1 = next_node_id_ s0.

(** The tracking state is consistent: the active index has one entry per
    configured label, the timestamp map has an entry exactly for the active
    identifiers, no identifier is active under two labels, and the counter
    is above every active identifier. *)
Definition consistent (config_ : MeshSegmenterConfig) (s : MeshSegmenter) : Prop :=
  dom (active_objects_ s) = labels config_ /\
  (forall id, is_Some (active_object_timestamps_ s !! id) <->
              exists l, id ∈ active_bracket s l) /\
  (forall l1 l2 id,
     id ∈ active_bracket s l1 -> id ∈ active_bracket s l2 -> l1 = l2) /\
  (forall l id, id ∈ active_bracket s l -> id < next_node_id_ s).

(** Every active identifier resolves to a graph node. *)
Definition resolved (g : DynamicSceneGraph) (s : MeshSegmenter) : Prop :=
  forall l id, id ∈ active_bracket s l -> is_Some (getNode g id).

(** The pending identifiers without a node in [g] are among those that had
    none in [g0] already. *)
Definition no_new_orphans (g0 : DynamicSceneGraph) (s0 : MeshSegmenter)
    (g : DynamicSceneGraph) (s : MeshSegmenter) : Prop :=
  forall id, id ∈ objects_to_check_for_places_ s -> getNode g id = None ->
             id ∈ objects_to_check_for_places_ s0 /\ getNode g0 id = None.

(** [id] is pending, has no node in the graph, and is below the counter:
    an identifier this segmenter allocated whose node has left the graph. *)
Definition pending_orphan (id : Z) (st : DynamicSceneGraph * MeshSegmenter) : Prop :=
  id ∈ objects_to_check_for_places_ st.2 /\
  getNode st.1 id = None /\
  id < next_node_id_ st.2.

(** What a [reconcile] cycle maintains, relative to the graph [g0] and the
    state [s0] it started from. *)
Definition cycle_inv (config_ : MeshSegmenterConfig) (g0 : DynamicSceneGraph)
    (s0 : MeshSegmenter) (st : DynamicSceneGraph * MeshSegmenter) : Prop :=
  consistent config_ st.2 /\ resolved st.1 st.2 /\ no_new_orphans g0 s0 st.1 st.2.

(** [g'] holds some of the nodes of [g], unchanged. *)
Definition shrinks (g g' : DynamicSceneGraph) : Prop :=
  forall id n, getNode g' id = Some n -> getNode g id = Some n.

(** The operations that change the segmenter state; [updateGraph] is a
    sequence of them. *)
Inductive lifecycle_step : MeshSegmenter -> MeshSegmenter -> Prop :=
| step_archive config_ g t s s' archived :
    archiveOldObjects config_ g t s = Ret (s', archived) -> lifecycle_step s s'
| step_update g cluster node_id node t s g' s' :
    updateObjectInGraph g cluster node_id node t s = Ret (g', s') ->
    lifecycle_step s s'
| step_create g cluster label t s g' s' :
    addObjectToGraph g cluster label t s = Ret (g', s') -> lifecycle_step s s'
| step_dedup label g s g' s' :
    dedup label (g, s) = Ret (g', s') -> lifecycle_step s s'
| step_prune g s :
    lifecycle_step s (pruneObjectsToCheckForPlaces g s).

End Predicates.

(** ** Further specification helpers *)

Section MoreDefs.
Context `{Collaborators}.

(** An index [full_mesh_vertices_->at(idx)] accepts. *)
Definition in_range (full_mesh_vertices_ : list MeshPoint) (idx : Z) : Prop :=
  0 <= idx < Z.of_nat (length full_mesh_vertices_).

(** The horizon test of line 142 on the vertex at [idx]. *)
Definition vertex_in_horizon (full_mesh_vertices_ : list MeshPoint)
    (root_pos : Position) (idx : Z) : bool :=
  match full_mesh_vertices_ !! Z.to_nat idx with
  | Some p => within_horizon p root_pos
  | None => false
  end.

(** The points of the mesh at a sequence of indices. *)
Definition points_at (full_mesh_vertices_ : list MeshPoint) (idxs : list Z)
    : list MeshPoint :=
  omap (fun i => full_mesh_vertices_ !! Z.to_nat i) idxs.

(** The test of lines 199-207: the node is missing or already has a
    parent. *)
Definition must_prune (g : DynamicSceneGraph) (object_id : Z) : bool :=
  match getNode g object_id with
  | None => true
  | Some node => has_parent node
  end.

End MoreDefs.

(** ** More example inputs *)

Module MoreExamples.
Import Fake Examples.

(** Collaborators whose horizon test compares the first coordinate: a vertex
    is within the horizon when its [x] is less than 5 away from the
    reference's. *)
Definition near : Collaborators := {|
  Position := Z * Z * Z;
  BoundingBox := Box;
  MeshPoint := Z * Z * Z * Z;
  Color := Z;
  isInside := inside;
  volume := vol;
  extract := box_of;
  point_color := snd;
  centroid_of := fun pts => match pts with [] => (0, 0, 0) | p :: _ => p.1 end;
  within_horizon := fun p r => Z.abs (p.1.1.1 - r.1.1) <? 5;
  SemanticLabel2Color := unit;
  getSemanticLabelFromColor := fun _ c => Some c;
  euclidean_clusters := fun _ idxs => match idxs with [] => [] | _ => [idxs] end;
|}.

(** Three vertices of label 3, the second far from the origin. *)
Definition spread_mesh : list (Z * Z * Z * Z) :=
  [(0, 0, 0, 3); (9, 9, 9, 3); (1, 0, 0, 3)].

(** Two vertices of label 3 and one of label 8, which is not configured. *)
Definition mixed_mesh : list (Z * Z * Z * Z) :=
  [(0, 0, 0, 3); (1, 1, 1, 8); (2, 2, 2, 3)].

(** A segmenter whose active index has no entry at all. *)
Definition blank_state : MeshSegmenter :=
  {| active_objects_ := ∅; active_object_timestamps_ := ∅;
     objects_to_check_for_places_ := ∅; next_node_id_ := 0 |}.

(** Objects 1 and 2 of [aged_graph], far apart. *)
Definition apart_state : MeshSegmenter := segmenter [1; 2] [(1, 0); (2, 0)] [] 3.

(** Object 0 is the smallest and overlaps the larger object 1; object 2 is
    in the graph as well. *)
Definition rising_graph : DynamicSceneGraph :=
  graph_of [(0, object 0 (cube 4 6) 5); (1, object 1 (cube 3 7) 5);
            (2, object 2 (cube 0 10) 5)].
Definition rising_state : MeshSegmenter :=
  segmenter [0; 1; 2] [(0, 0); (1, 0); (2, 0)] [] 3.

(** Object 5 is pending and has a parent, object 6 is pending without one,
    object 7 is pending and has no node. *)
Definition linked_graph : DynamicSceneGraph :=
  {| nodes := {[ 5 := {| attributes := attributes (object 5 (cube 0 1) 0);
                         has_parent := true |};
                 6 := object 6 (cube 2 3) 2 ]};
     mesh_edges := ∅ |}.
Definition linked_state : MeshSegmenter :=
  segmenter [5; 6] [(5, 0); (6, 0)] [5; 6; 7] 8.

(** What the oracle of [Fake] makes of vertex 0 of a one-vertex mesh. *)
Definition single_cluster : Cluster :=
  {| indices := [0]; cloud := [(0, 0, 0, 3)]; centroid := (0, 0, 0) |}.

(** Vertices 0 and 2 of [mixed_mesh] as one cluster. *)
Definition mixed_cluster : Cluster :=
  {| indices := [0; 2]; cloud := [(0, 0, 0, 3); (2, 2, 2, 3)]; centroid := (0, 0, 0) |}.

End MoreExamples.

(** * Properties *)

(** Decide a closed, decidable proposition by evaluation. *)
Ltac by_compute :=
  match goal with
  | |- ?P => apply (bool_decide_unpack P); vm_compute; exact I
  end.

(** ** Exceptions and loops *)

Lemma bind_Ret {A B} (m : Res A) (k : A -> Res B) (b : B) :
  m ≫= k = Ret b -> exists a, m = Ret a /\ k a = Ret b.
Proof. destruct m as [a|e]; simpl; [eauto | discriminate]. Qed.

Lemma at_Ret {K V} `{Countable K} (m : gmap K V) (k : K) (v : V) :
  at_ m k = Ret v <-> m !! k = Some v.
Proof. unfold at_. destruct (m !! k); split; congruence. Qed.

Lemma value_Ret {V} (o : option V) (v : V) : value o = Ret v <-> o = Some v.
Proof. destruct o; simpl; split; congruence. Qed.

Lemma for_each_app {A S} (body : A -> S -> Res S) (l1 l2 : list A) (s : S) :
  for_each body (l1 ++ l2) s = for_each body l1 s ≫= for_each body l2.
Proof.
  revert s. induction l1 as [|a l1 IH]; intros s; simpl; [done|].
  destruct (body a s) as [s1|e]; simpl; [apply IH | done].
Qed.

(** Invariant rule for a loop that completes: the invariant may mention the
    part of the range already visited. *)
Lemma for_each_prefix_inv {A S} (P : list A -> S -> Prop)
    (body : A -> S -> Res S) (l : list A) (s s' : S) :
  P [] s ->
  (forall pre a post s1 s2,
      l = pre ++ a :: post -> P pre s1 -> body a s1 = Ret s2 -> P (pre ++ [a]) s2) ->
  for_each body l s = Ret s' ->
  P l s'.
Proof.
  intros H0 Hstep.
  assert (Hgen : forall post pre s1,
             l = pre ++ post -> P pre s1 ->
             for_each body post s1 = Ret s' -> P l s').
  { induction post as [|a post IH]; intros pre s1 Hl HP Hrun; simpl in Hrun.
    - rewrite app_nil_r in Hl. by simplify_eq.
    - apply bind_Ret in Hrun as (s2 & Hb & Hrun).
      apply (IH (pre ++ [a]) s2); [by rewrite <- app_assoc | | done].
      by eapply Hstep. }
  intros Hrun. by apply (Hgen l [] s).
Qed.

Lemma for_each_inv {A S} (P : S -> Prop) (body : A -> S -> Res S)
    (l : list A) (s s' : S) :
  P s ->
  (forall a s1 s2, a ∈ l -> P s1 -> body a s1 = Ret s2 -> P s2) ->
  for_each body l s = Ret s' ->
  P s'.
Proof.
  intros H0 Hstep Hrun.
  apply (for_each_prefix_inv (fun _ => P) body l s s'); [done| |done].
  intros pre a post s1 s2 -> HP Hb. eapply Hstep; [|done..].
  apply elem_of_app; right; left.
Qed.

(** ** Enumeration order *)

Lemma elem_of_sorted_ids (X : gset Z) (id : Z) : id ∈ sorted_ids X <-> id ∈ X.
Proof. unfold sorted_ids. rewrite merge_sort_Permutation. apply elem_of_elements. Qed.

Lemma NoDup_sorted_ids (X : gset Z) : NoDup (sorted_ids X).
Proof. unfold sorted_ids. rewrite merge_sort_Permutation. apply NoDup_elements. Qed.

Lemma sorted_ids_sorted (X : gset Z) : StronglySorted Z.le (sorted_ids X).
Proof. unfold sorted_ids. apply (StronglySorted_merge_sort Z.le). Qed.

(** The enumeration is the only ascending list of the set's elements. *)
Lemma sorted_ids_unique (X : gset Z) (l : list Z) :
  StronglySorted Z.le l -> NoDup l -> (forall id, id ∈ l <-> id ∈ X) ->
  sorted_ids X = l.
Proof.
  intros Hs Hn Hel. apply (StronglySorted_unique Z.le).
  - apply sorted_ids_sorted.
  - done.
  - apply NoDup_Permutation; [apply NoDup_sorted_ids | done |].
    intros id. rewrite elem_of_sorted_ids. by rewrite Hel.
Qed.

Lemma sorted_ids_empty : sorted_ids ∅ = [].
Proof. apply sorted_ids_unique; [constructor | constructor | set_solver]. Qed.

Lemma sorted_ids_pair (a b : Z) : a < b -> sorted_ids {[a; b]} = [a; b].
Proof.
  intros Hab. apply sorted_ids_unique.
  - repeat constructor. lia.
  - apply NoDup_cons; split; [set_solver by lia | apply NoDup_singleton].
  - intros id. set_solver.
Qed.


(** ** The archive pass *)

Section ArchiveProofs.
Context `{Collaborators}.
Implicit Types (g : DynamicSceneGraph) (s : MeshSegmenter) (ts : gmap Z Z).

Lemma elem_of_removal_entries config_ g t ts id x :
  x ∈ removal_entries config_ g t ts id <->
  x = id /\ must_remove config_ g t ts id = true.
Proof.
  unfold removal_entries, must_remove.
  destruct (hasNode g id), (is_expired config_ t ts id); simpl; set_solver.
Qed.

Lemma archive_scan_body_Some config_ g t ts id last rem arch :
  ts !! id = Some last ->
  archive_scan_body config_ g t ts id (rem, arch) =
  Ret (rem ++ removal_entries config_ g t ts id,
       if is_expired config_ t ts id then {[ id ]} ∪ arch else arch).
Proof.
  intros Hts. unfold archive_scan_body, removal_entries, is_expired, at_.
  rewrite Hts. simpl.
  destruct (expired config_ t last), (hasNode g id); simpl;
    by rewrite <- ?app_assoc, ?app_nil_r.
Qed.

Lemma archive_scan_body_None config_ g t ts id st :
  ts !! id = None ->
  archive_scan_body config_ g t ts id st = Raise out_of_range.
Proof.
  intros Hts. destruct st as [rem arch].
  unfold archive_scan_body, at_. by rewrite Hts.
Qed.

(** The scan of one label completes exactly when every scanned identifier has
    a timestamp entry, and then yields these removal list and archived set. *)
Lemma archive_scan_loop config_ g t ts ids rem arch r :
  for_each (archive_scan_body config_ g t ts) ids (rem, arch) = Ret r <->
  Forall (fun id => is_Some (ts !! id)) ids /\
  r = (rem ++ concat (map (removal_entries config_ g t ts) ids),
       list_to_set (filter (fun id => is_expired config_ t ts id = true) ids) ∪ arch).
Proof.
  revert rem arch. induction ids as [|id ids IH]; intros rem arch.
  - simpl. rewrite app_nil_r.
    replace (∅ ∪ arch) with arch by set_solver.
    split; [intros [= <-]; by split | intros [_ ->]; done].
  - rewrite Forall_cons, filter_cons. cbn [for_each map concat].
    destruct (ts !! id) as [last|] eqn:Hts.
    2: { rewrite archive_scan_body_None by done.
         split; [done | intros [[[? ?] _] _]; done]. }
    rewrite (archive_scan_body_Some _ _ _ _ _ last) by done.
    cbn [mbind Res_bind]. rewrite IH, <- app_assoc.
    assert (Hs : is_Some (Some last)) by eauto.
    destruct (is_expired config_ t ts id) eqn:He.
    + rewrite decide_True by done.
      split; [intros [? ->] | intros [[_ ?] ->]];
        (split; [try split; done | f_equal; set_solver]).
    + rewrite decide_False by done.
      split; [intros [? ->] | intros [[_ ?] ->]];
        (split; [try split; done | done]).
Qed.

Lemma archive_erase_loop label rem s :
  let s' := foldl (fun s node_id => archive_erase label node_id s) s rem in
  active_bracket s' label = active_bracket s label ∖ list_to_set rem /\
  (forall l, l ≠ label -> active_objects_ s' !! l = active_objects_ s !! l) /\
  (is_Some (active_objects_ s !! label) -> is_Some (active_objects_ s' !! label)) /\
  (forall id, active_object_timestamps_ s' !! id =
              if decide (id ∈ rem) then None else active_object_timestamps_ s !! id) /\
  objects_to_check_for_places_ s' = objects_to_check_for_places_ s /\
  next_node_id_ s' = next_node_id_ s.
Proof.
  revert s. induction rem as [|x rem IH]; intros s; simpl.
  - repeat split; try done. set_solver.
  - destruct (IH (archive_erase label x s)) as (Ha & Ho & Hs & Ht & Hp & Hn).
    repeat split.
    + rewrite Ha. unfold active_bracket, archive_erase; simpl.
      rewrite lookup_insert_eq. simpl. set_solver.
    + intros l Hl. rewrite Ho by done. simpl. by rewrite lookup_insert_ne.
    + intros _. apply Hs. simpl. rewrite lookup_insert_eq. eauto.
    + intros id. rewrite Ht. simpl.
      destruct (decide (id = x)) as [->|Hne].
      * rewrite lookup_delete_eq. rewrite (decide_True (P := x ∈ x :: rem)) by left.
        by case_decide.
      * rewrite lookup_delete_ne by done.
        repeat case_decide; set_solver.
    + by rewrite Hp.
    + by rewrite Hn.
Qed.

Lemma elem_of_removed config_ g t ts ids x :
  x ∈ concat (map (removal_entries config_ g t ts) ids) <->
  x ∈ ids /\ must_remove config_ g t ts x = true.
Proof.
  induction ids as [|id ids IH]; simpl.
  - set_solver.
  - rewrite elem_of_app, IH, elem_of_removal_entries, elem_of_cons. naive_solver.
Qed.

Lemma must_remove_ext config_ g t ts ts' id :
  ts !! id = ts' !! id ->
  must_remove config_ g t ts id = must_remove config_ g t ts' id /\
  is_expired config_ t ts id = is_expired config_ t ts' id.
Proof. intros Heq. unfold must_remove, is_expired. by rewrite Heq. Qed.

Lemma is_expired_must_remove config_ g t ts id :
  is_expired config_ t ts id = true -> must_remove config_ g t ts id = true.
Proof. unfold must_remove. intros ->. apply orb_true_r. Qed.

(** One label of the archive pass. *)
Lemma archive_label_spec config_ g t label s arch s' arch' :
  archive_label config_ g t label (s, arch) = Ret (s', arch') ->
  let ts := active_object_timestamps_ s in
  is_Some (active_objects_ s !! label) /\
  (forall id, id ∈ active_bracket s label -> is_Some (ts !! id)) /\
  is_Some (active_objects_ s' !! label) /\
  (forall id, id ∈ active_bracket s' label <->
              id ∈ active_bracket s label /\ must_remove config_ g t ts id = false) /\
  (forall l, l ≠ label -> active_objects_ s' !! l = active_objects_ s !! l) /\
  (forall id, active_object_timestamps_ s' !! id =
     if decide (id ∈ active_bracket s label /\ must_remove config_ g t ts id = true)
     then None else ts !! id) /\
  (forall id, id ∈ arch' <->
     id ∈ arch \/ (id ∈ active_bracket s label /\ is_expired config_ t ts id = true)) /\
  objects_to_check_for_places_ s' = objects_to_check_for_places_ s /\
  next_node_id_ s' = next_node_id_ s.
Proof.
  intros Hrun. cbv zeta. unfold archive_label, archive_scan in Hrun.
  set (ts := active_object_timestamps_ s) in *.
  apply bind_Ret in Hrun as ([rem arch1] & Hscan & Hret).
  apply bind_Ret in Hscan as (X & HX & Hscan).
  apply at_Ret in HX. apply archive_scan_loop in Hscan as [Hall [= -> ->]].
  injection Hret as <- <-.
  assert (Hbr : active_bracket s label = X) by (unfold active_bracket; by rewrite HX).
  rewrite Forall_forall in Hall. simpl in *.
  destruct (archive_erase_loop label
              (concat (map (removal_entries config_ g t ts) (sorted_ids X))) s)
    as (Ha & Ho & Hs & Ht & Hp & Hn).
  rewrite Hbr in *.
  split_and!; try done.
  - intros id Hid. apply Hall. by apply elem_of_sorted_ids.
  - apply Hs. eauto.
  - intros id. rewrite Ha, elem_of_difference, elem_of_list_to_set, elem_of_removed.
    rewrite elem_of_sorted_ids. destruct (must_remove config_ g t ts id); naive_solver.
  - intros id. rewrite Ht.
    case_decide as Hin; case_decide as Hd; try done; exfalso;
      rewrite elem_of_removed, elem_of_sorted_ids in Hin; naive_solver.
  - intros id. rewrite elem_of_union, elem_of_list_to_set, list_elem_of_filter.
    rewrite elem_of_sorted_ids. naive_solver.
Qed.

(** The whole archive pass, when it completes. *)
Lemma archiveOldObjects_spec config_ g t s s' arch :
  archiveOldObjects config_ g t s = Ret (s', arch) ->
  archived_upto config_ g t s (sorted_ids (labels config_)) (s', arch).
Proof.
  unfold archiveOldObjects. intros Hrun.
  pose proof (NoDup_sorted_ids (labels config_)) as Hnd.
  revert Hrun.
  apply (for_each_prefix_inv (archived_upto config_ g t s)).
  { unfold archived_upto; simpl. split_and!; try done; set_solver. }
  intros pre label post [s1 a1] [s2 a2] Hsplit (Hi0 & Hi1 & Hi2 & Hi3 & Hi4 & Hi5 & Hi6) Hstep.
  simpl in *.
  rewrite Hsplit in Hnd. apply NoDup_app in Hnd as (_ & Hfresh & _).
  assert (Hlab : label ∉ pre) by (intros Hin; eapply Hfresh; [done | left]).
  apply archive_label_spec in Hstep
    as (Hsome & Hts1 & Hsome' & Hbr & Hoth & Hts2 & Harch & Hp & Hn).
  assert (Hact : active_objects_ s1 !! label = active_objects_ s !! label) by auto.
  assert (Hbr0 : active_bracket s1 label = active_bracket s label)
    by (unfold active_bracket; by rewrite Hact).
  rewrite Hbr0 in *.
  assert (Hsame : forall id, id ∈ active_bracket s label ->
            active_object_timestamps_ s1 !! id = active_object_timestamps_ s !! id).
  { intros id Hid. destruct (Hts1 id Hid) as [v Hv].
    rewrite Hv. symmetry. by apply Hi3 in Hv as [? _]. }
  unfold archived_upto; simpl. split_and!.
  - intros l [Hl | ->%list_elem_of_singleton]%elem_of_app; [by apply Hi0|].
    split; [by rewrite <- Hact|].
    intros id Hid. rewrite <- Hsame by done. by apply Hts1.
  - intros l [Hl | ->%list_elem_of_singleton]%elem_of_app.
    + assert (l ≠ label) by (intros ->; done).
      unfold active_bracket. rewrite Hoth by done. by apply Hi1.
    + split; [done|]. intros id. rewrite Hbr.
      split; intros [Hid Hm]; (split; [done|]);
        destruct (must_remove_ext config_ g t _ _ id (Hsame id Hid)) as [Heq _];
        congruence.
  - intros l Hl. rewrite elem_of_app, list_elem_of_singleton in Hl.
    rewrite Hoth by naive_solver. apply Hi2. naive_solver.
  - intros id v. rewrite Hts2. case_decide as Hdec.
    + split; [done|]. intros [_ Hno]. exfalso. apply Hno.
      destruct Hdec as [Hid Hm]. exists label. split; [set_solver|]. split; [done|].
      destruct (must_remove_ext config_ g t _ _ id (Hsame id Hid)) as [Heq _].
      congruence.
    + rewrite Hi3. split; intros [Hv Hno]; (split; [done|]).
      * intros (l & [Hl | ->%list_elem_of_singleton]%elem_of_app & Hid & Hm);
          [apply Hno; eauto |].
        apply Hdec. split; [done|].
        destruct (must_remove_ext config_ g t _ _ id (Hsame id Hid)) as [Heq _].
        congruence.
      * intros (l & Hl & Hid & Hm). apply Hno. exists l. set_solver.
  - intros id. rewrite Harch, Hi4. split.
    + intros [(l & Hl & Hid & He) | [Hid He]].
      * exists l. set_solver.
      * exists label. split; [set_solver|]. split; [done|].
        destruct (must_remove_ext config_ g t _ _ id (Hsame id Hid)) as [_ Heq].
        congruence.
    + intros (l & [Hl | ->%list_elem_of_singleton]%elem_of_app & Hid & He);
        [left; eauto | right].
      split; [done|].
      destruct (must_remove_ext config_ g t _ _ id (Hsame id Hid)) as [_ Heq].
      congruence.
  - congruence.
  - congruence.
Qed.

End ArchiveProofs.

Section ArchiveClaims.
Context `{Collaborators}.
Implicit Types (g : DynamicSceneGraph) (s : MeshSegmenter) (ts : gmap Z Z).

Lemma removed_nil config_ g t ts ids :
  (forall id, id ∈ ids -> must_remove config_ g t ts id = false) ->
  concat (map (removal_entries config_ g t ts) ids) = [] /\
  filter (fun id => is_expired config_ t ts id = true) ids = [].
Proof.
  induction ids as [|id ids IH]; intros Hall; [done|].
  destruct IH as [IH1 IH2]; [intros x Hx; apply Hall; by right|].
  assert (Hm : must_remove config_ g t ts id = false) by (apply Hall; left).
  unfold must_remove in Hm. apply orb_false_iff in Hm as [Hn He].
  apply negb_false_iff in Hn.
  simpl. rewrite IH1, filter_cons, IH2.
  unfold removal_entries. rewrite Hn, He. by rewrite decide_False by done.
Qed.

(** The erase loop cannot raise: a label's iteration completes as soon as
    its scan does. *)
Lemma archive_label_eq config_ g t s label arch rem arch' :
  archive_scan config_ g t s label arch = Ret (rem, arch') ->
  archive_label config_ g t label (s, arch) =
  Ret (foldl (fun s node_id => archive_erase label node_id s) s rem, arch').
Proof. intros Hscan. unfold archive_label. by rewrite Hscan. Qed.

(** A state in which no configured label holds an identifier to remove is a
    fixed point of the archive pass. *)
Lemma archiveOldObjects_clean config_ g t s :
  (forall l, l ∈ labels config_ ->
     is_Some (active_objects_ s !! l) /\
     forall id, id ∈ active_bracket s l ->
       is_Some (active_object_timestamps_ s !! id) /\
       must_remove config_ g t (active_object_timestamps_ s) id = false) ->
  archiveOldObjects config_ g t s = Ret (s, ∅).
Proof.
  intros Hclean. unfold archiveOldObjects.
  assert (Hl : forall l, l ∈ sorted_ids (labels config_) -> l ∈ labels config_)
    by (intros l; by rewrite elem_of_sorted_ids).
  generalize (∅ : gset Z) as arch.
  induction (sorted_ids (labels config_)) as [|l ls IH]; intros arch; [done|].
  destruct (Hclean l) as [[X HX] Hids]; [apply Hl; left|].
  assert (Hbr : active_bracket s l = X) by (unfold active_bracket; by rewrite HX).
  rewrite Hbr in Hids.
  destruct (removed_nil config_ g t (active_object_timestamps_ s) (sorted_ids X))
    as [Hrem Hexp].
  { intros id Hid. apply Hids. by apply elem_of_sorted_ids. }
  assert (Hscan : archive_scan config_ g t s l arch = Ret ([], arch)).
  { unfold archive_scan, at_. rewrite HX. cbn [mbind Res_bind].
    apply archive_scan_loop. split.
    - apply Forall_forall. intros id Hid. apply Hids. by apply elem_of_sorted_ids.
    - rewrite Hrem, Hexp. f_equal. set_solver. }
  cbn [for_each]. rewrite (archive_label_eq _ _ _ _ _ _ _ _ Hscan).
  cbn [mbind Res_bind foldl]. apply IH. intros l' Hl'. apply Hl. by right.
Qed.

Lemma count_removed config_ g t ts ids id :
  NoDup ids -> id ∈ ids ->
  length (filter (fun x => x = id) (concat (map (removal_entries config_ g t ts) ids))) =
  length (removal_entries config_ g t ts id).
Proof.
  assert (Hself : forall a, filter (fun x => x = id) (removal_entries config_ g t ts a) =
                            if decide (a = id) then removal_entries config_ g t ts a else []).
  { intros a. unfold removal_entries.
    destruct (hasNode g a), (is_expired config_ t ts a); simpl;
      rewrite ?filter_cons, ?filter_nil; repeat case_decide; done. }
  induction ids as [|a ids IH]; intros Hnd Hin; [by apply elem_of_nil in Hin|].
  apply NoDup_cons in Hnd as [Ha Hnd]. simpl. rewrite filter_app, length_app, Hself.
  destruct (decide (a = id)) as [->|Hne].
  - assert (Hno : filter (fun x => x = id)
                    (concat (map (removal_entries config_ g t ts) ids)) = []).
    { clear IH Hin Hnd. induction ids as [|b ids IH]; [done|].
      simpl. rewrite filter_app, Hself, IH by set_solver.
      rewrite decide_False by set_solver. done. }
    rewrite Hno. simpl. lia.
  - rewrite IH by set_solver. done.
Qed.

(** C1 (amended).  When the archive pass completes, an active identifier of a
    configured label that (a) has no graph node or (b) is older than the
    archive horizon is pruned from the active index and from the timestamp
    map; the returned set holds exactly the identifiers older than the
    horizon: every returned identifier is an active identifier of some
    configured label that is older than the horizon, and every such
    identifier is returned, so an identifier removed only because its node
    vanished is not returned.  An identifier with both (a) and (b) is
    appended twice to the removal list of its label's scan, the erase loop still completes, and the
    identifier is in the archived set. *)
Theorem archive_pass_prunes_and_reports config_ g t s s' archived label id :
  archiveOldObjects config_ g t s = Ret (s', archived) ->
  label ∈ labels config_ ->
  id ∈ active_bracket s label ->
  ((hasNode g id = false \/
    is_expired config_ t (active_object_timestamps_ s) id = true) ->
   (id ∉ active_bracket s' label) /\ active_object_timestamps_ s' !! id = None) /\
  (id ∈ archived <-> is_expired config_ t (active_object_timestamps_ s) id = true) /\
  (forall x, x ∈ archived <->
     exists l, l ∈ labels config_ /\ x ∈ active_bracket s l /\
               is_expired config_ t (active_object_timestamps_ s) x = true) /\
  (hasNode g id = false ->
   is_expired config_ t (active_object_timestamps_ s) id = true ->
   forall arch0 removed_nodes arch1,
     archive_scan config_ g t s label arch0 = Ret (removed_nodes, arch1) ->
     length (filter (fun x => x = id) removed_nodes) = 2%nat /\
     id ∈ arch1 /\
     archive_label config_ g t label (s, arch0) =
       Ret (foldl (fun s node_id => archive_erase label node_id s) s removed_nodes, arch1) /\
     archive_erase label id (archive_erase label id s) = archive_erase label id s).
Proof.
  intros Hrun Hlabel Hid.
  apply archiveOldObjects_spec in Hrun as (H0 & H1 & _ & H3 & H4 & _ & _).
  simpl in *.
  assert (Hl : label ∈ sorted_ids (labels config_)) by by apply elem_of_sorted_ids.
  split_and!.
  - intros Hrem.
    assert (Hm : must_remove config_ g t (active_object_timestamps_ s) id = true).
    { unfold must_remove. destruct Hrem as [-> | ->]; [done | apply orb_true_r]. }
    split.
    + destruct (H1 label Hl) as [_ Hbr]. rewrite Hbr. rewrite Hm. naive_solver.
    + destruct (active_object_timestamps_ s' !! id) as [v|] eqn:Hv; [|done].
      apply H3 in Hv as [_ Hno]. exfalso. apply Hno. eauto.
  - rewrite H4. split; [by intros (_ & _ & _ & He) | intros He; eauto].
  - intros x. rewrite H4.
    split; intros (l & Hx & Hin & He); exists l;
      (split; [by apply elem_of_sorted_ids in Hx || by apply elem_of_sorted_ids | done]).
  - intros Hgone He arch0 rem arch1 Hscan. split_and!.
    + unfold archive_scan in Hscan. apply bind_Ret in Hscan as (X & HX & Hscan).
      apply at_Ret in HX. apply archive_scan_loop in Hscan as [_ [= -> _]].
      rewrite ?app_nil_l, count_removed.
      * unfold removal_entries. by rewrite Hgone, He.
      * apply NoDup_sorted_ids.
      * apply elem_of_sorted_ids. unfold active_bracket in Hid. by rewrite HX in Hid.
    + unfold archive_scan in Hscan. apply bind_Ret in Hscan as (X & HX & Hscan).
      apply at_Ret in HX. apply archive_scan_loop in Hscan as [_ [= _ ->]].
      apply elem_of_union_l, elem_of_list_to_set, list_elem_of_filter.
      split; [done|]. apply elem_of_sorted_ids.
      unfold active_bracket in Hid. by rewrite HX in Hid.
    + by apply archive_label_eq.
    + unfold archive_erase, active_bracket; simpl. f_equal.
      * rewrite lookup_insert_eq, insert_insert_eq. simpl. f_equal. set_solver.
      * apply map_eq. intros k. destruct (decide (k = id)) as [->|];
          by rewrite ?lookup_delete_eq, ?lookup_delete_ne.
Qed.

(** C10 (amended).  The age test subtracts on 64 bits: for an active object
    whose last-observed timestamp [last] is ahead of the cycle's timestamp
    [t], the age wraps to [2^64 - (last - t)], and the object is archived
    (returned and dropped from the active index) exactly when that wrapped
    age exceeds the horizon, that is when [last - t < 2^64 - horizon]. *)
Theorem archive_age_wraps config_ g t s s' archived label id last :
  archiveOldObjects config_ g t s = Ret (s', archived) ->
  label ∈ labels config_ ->
  id ∈ active_bracket s label ->
  active_object_timestamps_ s !! id = Some last ->
  0 <= t -> t < last -> last < two64 ->
  sub64 t last = two64 - (last - t) /\
  (id ∈ archived <-> last - t < two64 - active_horizon_ns config_) /\
  (last - t < two64 - active_horizon_ns config_ -> id ∉ active_bracket s' label).
Proof.
  intros Hrun Hlabel Hid Hlast Ht0 Htl Hl64.
  assert (Hsub : sub64 t last = two64 - (last - t)).
  { unfold sub64, two64 in *.
    replace (t - last) with (2 ^ 64 - (last - t) + (-1) * 2 ^ 64) by lia.
    rewrite Z.mod_add by lia. apply Z.mod_small. lia. }
  assert (Hexp : is_expired config_ t (active_object_timestamps_ s) id = true <->
                 last - t < two64 - active_horizon_ns config_).
  { unfold is_expired, expired. rewrite Hlast, Hsub, Z.ltb_lt. lia. }
  apply archiveOldObjects_spec in Hrun as (H0 & H1 & _ & H3 & H4 & _ & _).
  simpl in *.
  assert (Hl : label ∈ sorted_ids (labels config_)) by by apply elem_of_sorted_ids.
  split_and!; [done | |].
  - rewrite H4, <- Hexp. split; [by intros (_ & _ & _ & He) | intros He; eauto].
  - intros Hwrap. apply Hexp in Hwrap.
    destruct (H1 label Hl) as [_ Hbr]. rewrite Hbr.
    rewrite (is_expired_must_remove _ g _ _ _ Hwrap). naive_solver.
Qed.

Lemma sorted_entries_empty {V} : sorted_entries (∅ : gmap Z V) = [].
Proof. unfold sorted_entries. by rewrite map_to_list_empty. Qed.

(** C8.  A [reconcile] with no clusters that completes leaves the graph as
    it was; calling it again with the same timestamp completes, archives
    nothing and returns the same graph and the same segmenter state (active
    index, timestamp map, pending-linkage set and counter). *)
Theorem reconcile_twice_idempotent config_ g t s g1 s1 archived1 :
  updateGraph config_ g ∅ t s = Ret (g1, s1, archived1) ->
  g1 = g /\ updateGraph config_ g1 ∅ t s1 = Ret (g1, s1, ∅).
Proof.
  unfold updateGraph. rewrite sorted_entries_empty. intros Hrun.
  apply bind_Ret in Hrun as ([s1' a1] & Harch & Hret).
  cbn [for_each mbind Res_bind] in Hret. injection Hret as <- <- <-.
  split; [done|].
  rewrite (archiveOldObjects_clean config_ g t s1'); [done|].
  apply archiveOldObjects_spec in Harch as (H0 & H1 & _ & H3 & _).
  simpl in *. intros l Hl%elem_of_sorted_ids.
  destruct (H1 l Hl) as [Hsome Hbr]. split; [done|].
  intros id [Hid Hm]%Hbr.
  destruct (H0 l Hl) as [_ Hts]. destruct (Hts id Hid) as [v Hv].
  assert (Hv1 : active_object_timestamps_ s1' !! id = Some v).
  { apply H3. split; [done|]. intros (l' & _ & _ & Hm'). congruence. }
  split; [eauto|].
  destruct (must_remove_ext config_ g t (active_object_timestamps_ s1')
              (active_object_timestamps_ s) id) as [Heq _]; congruence.
Qed.

End ArchiveClaims.

(** At 6 s, object 0 of [aged_state] is stale and has no node: it is pruned,
    returned, and was appended twice by the scan of label 3. *)
Lemma archive_pass_prunes_and_reports_witness :
  let s' := Examples.segmenter [2] [(2, 5000000000)] [] 3 in
  archiveOldObjects Examples.cfg3 Examples.aged_graph 6000000000 Examples.aged_state
    = Ret (s', {[ 0; 1 ]}) /\
  (0 ∉ active_bracket s' 3) /\
  active_object_timestamps_ s' !! 0 = None /\
  (0 ∈ ({[ 0; 1 ]} : gset Z)) /\
  (forall x, x ∈ ({[ 0; 1 ]} : gset Z) <->
     exists l, l ∈ labels Examples.cfg3 /\
               x ∈ active_bracket Examples.aged_state l /\
               is_expired Examples.cfg3 6000000000
                 (active_object_timestamps_ Examples.aged_state) x = true) /\
  length (filter (fun x => x = 0) [0; 0; 1]) = 2%nat.
Proof.
  intros s'.
  assert (Hrun : archiveOldObjects Examples.cfg3 Examples.aged_graph 6000000000
                   Examples.aged_state = Ret (s', {[ 0; 1 ]}))
    by (vm_compute; reflexivity).
  destruct (archive_pass_prunes_and_reports Examples.cfg3 Examples.aged_graph
              6000000000 Examples.aged_state s' {[ 0; 1 ]} 3 0 Hrun)
    as (Hpruned & Hret & Hexact & Htwice).
  - by_compute.
  - by_compute.
  - destruct Hpruned as [Hidx Hts]; [left; vm_compute; reflexivity|].
    destruct (Htwice eq_refl eq_refl ∅ [0; 0; 1] {[ 0; 1 ]}) as (Hcount & _);
      [vm_compute; reflexivity|].
    split_and!; [exact Hrun | exact Hidx | exact Hts | | exact Hexact | exact Hcount].
    apply Hret. vm_compute. reflexivity.
Defined.

(** C1, as stated, fails: object 0 of [vanished_state] is fresh (10 ns old)
    but has no node; the pass prunes it and returns an empty set. *)
Lemma archive_vanished_not_reported :
  exists s' archived,
    archiveOldObjects Examples.cfg3 Examples.vanished_graph 10 Examples.vanished_state
      = Ret (s', archived) /\
    0 ∈ active_bracket Examples.vanished_state 3 /\
    hasNode Examples.vanished_graph 0 = false /\
    (0 ∉ active_bracket s' 3) /\
    active_object_timestamps_ s' !! 0 = None /\
    0 ∉ archived.
Proof.
  exists (Examples.segmenter [] [] [0] 1), ∅.
  split_and!;
    first [vm_compute; reflexivity | by_compute | apply not_elem_of_empty].
Qed.

(** Object 1 was stamped 1 microsecond ahead of the cycle: the age wraps and
    the object is archived. *)
Lemma archive_age_wraps_witness :
  sub64 1000 2000 = two64 - (2000 - 1000) /\
  (1 ∈ ({[ 1 ]} : gset Z) <-> 2000 - 1000 < two64 - 5000000000) /\
  (2000 - 1000 < two64 - 5000000000 ->
   1 ∉ active_bracket (Examples.segmenter [] [] [] 2) 3).
Proof.
  apply (archive_age_wraps Examples.cfg3 Examples.ahead_graph 1000
           (Examples.ahead_state 2000) (Examples.segmenter [] [] [] 2) {[ 1 ]} 3 1 2000).
  - vm_compute. reflexivity.
  - by_compute.
  - by_compute.
  - vm_compute. reflexivity.
  - lia.
  - lia.
  - vm_compute. reflexivity.
Defined.

(** C10, as stated, fails: with the cycle at 0 and object 1 stamped at
    [2^64 - 1], the wrapped age is 1 ns and the object stays active. *)
Lemma archive_age_wrap_keeps_far_ahead :
  exists s' archived,
    archiveOldObjects Examples.cfg3 Examples.ahead_graph 0
      (Examples.ahead_state (two64 - 1)) = Ret (s', archived) /\
    active_object_timestamps_ (Examples.ahead_state (two64 - 1)) !! 1 = Some (two64 - 1) /\
    0 < two64 - 1 /\
    sub64 0 (two64 - 1) = 1 /\
    1 ∈ active_bracket s' 3 /\
    1 ∉ archived.
Proof.
  exists (Examples.ahead_state (two64 - 1)), ∅.
  split_and!;
    first [vm_compute; reflexivity | by_compute | apply not_elem_of_empty].
Qed.

(** Two cycles at 6 s on [aged_state] without clusters. *)
Lemma reconcile_twice_idempotent_witness :
  let s1 := Examples.segmenter [2] [(2, 5000000000)] [] 3 in
  Examples.aged_graph = Examples.aged_graph /\
  updateGraph Examples.cfg3 Examples.aged_graph ∅ 6000000000 s1
    = Ret (Examples.aged_graph, s1, ∅).
Proof.
  intros s1.
  apply (reconcile_twice_idempotent Examples.cfg3 Examples.aged_graph 6000000000
           Examples.aged_state Examples.aged_graph s1 {[ 0; 1 ]}).
  vm_compute. reflexivity.
Defined.

(** ** The graph store *)

Section GraphProofs.
Context `{Collaborators}.
Implicit Types (g : DynamicSceneGraph) (s : MeshSegmenter).

Lemma hasNode_true g id : hasNode g id = true <-> is_Some (getNode g id).
Proof. unfold hasNode, getNode. apply bool_decide_eq_true. Qed.

Lemma hasNode_false g id : hasNode g id = false <-> getNode g id = None.
Proof.
  unfold hasNode, getNode. rewrite bool_decide_eq_false.
  by rewrite eq_None_not_Some.
Qed.

Lemma getNode_removeNode g x id :
  getNode (removeNode g x) id = if decide (x = id) then None else getNode g id.
Proof. unfold getNode, removeNode; simpl. apply lookup_delete. Qed.

Lemma getNode_emplaceNode g x attrs id :
  getNode (emplaceNode g x attrs) id =
  if decide (x = id)
  then Some (default {| attributes := attrs; has_parent := false |} (getNode g x))
  else getNode g id.
Proof.
  unfold emplaceNode. destruct (hasNode g x) eqn:Hx.
  - apply hasNode_true in Hx as [n Hn]. case_decide; [subst; by rewrite Hn | done].
  - apply hasNode_false in Hx. unfold getNode in *; simpl.
    rewrite lookup_insert. case_decide; [by rewrite Hx | done].
Qed.

Lemma insertMeshEdges_nodes g id idxs : nodes (insertMeshEdges g id idxs) = nodes g.
Proof.
  unfold insertMeshEdges. revert g. induction idxs as [|idx idxs IH]; intros g; [done|].
  simpl. rewrite IH. unfold insertMeshEdge. by destruct (hasNode g id).
Qed.

Lemma getNode_insertMeshEdges g id idxs x :
  getNode (insertMeshEdges g id idxs) x = getNode g x.
Proof. unfold getNode. by rewrite insertMeshEdges_nodes. Qed.

Lemma insertMeshEdges_edges g id idxs e :
  hasNode g id = true ->
  e ∈ mesh_edges (insertMeshEdges g id idxs) <->
  e ∈ mesh_edges g \/ exists idx, idx ∈ idxs /\ e = (id, idx).
Proof.
  unfold insertMeshEdges. revert g. induction idxs as [|idx idxs IH]; intros g Hg; simpl.
  - split; [by left | intros [?|(? & []%elem_of_nil & _)]; done].
  - rewrite IH.
    + unfold insertMeshEdge. rewrite Hg. simpl. set_solver.
    + unfold insertMeshEdge. rewrite Hg. done.
Qed.


Lemma getNode_set_attributes g x attrs id :
  getNode (set_attributes g x attrs) id =
  if decide (x = id)
  then (fun n => {| attributes := attrs; has_parent := has_parent n |}) <$> getNode g id
  else getNode g id.
Proof.
  unfold getNode, set_attributes; simpl. rewrite lookup_alter.
  case_decide; by subst.
Qed.

(** C3.  An update of a matched object (one with a timestamp entry, read from
    the graph) completes; it sets the object's timestamp to the cycle's and
    attaches every vertex index of the cluster as a mesh edge, whatever the
    boxes are.  Position and box are replaced by the cluster's centroid and
    box, and the identifier joins the pending-linkage set, exactly when the
    candidate volume is strictly greater than the existing one; when the
    existing volume is greater or equal the node and the pending-linkage set
    are as before.  In particular a box of volume 10 updated with a candidate
    of volume 8 keeps position and box. *)
Theorem update_keeps_larger_box g (cluster : Cluster) node_id node t s last :
  active_object_timestamps_ s !! node_id = Some last ->
  getNode g node_id = Some node ->
  let old_box := bounding_box (attributes node) in
  let new_box := extract (cloud cluster) in
  exists g' s',
    updateObjectInGraph g cluster node_id node t s = Ret (g', s') /\
    active_object_timestamps_ s' !! node_id = Some t /\
    (forall idx, idx ∈ indices cluster -> (node_id, idx) ∈ mesh_edges g') /\
    ((volume old_box < volume new_box)%Q ->
       (exists node', getNode g' node_id = Some node' /\
          bounding_box (attributes node') = new_box /\
          position (attributes node') = centroid cluster) /\
       objects_to_check_for_places_ s' = {[ node_id ]} ∪ objects_to_check_for_places_ s) /\
    ((volume new_box <= volume old_box)%Q ->
       getNode g' node_id = Some node /\
       objects_to_check_for_places_ s' = objects_to_check_for_places_ s) /\
    ((volume old_box == 10)%Q -> (volume new_box == 8)%Q ->
       getNode g' node_id = Some node).
Proof.
  intros Hts Hnode old_box new_box.
  assert (Hhas : hasNode g node_id = true) by (apply hasNode_true; eauto).
  unfold updateObjectInGraph, at_. rewrite Hts. cbn [mbind Res_bind].
  fold new_box. fold old_box.
  destruct (Qle_bool (volume new_box) (volume old_box)) eqn:Hcmp.
  - apply Qle_bool_iff in Hcmp.
    eexists _, _. split; [reflexivity|]. simpl. split_and!.
    + apply lookup_insert_eq.
    + intros idx Hidx. apply insertMeshEdges_edges; eauto.
    + intros Hlt. exfalso. exact (Qlt_not_le _ _ Hlt Hcmp).
    + intros _. by rewrite getNode_insertMeshEdges.
    + intros _ _. by rewrite getNode_insertMeshEdges.
  - assert (Hlt : (volume old_box < volume new_box)%Q).
    { apply Qnot_le_lt. intros Hle. apply Qle_bool_iff in Hle. congruence. }
    eexists _, _. split; [reflexivity|]. simpl. split_and!.
    + apply lookup_insert_eq.
    + intros idx Hidx. apply insertMeshEdges_edges; eauto.
    + intros _. split; [|done].
      rewrite getNode_set_attributes, decide_True by done.
      rewrite getNode_insertMeshEdges, Hnode. simpl. eauto.
    + intros Hle. exfalso. exact (Qlt_not_le _ _ Hlt Hle).
    + intros H10 H8. exfalso. rewrite H10, H8 in Hlt. discriminate Hlt.
Qed.

End GraphProofs.

(** The scenario of section 8 of the spec: volume 10 updated with volume 8. *)
Lemma update_keeps_larger_box_witness :
  exists g' s',
    updateObjectInGraph Examples.scenario_graph Examples.scenario_cluster 7
      Examples.scenario_node 200 Examples.scenario_state = Ret (g', s') /\
    active_object_timestamps_ s' !! 7 = Some 200 /\
    (7, 4) ∈ mesh_edges g' /\ (7, 5) ∈ mesh_edges g' /\
    getNode g' 7 = Some Examples.scenario_node /\
    objects_to_check_for_places_ s' = ∅.
Proof.
  destruct (update_keeps_larger_box Examples.scenario_graph Examples.scenario_cluster
              7 Examples.scenario_node 200 Examples.scenario_state 100)
    as (g' & s' & Hrun & Hts & Hedges & _ & Hkeep & Hscenario).
  - vm_compute. reflexivity.
  - vm_compute. reflexivity.
  - exists g', s'. split_and!; [exact Hrun | exact Hts | | | | ].
    + apply Hedges. by_compute.
    + apply Hedges. by_compute.
    + apply Hscenario; vm_compute; reflexivity.
    + destruct Hkeep as [_ ->]; [vm_compute; discriminate | vm_compute; reflexivity].
Defined.

(** ** Identifier allocation and matching *)

Section LifecycleProofs.
Context `{Collaborators}.
Implicit Types (g : DynamicSceneGraph) (s : MeshSegmenter).

Lemma updateObjectInGraph_next g (cluster : Cluster) node_id node t s g' s' :
  updateObjectInGraph g cluster node_id node t s = Ret (g', s') ->
  next_node_id_ s' = next_node_id_ s.
Proof.
  unfold updateObjectInGraph. intros Hrun.
  apply bind_Ret in Hrun as (? & _ & Hrun).
  destruct (Qle_bool _ _); by injection Hrun as <- <-.
Qed.

(** What a create does, case by case. *)
Lemma addObjectToGraph_spec g (cluster : Cluster) label t s g' s' :
  addObjectToGraph g cluster label t s = Ret (g', s') ->
  (cloud cluster = [] /\ g' = g /\ s' = s) \/
  (exists point pts X,
     cloud cluster = point :: pts /\
     active_objects_ s !! label = Some X /\
     let id := next_node_id_ s in
     g' = insertMeshEdges
            (emplaceNode g id
               {| semantic_label := label; name := id;
                  bounding_box := extract (cloud cluster);
                  color := point_color point; position := centroid cluster |})
            id (indices cluster) /\
     s' = {| active_objects_ := <[label := {[ id ]} ∪ X]> (active_objects_ s);
             active_object_timestamps_ := <[id := t]> (active_object_timestamps_ s);
             objects_to_check_for_places_ := {[ id ]} ∪ objects_to_check_for_places_ s;
             next_node_id_ := id + 1 |}).
Proof.
  unfold addObjectToGraph. destruct (cloud cluster) as [|point pts] eqn:Hc.
  - intros [= <- <-]. by left.
  - intros Hrun. apply bind_Ret in Hrun as (X & HX%at_Ret & [= <- <-]).
    right. by exists point, pts, X.
Qed.

Lemma addObjectToGraph_next g (cluster : Cluster) label t s g' s' :
  addObjectToGraph g cluster label t s = Ret (g', s') ->
  next_node_id_ s <= next_node_id_ s'.
Proof.
  intros [(_ & _ & ->) | (? & ? & ? & _ & _ & _ & ->)]%addObjectToGraph_spec;
    simpl; lia.
Qed.

Lemma remove_object_next label id g s :
  next_node_id_ (remove_object label id g s).2 = next_node_id_ s.
Proof. done. Qed.

Lemma dedup_inner_body_next label node_id node other_id g s alive g' s' alive' :
  dedup_inner_body label node_id node other_id (g, s, alive) = Ret (g', s', alive') ->
  next_node_id_ s' = next_node_id_ s.
Proof.
  unfold dedup_inner_body. intros Hrun.
  repeat case_decide; try by (injection Hrun as <- <- <-).
  destruct (negb (hasNode g other_id)); [by injection Hrun as <- <- <-|].
  apply bind_Ret in Hrun as (n & _ & Hrun).
  destruct alive; [|done].
  destruct (overlapping _ _); [|by injection Hrun as <- <- <-].
  destruct (Qle_bool _ _); by injection Hrun as <- <- <-.
Qed.

Lemma dedup_next label g s g' s' :
  dedup label (g, s) = Ret (g', s') -> next_node_id_ s' = next_node_id_ s.
Proof.
  unfold dedup. intros Hrun.
  revert Hrun.
  apply (for_each_inv (fun st : DynamicSceneGraph * MeshSegmenter =>
                         next_node_id_ st.2 = next_node_id_ s)); [done|].
  intros node_id [g1 s1] [g2 s2] _ Hinv Hbody. simpl in *.
  unfold dedup_outer_body in Hbody.
  destruct (negb (hasNode g1 node_id)); [by injection Hbody as <- <-|].
  apply bind_Ret in Hbody as (node & _ & Hbody).
  apply bind_Ret in Hbody as ([[g3 s3] alive] & Hinner & [= <- <-]).
  revert Hinner.
  apply (for_each_inv (fun st : DynamicSceneGraph * MeshSegmenter * bool =>
                         next_node_id_ st.1.2 = next_node_id_ s)); [done|].
  intros other_id [[ga sa] aa] [[gb sb] ab] _ Hinv' Hb. simpl in *.
  apply dedup_inner_body_next in Hb. congruence.
Qed.

(** Every lifecycle operation leaves the counter where it is or moves it
    forward. *)
Lemma lifecycle_step_next s s' :
  lifecycle_step s s' -> next_node_id_ s <= next_node_id_ s'.
Proof.
  intros [config_ g t s0 s1 archived Hrun | g c id n t s0 g' s1 Hrun
         | g c l t s0 g' s1 Hrun | l g s0 g' s1 Hrun | g s0].
  - apply archiveOldObjects_spec in Hrun as (_ & _ & _ & _ & _ & _ & Hn).
    simpl in Hn. lia.
  - apply updateObjectInGraph_next in Hrun. lia.
  - by apply addObjectToGraph_next in Hrun.
  - apply dedup_next in Hrun. lia.
  - done.
Qed.

Lemma lifecycle_steps_next s s' :
  rtc lifecycle_step s s' -> next_node_id_ s <= next_node_id_ s'.
Proof.
  induction 1 as [|s1 s2 s3 Hstep _ IH]; [done|].
  apply lifecycle_step_next in Hstep. lia.
Qed.

Lemma match_or_create_steps label t (cluster : Cluster) g s g' s' :
  match_or_create label t cluster (g, s) = Ret (g', s') -> lifecycle_step s s'.
Proof.
  unfold match_or_create. intros Hrun.
  apply bind_Ret in Hrun as (X & _ & Hrun).
  apply bind_Ret in Hrun as (found & _ & Hrun).
  destruct found as [[id node]|].
  - by eapply step_update.
  - by eapply step_create.
Qed.

(** A completed [updateGraph] is a sequence of lifecycle operations. *)
Lemma updateGraph_steps config_ g clusters t s g' s' archived :
  updateGraph config_ g clusters t s = Ret (g', s', archived) ->
  rtc lifecycle_step s s'.
Proof.
  unfold updateGraph. intros Hrun.
  apply bind_Ret in Hrun as ([s1 a1] & Harch & Hrun).
  apply bind_Ret in Hrun as ([g2 s2] & Hloop & [= <- <- <-]).
  eapply rtc_l; [by eapply step_archive|].
  revert Hloop.
  apply (for_each_inv (fun st : DynamicSceneGraph * MeshSegmenter =>
                         rtc lifecycle_step s1 st.2)); [done|].
  intros [label cl] [ga sa] [gb sb] _ Hinv Hbody. simpl in *.
  unfold update_label in Hbody. simpl in Hbody.
  apply bind_Ret in Hbody as ([gc sc] & Hcl & Hdedup).
  eapply rtc_r; [|by eapply step_dedup].
  revert Hcl.
  apply (for_each_inv (fun st : DynamicSceneGraph * MeshSegmenter =>
                         rtc lifecycle_step s1 st.2)); [done|].
  intros c [gd sd] [ge se] _ Hinv' Hb. simpl in *.
  eapply rtc_r; [done|]. by eapply match_or_create_steps.
Qed.

(** C9.  A create on an empty cluster changes nothing, the counter included.
    A create on a non-empty cluster uses the counter's value as the new
    identifier and moves the counter forward by exactly one.  No lifecycle
    operation (archive pass, update, create, deduplication, pruning) ever
    moves the counter back, so after any sequence of them the counter is
    above the identifier, and a later create uses a different one, whether or
    not the first object is still tracked or still in the graph. *)
Theorem identifiers_never_reused g (cluster : Cluster) label t s g1 s1 :
  addObjectToGraph g cluster label t s = Ret (g1, s1) ->
  (cloud cluster = [] -> g1 = g /\ s1 = s) /\
  (cloud cluster ≠ [] ->
     next_node_id_ s1 = next_node_id_ s + 1 /\
     next_node_id_ s ∈ active_bracket s1 label /\
     is_Some (getNode g1 (next_node_id_ s)) /\
     forall s2, rtc lifecycle_step s1 s2 ->
       next_node_id_ s < next_node_id_ s2 /\
       forall g2 (cluster2 : Cluster) label2 t2 g3 s3,
         addObjectToGraph g2 cluster2 label2 t2 s2 = Ret (g3, s3) ->
         cloud cluster2 ≠ [] ->
         next_node_id_ s2 ∈ active_bracket s3 label2 /\
         next_node_id_ s2 ≠ next_node_id_ s /\
         next_node_id_ s3 = next_node_id_ s2 + 1).
Proof.
  intros Hrun.
  assert (Hcreate : forall g (c : Cluster) l t s g' s',
             addObjectToGraph g c l t s = Ret (g', s') -> cloud c ≠ [] ->
             next_node_id_ s' = next_node_id_ s + 1 /\
             next_node_id_ s ∈ active_bracket s' l /\
             is_Some (getNode g' (next_node_id_ s))).
  { clear. intros g c l t s g' s' Hrun Hne.
    apply addObjectToGraph_spec in Hrun
      as [(Hc & _) | (point & pts & X & Hc & HX & -> & ->)]; [done|].
    simpl. split_and!; [done | |].
    - unfold active_bracket; simpl. rewrite lookup_insert_eq. simpl. set_solver.
    - rewrite getNode_insertMeshEdges, getNode_emplaceNode.
      rewrite decide_True by done. eauto. }
  split.
  - intros Hc. apply addObjectToGraph_spec in Hrun
      as [(_ & -> & ->) | (point & pts & X & Hc' & _)]; [done | congruence].
  - intros Hne. destruct (Hcreate _ _ _ _ _ _ _ Hrun Hne) as (Hn & Hin & Hg).
    split_and!; [done..|].
    intros s2 Hlater. apply lifecycle_steps_next in Hlater.
    split; [lia|].
    intros g2 c2 l2 t2 g3 s3 Hrun2 Hne2.
    destruct (Hcreate _ _ _ _ _ _ _ Hrun2 Hne2) as (Hn2 & Hin2 & _).
    split_and!; [done | lia | done].
Qed.

Lemma find_match_first g (cluster : Cluster) pre id node post :
  (forall a, a ∈ pre ->
     exists n, getNode g a = Some n /\ objectsMatch cluster n = false) ->
  getNode g id = Some node ->
  objectsMatch cluster node = true ->
  find_match g cluster (pre ++ id :: post) = Ret (Some (id, node)).
Proof.
  intros Hpre Hnode Hmatch. induction pre as [|a pre IH]; simpl.
  - by rewrite Hnode; simpl; rewrite Hmatch.
  - destruct (Hpre a) as (n & Hn & Hno); [left|].
    rewrite Hn; simpl. rewrite Hno. apply IH. intros b Hb. apply Hpre. by right.
Qed.

Lemma find_match_none g (cluster : Cluster) ids :
  (forall a, a ∈ ids ->
     exists n, getNode g a = Some n /\ objectsMatch cluster n = false) ->
  find_match g cluster ids = Ret None.
Proof.
  intros Hall. induction ids as [|a ids IH]; simpl; [done|].
  destruct (Hall a) as (n & Hn & Hno); [left|].
  rewrite Hn; simpl. rewrite Hno. apply IH. intros b Hb. apply Hall. by right.
Qed.


End LifecycleProofs.

(** A first create takes identifier 0; ten seconds later the object is
    archived; the next create takes identifier 1. *)
Lemma identifiers_never_reused_witness :
  let s2 := Examples.segmenter [] [] [0] 1 in
  addObjectToGraph (Examples.graph_of []) Examples.scenario_cluster 3 200
    (MeshSegmenter_new Examples.cfg3 0)
    = Ret (Examples.created_graph, Examples.created_state) /\
  updateGraph Examples.cfg3 Examples.created_graph ∅ 10000000000 Examples.created_state
    = Ret (Examples.created_graph, s2, {[ 0 ]}) /\
  addObjectToGraph Examples.created_graph Examples.scenario_cluster 3 10000000000 s2
    = Ret (Examples.recreated_graph, Examples.recreated_state) /\
  next_node_id_ s2 ∈ active_bracket Examples.recreated_state 3 /\
  next_node_id_ s2 ≠ next_node_id_ (MeshSegmenter_new Examples.cfg3 0) /\
  next_node_id_ Examples.recreated_state = next_node_id_ s2 + 1.
Proof.
  intros s2.
  assert (Hc1 : addObjectToGraph (Examples.graph_of []) Examples.scenario_cluster 3 200
                  (MeshSegmenter_new Examples.cfg3 0)
                = Ret (Examples.created_graph, Examples.created_state))
    by (vm_compute; reflexivity).
  assert (Hu : updateGraph Examples.cfg3 Examples.created_graph ∅ 10000000000
                 Examples.created_state
               = Ret (Examples.created_graph, s2, {[ 0 ]}))
    by (vm_compute; reflexivity).
  assert (Hc2 : addObjectToGraph Examples.created_graph Examples.scenario_cluster 3
                  10000000000 s2
                = Ret (Examples.recreated_graph, Examples.recreated_state))
    by (vm_compute; reflexivity).
  destruct (identifiers_never_reused _ _ _ _ _ _ _ Hc1) as [_ Hfresh].
  destruct Hfresh as (_ & _ & _ & Hlater); [vm_compute; discriminate|].
  destruct (Hlater s2 (updateGraph_steps _ _ _ _ _ _ _ _ Hu)) as [_ Hnext].
  destruct (Hnext _ _ _ _ _ _ Hc2) as (Hin & Hne & Hn3); [vm_compute; discriminate|].
  split_and!; [exact Hc1 | exact Hu | exact Hc2 | exact Hin | exact Hne | exact Hn3].
Defined.



(** ** Detection *)

Section DetectProofs.
Context `{Collaborators}.

Lemma FindClusters_not_in_notify callback_funcs_ active label_indices label idxs :
  FindClusters label idxs ∉ notify callback_funcs_ active label_indices.
Proof.
  unfold notify. induction callback_funcs_ as [|f fs IH]; simpl.
  - apply not_elem_of_nil.
  - intros [Heq | Hin]%elem_of_cons; [discriminate | done].
Qed.

(** The loop over the configured labels, once the labels [visited] have been
    handled. *)
Lemma detect_label_loop config_ mesh (label_indices : gmap Z (list Z)) ls st :
  NoDup ls ->
  for_each (detect_label config_ mesh label_indices) ls (∅, []) = Ret st ->
  (forall label idxs, FindClusters label idxs ∈ st.2 ->
     label ∈ ls /\ label_indices !! label = Some idxs /\
     min_cluster_size config_ <= Z.of_nat (length idxs)) /\
  (forall label clusters, st.1 !! label = Some clusters <->
     label ∈ ls /\ exists idxs,
       label_indices !! label = Some idxs /\
       min_cluster_size config_ <= Z.of_nat (length idxs) /\
       findClusters mesh idxs = Ret clusters).
Proof.
  intros Hnd.
  apply (for_each_prefix_inv
           (fun visited (st : gmap Z (list Cluster) * list Event) =>
              (forall label idxs, FindClusters label idxs ∈ st.2 ->
                 label ∈ visited /\ label_indices !! label = Some idxs /\
                 min_cluster_size config_ <= Z.of_nat (length idxs)) /\
              (forall label clusters, st.1 !! label = Some clusters <->
                 label ∈ visited /\ exists idxs,
                   label_indices !! label = Some idxs /\
                   min_cluster_size config_ <= Z.of_nat (length idxs) /\
                   findClusters mesh idxs = Ret clusters))).
  { simpl. split.
    - intros label idxs []%elem_of_nil.
    - intros label clusters. rewrite lookup_empty.
      split; [done | intros [[]%elem_of_nil _]]. }
  intros pre label post [lc tr] [lc' tr'] Hsplit [Htr Hlc] Hbody. simpl in *.
  rewrite Hsplit in Hnd. apply NoDup_app in Hnd as (_ & Hfresh & _).
  assert (Hlab : label ∉ pre) by (intros Hin; eapply Hfresh; [done | left]).
  unfold detect_label in Hbody.
  destruct (label_indices !! label) as [idxs|] eqn:Hli.
  2: { injection Hbody as <- <-. split.
       - intros l i Hin. destruct (Htr l i Hin) as (? & ? & ?).
         split; [apply elem_of_app; by left | done].
       - intros l cl. rewrite Hlc, elem_of_app, list_elem_of_singleton.
         split; [naive_solver|]. intros [[Hl | ->] Hex]; [eauto|].
         destruct Hex as (? & ? & _). congruence. }
  destruct (Z.of_nat (length idxs) <? min_cluster_size config_) eqn:Hsize.
  { injection Hbody as <- <-. apply Z.ltb_lt in Hsize. split.
    - intros l i Hin. destruct (Htr l i Hin) as (? & ? & ?).
      split; [apply elem_of_app; by left | done].
    - intros l cl. rewrite Hlc, elem_of_app, list_elem_of_singleton.
      split; [naive_solver|]. intros [[Hl | ->] Hex]; [eauto|].
      destruct Hex as (i & Hi & Hmin & _). simplify_eq. lia. }
  apply Z.ltb_ge in Hsize.
  apply bind_Ret in Hbody as (clusters & Hfind & [= <- <-]).
  assert (Hnone : lc !! label = None).
  { destruct (lc !! label) as [cl|] eqn:Hl; [|done].
    apply Hlc in Hl as [Hin _]. done. }
  rewrite Hnone. split.
  - intros l i [Hin | Heq%list_elem_of_singleton]%elem_of_app.
    + destruct (Htr l i Hin) as (? & ? & ?).
      split; [apply elem_of_app; by left | done].
    + injection Heq as -> ->. split; [apply elem_of_app; right; left | done].
  - intros l cl. rewrite elem_of_app, list_elem_of_singleton.
    destruct (decide (l = label)) as [->|Hne].
    + rewrite lookup_insert_eq. split.
      * intros [= <-]. split; [by right | eauto].
      * intros [_ (i & Hi & _ & Hf)]. simplify_eq. congruence.
    + rewrite lookup_insert_ne by done. rewrite Hlc. naive_solver.
Qed.

(** C4 (amended).  The clustering oracle is run only on labels of the
    configured set whose index group has at least [min_cluster_size]
    members, so a label below the minimum is never sent to it.  The returned
    map holds exactly those labels, each with the clusters the oracle
    produced for it, whether or not there are any: a label for which the
    oracle finds no cluster is returned with an empty sequence. *)
Theorem detect_runs_oracle_on_large_groups config_ mesh callback_funcs_ label_map
    frontend_indices pos active_indices label_clusters trace :
  getActiveIndices mesh frontend_indices pos = Ret active_indices ->
  detect config_ mesh callback_funcs_ label_map frontend_indices pos
    = Ret (label_clusters, trace) ->
  let label_indices := getLabelIndices config_ mesh label_map active_indices in
  (forall label idxs, FindClusters label idxs ∈ trace ->
     label ∈ labels config_ /\ label_indices !! label = Some idxs /\
     min_cluster_size config_ <= Z.of_nat (length idxs)) /\
  (forall label clusters, label_clusters !! label = Some clusters <->
     active_indices ≠ [] /\ label ∈ labels config_ /\
     exists idxs, label_indices !! label = Some idxs /\
       min_cluster_size config_ <= Z.of_nat (length idxs) /\
       findClusters mesh idxs = Ret clusters).
Proof.
  intros Hactive Hrun label_indices. unfold detect in Hrun.
  rewrite Hactive in Hrun. cbn [mbind Res_bind] in Hrun.
  destruct active_indices as [|a0 rest].
  { injection Hrun as <- <-. split.
    - intros label idxs []%elem_of_nil.
    - intros label clusters. rewrite lookup_empty. naive_solver. }
  fold label_indices in Hrun.
  destruct (decide (label_indices = ∅)) as [Hempty|Hne].
  { injection Hrun as <- <-. split.
    - intros label idxs Hin. by apply FindClusters_not_in_notify in Hin.
    - intros label clusters. rewrite lookup_empty, Hempty.
      split; [done | intros (_ & _ & i & Hi & _)]. by rewrite lookup_empty in Hi. }
  apply bind_Ret in Hrun as ([lc tr] & Hloop & [= <- <-]).
  apply detect_label_loop in Hloop as [Htr Hlc]; [|apply NoDup_sorted_ids].
  simpl in *. split.
  - intros label idxs [Hin | Hin]%elem_of_app.
    + destruct (Htr label idxs Hin) as (Hl%elem_of_sorted_ids & ? & ?). done.
    + by apply FindClusters_not_in_notify in Hin.
  - intros label clusters. rewrite Hlc, elem_of_sorted_ids. naive_solver.
Qed.

(** C5 (the code at the failing input).  When the active region is empty,
    [detect] returns the empty result without calling any registered
    callback: the trace is empty whatever [callback_funcs_] holds. *)
Theorem detect_empty_region_skips_callbacks config_ mesh callback_funcs_ label_map
    frontend_indices pos :
  getActiveIndices mesh frontend_indices pos = Ret [] ->
  detect config_ mesh callback_funcs_ label_map frontend_indices pos = Ret (∅, []).
Proof. intros Hactive. unfold detect. by rewrite Hactive. Qed.

(** X5.  With a non-empty active region every registered callback is
    called, once and in registration order, with the active indices and the
    label partition, after all the oracle runs. *)
Lemma detect_notifies_active_region config_ mesh callback_funcs_ label_map
    frontend_indices pos a rest label_clusters trace :
  getActiveIndices mesh frontend_indices pos = Ret (a :: rest) ->
  detect config_ mesh callback_funcs_ label_map frontend_indices pos
    = Ret (label_clusters, trace) ->
  exists oracle_runs,
    trace = oracle_runs ++
            notify callback_funcs_ (a :: rest)
              (getLabelIndices config_ mesh label_map (a :: rest)) /\
    forall f ai li, Callback f ai li ∉ oracle_runs.
Proof.
  intros Hactive Hrun. unfold detect in Hrun.
  rewrite Hactive in Hrun. cbn [mbind Res_bind] in Hrun.
  destruct (decide _) as [Hempty|Hne].
  { injection Hrun as <- <-. exists []. split; [done|].
    intros f ai li. apply not_elem_of_nil. }
  apply bind_Ret in Hrun as ([lc tr] & Hloop & [= <- <-]).
  exists tr. split; [done|]. revert Hloop.
  apply (for_each_inv (fun st : gmap Z (list Cluster) * list Event =>
                         forall f ai li, Callback f ai li ∉ st.2)).
  { intros f ai li. apply not_elem_of_nil. }
  intros label [lc1 tr1] [lc2 tr2] _ Hinv Hbody. simpl in *.
  unfold detect_label in Hbody.
  destruct (_ !! label) as [idxs|]; [|by injection Hbody as <- <-].
  destruct (_ <? _); [by injection Hbody as <- <-|].
  apply bind_Ret in Hbody as (clusters & _ & [= <- <-]).
  intros f ai li [Hin | Hin%list_elem_of_singleton]%elem_of_app;
    [by apply Hinv in Hin | discriminate].
Qed.

End DetectProofs.

(** One vertex of label 3, one index, minimum size 1, and an oracle that
    finds no cluster: label 3 is sent to the oracle. *)
Lemma detect_runs_oracle_on_large_groups_witness :
  3 ∈ labels Examples.cfg3 /\
  getLabelIndices (H := Fake.silent) Examples.cfg3 [(0, 0, 0, 3)] tt [0] !! 3
    = Some [0] /\
  min_cluster_size Examples.cfg3 <= Z.of_nat (length [0]).
Proof.
  apply (detect_runs_oracle_on_large_groups (H := Fake.silent) Examples.cfg3
           [(0, 0, 0, 3)] [] tt [0] None [0] {[ 3 := [] ]} [FindClusters 3 [0]]).
  - reflexivity.
  - vm_compute. reflexivity.
  - left.
Defined.

(** C4, as stated, fails: label 3 has enough indices, the oracle finds no
    cluster, and label 3 is in the result with an empty cluster sequence. *)
Lemma detect_returns_label_without_clusters :
  exists label_clusters trace,
    detect (H := Fake.silent) Examples.cfg3 [(0, 0, 0, 3)] [] tt [0] None
      = Ret (label_clusters, trace) /\
    euclidean_clusters (Collaborators := Fake.silent) [(0, 0, 0, 3)] [0] = [] /\
    label_clusters !! 3 = Some [].
Proof.
  exists {[ 3 := [] ]}, [FindClusters 3 [0]].
  split_and!; vm_compute; reflexivity.
Qed.

(** No index is passed in; two callbacks are registered; none is called. *)
Lemma detect_empty_region_skips_callbacks_witness :
  detect (H := Fake.collaborators) Examples.cfg3 [(0, 0, 0, 3)] [0%nat; 1%nat] tt
    [] None = Ret (∅, []).
Proof.
  apply (detect_empty_region_skips_callbacks (H := Fake.collaborators)
           Examples.cfg3 [(0, 0, 0, 3)]
           [0%nat; 1%nat] tt [] None).
  reflexivity.
Defined.

(** ** The deduplication pass *)

Section DedupProofs.
Context `{Collaborators}.
Implicit Types (g : DynamicSceneGraph) (s : MeshSegmenter).

Lemma shrinks_refl g : shrinks g g.
Proof. by intros id n. Qed.

Lemma shrinks_trans g1 g2 g3 : shrinks g1 g2 -> shrinks g2 g3 -> shrinks g1 g3.
Proof. intros H12 H23 id n Hn. by apply H12, H23. Qed.

Lemma shrinks_removeNode g x : shrinks g (removeNode g x).
Proof. intros id n. rewrite getNode_removeNode. by case_decide. Qed.

Lemma active_bracket_touch s label l :
  active_bracket (touch_label s label) l = active_bracket s l.
Proof.
  unfold active_bracket, touch_label; simpl.
  destruct (decide (label = l)) as [->|Hne];
    [by rewrite lookup_insert_eq | by rewrite lookup_insert_ne].
Qed.

Lemma active_bracket_remove label x g s l :
  active_bracket (remove_object label x g s).2 l =
  if decide (label = l) then active_bracket s label ∖ {[ x ]} else active_bracket s l.
Proof.
  unfold active_bracket, remove_object; simpl.
  case_decide as Hl; [subst; by rewrite lookup_insert_eq | by rewrite lookup_insert_ne].
Qed.

(** One iteration of the inner loop, case by case. *)
Lemma dedup_inner_body_spec label node_id node other_id g s alive g' s' alive' :
  dedup_inner_body label node_id node other_id (g, s, alive) = Ret (g', s', alive') ->
  (g', s', alive') = (g, s, alive) /\
    (node_id = other_id \/ getNode g other_id = None \/
     exists other, getNode g other_id = Some other /\ alive = true /\
                   overlapping node (attributes other) = false)
  \/ (exists other, node_id ≠ other_id /\ getNode g other_id = Some other /\
        alive = true /\ overlapping node (attributes other) = true /\
        ((g', s') = remove_object label other_id g s /\ alive' = true \/
         (g', s') = remove_object label node_id g s /\ alive' = false)).
Proof.
  unfold dedup_inner_body. intros Hrun.
  case_decide as Heq; [injection Hrun as <- <- <-; left; eauto|].
  destruct (hasNode g other_id) eqn:Hhas; simpl in Hrun.
  2: { injection Hrun as <- <- <-. left. split; [done|]. right; left.
       by apply hasNode_false. }
  apply bind_Ret in Hrun as (other & Hother%value_Ret & Hrun).
  destruct alive; [|done].
  destruct (overlapping node (attributes other)) eqn:Hov.
  2: { injection Hrun as <- <- <-. left. split; [done|]. right; right. eauto. }
  right. exists other. split_and!; try done.
  destruct (Qle_bool _ _); injection Hrun as <- <- <-; [left | right]; done.
Qed.

(** After a deduplication pass that completes, no two of the identifiers it
    checked are both left in the graph with one's position inside the
    other's box. *)
Lemma dedup_survivors_apart label g s g' s' :
  dedup label (g, s) = Ret (g', s') ->
  forall a b na nb,
    a ∈ active_bracket s label -> b ∈ active_bracket s label -> a ≠ b ->
    getNode g' a = Some na -> getNode g' b = Some nb ->
    overlapping (attributes na) (attributes nb) = false.
Proof.
  unfold dedup. rewrite active_bracket_touch.
  set (T := sorted_ids (active_bracket s label)). intros Hrun.
  assert (Hout : shrinks g g' /\
            forall a b na nb, a ∈ T -> b ∈ T -> a ≠ b ->
              getNode g' a = Some na -> getNode g' b = Some nb ->
              overlapping (attributes na) (attributes nb) = false).
  { revert Hrun.
    apply (for_each_prefix_inv
             (fun pre (st : DynamicSceneGraph * MeshSegmenter) =>
                shrinks g st.1 /\
                forall a b na nb, a ∈ pre -> b ∈ T -> a ≠ b ->
                  getNode st.1 a = Some na -> getNode st.1 b = Some nb ->
                  overlapping (attributes na) (attributes nb) = false)).
    { split; [apply shrinks_refl|]. intros a b na nb []%elem_of_nil. }
    intros pre a post [g1 s1] [g2 s2] _ [Hsh Hpairs] Hbody. simpl in *.
    unfold dedup_outer_body in Hbody.
    destruct (hasNode g1 a) eqn:Hhas; simpl in Hbody.
    2: { injection Hbody as <- <-. split; [done|].
         intros a' b na nb [Ha | ->%list_elem_of_singleton]%elem_of_app;
           [by apply Hpairs|].
         apply hasNode_false in Hhas. congruence. }
    apply bind_Ret in Hbody as (node & Hnode%value_Ret & Hbody).
    apply bind_Ret in Hbody as ([[g3 s3] alive] & Hinner & [= <- <-]).
    assert (Hin : shrinks g1 g3 /\
              forall b nb na', b ∈ T -> b ≠ a ->
                getNode g3 a = Some na' -> getNode g3 b = Some nb ->
                overlapping (attributes node) (attributes nb) = false).
    { cut (shrinks g1 g3 /\ (alive = false -> getNode g3 a = None) /\
           forall b nb na', b ∈ T -> b ≠ a ->
             getNode g3 a = Some na' -> getNode g3 b = Some nb ->
             overlapping (attributes node) (attributes nb) = false);
        [intros (? & _ & ?); done|].
      revert Hinner.
      apply (for_each_prefix_inv
               (fun ipre (st : DynamicSceneGraph * MeshSegmenter * bool) =>
                  shrinks g1 st.1.1 /\
                  (st.2 = false -> getNode st.1.1 a = None) /\
                  forall b nb na', b ∈ ipre -> b ≠ a ->
                    getNode st.1.1 a = Some na' -> getNode st.1.1 b = Some nb ->
                    overlapping (attributes node) (attributes nb) = false)).
      { simpl. split_and!; [apply shrinks_refl | done |].
        intros b nb na' []%elem_of_nil. }
      intros ipre b ipost [[ga sa] al] [[gb sb] al'] _ (Hs1 & Hal & Hp) Hb.
      simpl in *.
      apply dedup_inner_body_spec in Hb
        as [[[= -> -> ->] Hcase] | (other & Hne & Hother & -> & Hov & Hcase)].
      - split_and!; [done..|].
        intros b' nb na' [Hb' | ->%list_elem_of_singleton]%elem_of_app Hba Ha' Hnb;
          [by eapply Hp|].
        destruct Hcase as [-> | [Hnone | (other & Hother & _ & Hov)]];
          [done | congruence | congruence].
      - destruct Hcase as [[[= -> ->] ->] | [[= -> ->] ->]]; simpl.
        + split_and!; [eapply shrinks_trans; [done | apply shrinks_removeNode] | done |].
          intros b' nb na'. rewrite !getNode_removeNode.
          intros [Hb' | ->%list_elem_of_singleton]%elem_of_app Hba;
            repeat case_decide; try done. by eapply Hp.
        + split_and!; [eapply shrinks_trans; [done | apply shrinks_removeNode] | |].
          * intros _. rewrite getNode_removeNode. by rewrite decide_True.
          * intros b' nb na' _ _. rewrite getNode_removeNode.
            by rewrite decide_True. }
    destruct Hin as [Hs13 Hin]. split; [by eapply shrinks_trans|].
    intros a' b na nb [Ha' | ->%list_elem_of_singleton]%elem_of_app Hb Hab Hna Hnb.
    - apply (Hpairs a' b na nb); auto.
    - assert (na = node) as -> by (apply Hs13 in Hna; congruence).
      by eapply Hin. }
  destruct Hout as [_ Hout].
  intros a b na nb Ha Hb. apply Hout; by apply elem_of_sorted_ids.
Qed.

Lemma dedup_outer_body_eq label to_check node_id g s :
  dedup_outer_body label to_check node_id (g, s) =
  if hasNode g node_id
  then node ← value (getNode g node_id);
       '(g', s', _) ← for_each (dedup_inner_body label node_id (attributes node))
                               to_check (g, s, true);
       Ret (g', s')
  else Ret (g, s).
Proof. unfold dedup_outer_body. by destruct (hasNode g node_id). Qed.

Lemma dedup_inner_body_self label node_id node st :
  dedup_inner_body label node_id node node_id st = Ret st.
Proof.
  destruct st as [[g s] alive]. unfold dedup_inner_body.
  by rewrite decide_True.
Qed.

Lemma dedup_inner_body_gone label node_id node other_id g s alive :
  node_id ≠ other_id -> hasNode g other_id = false ->
  dedup_inner_body label node_id node other_id (g, s, alive) = Ret (g, s, alive).
Proof.
  intros Hne Hgone. unfold dedup_inner_body.
  rewrite decide_False by done. by rewrite Hgone.
Qed.

Lemma dedup_inner_body_hit label node_id node other_id other g s :
  node_id ≠ other_id -> getNode g other_id = Some other ->
  overlapping node (attributes other) = true ->
  dedup_inner_body label node_id node other_id (g, s, true) =
  if Qle_bool (volume (bounding_box (attributes other))) (volume (bounding_box node))
  then Ret (remove_object label other_id g s, true)
  else Ret (remove_object label node_id g s, false).
Proof.
  intros Hne Hother Hov. unfold dedup_inner_body.
  rewrite decide_False by done.
  assert (hasNode g other_id = true) as -> by (apply hasNode_true; eauto).
  rewrite Hother. cbn [negb value mbind Res_bind]. rewrite Hov.
  by destruct (Qle_bool _ _).
Qed.

(** Two overlapping objects alone under their label: the pass removes the
    second when the first's volume is at least the second's, the first
    otherwise. *)
Lemma dedup_pair label g s A B nA nB :
  active_bracket s label = {[ A; B ]} -> A < B ->
  getNode g A = Some nA -> getNode g B = Some nB ->
  overlapping (attributes nA) (attributes nB) = true ->
  dedup label (g, s) =
  Ret (remove_object label
         (if Qle_bool (volume (bounding_box (attributes nB)))
                      (volume (bounding_box (attributes nA)))
          then B else A)
         g (touch_label s label)).
Proof.
  intros Hbr Hlt HA HB Hov.
  assert (HhA : hasNode g A = true) by (apply hasNode_true; eauto).
  assert (HAB : A ≠ B) by lia. assert (HBA : B ≠ A) by lia.
  unfold dedup. rewrite active_bracket_touch, Hbr, sorted_ids_pair by done.
  cbn [for_each]. rewrite dedup_outer_body_eq, HhA, HA.
  cbn [value mbind Res_bind for_each].
  rewrite dedup_inner_body_self. cbn [mbind Res_bind].
  rewrite (dedup_inner_body_hit _ _ _ _ nB) by done.
  destruct (Qle_bool _ _) eqn:Hvol; cbn [remove_object mbind Res_bind].
  - rewrite dedup_outer_body_eq.
    assert (hasNode (removeNode g B) B = false) as ->.
    { apply hasNode_false. rewrite getNode_removeNode. by rewrite decide_True. }
    done.
  - rewrite dedup_outer_body_eq.
    assert (hasNode (removeNode g A) B = true) as ->.
    { apply hasNode_true. rewrite getNode_removeNode, decide_False by done. eauto. }
    rewrite getNode_removeNode, decide_False, HB by done.
    cbn [value mbind Res_bind for_each].
    rewrite dedup_inner_body_gone; [|done|].
    2: { apply hasNode_false. rewrite getNode_removeNode. by rewrite decide_True. }
    cbn [mbind Res_bind]. rewrite dedup_inner_body_self. done.
Qed.

(** C2 (amended).  When a label's active identifiers are exactly two
    objects [A] and [B] (enumerated in this order), both in the graph, with
    one's position inside the other's box, the deduplication pass removes
    exactly one of them from the graph, the active index, the timestamp map
    and the pending-linkage set and keeps the other: [B] when [A]'s volume is
    at least [B]'s (so the second enumerated on a tie), [A] otherwise.  With
    more active objects the pass is greedy: when it completes, no two of the
    checked objects that are left in the graph overlap (a pair is never both
    kept), but nothing keeps one object of every overlapping pair. *)
Theorem dedup_keeps_one_of_a_pair label g s :
  (forall A B nA nB,
     active_bracket s label = {[ A; B ]} -> A < B ->
     getNode g A = Some nA -> getNode g B = Some nB ->
     overlapping (attributes nA) (attributes nB) = true ->
     let first_wins := Qle_bool (volume (bounding_box (attributes nB)))
                                (volume (bounding_box (attributes nA))) in
     let removed := if first_wins then B else A in
     let kept := if first_wins then A else B in
     exists g' s',
       dedup label (g, s) = Ret (g', s') /\
       getNode g' removed = None /\
       (removed ∉ active_bracket s' label) /\
       active_object_timestamps_ s' !! removed = None /\
       (removed ∉ objects_to_check_for_places_ s') /\
       getNode g' kept = getNode g kept /\
       kept ∈ active_bracket s' label /\
       active_object_timestamps_ s' !! kept = active_object_timestamps_ s !! kept) /\
  (forall g' s',
     dedup label (g, s) = Ret (g', s') ->
     forall a b na nb,
       a ∈ active_bracket s label -> b ∈ active_bracket s label -> a ≠ b ->
       getNode g' a = Some na -> getNode g' b = Some nb ->
       overlapping (attributes na) (attributes nb) = false).
Proof.
  split; [|apply dedup_survivors_apart].
  intros A B nA nB Hbr Hlt HA HB Hov first_wins removed kept.
  exists (remove_object label removed g (touch_label s label)).1,
         (remove_object label removed g (touch_label s label)).2.
  split; [by rewrite (dedup_pair label g s A B nA nB)|].
  assert (Hrk : removed ≠ kept) by (unfold removed, kept; destruct first_wins; lia).
  assert (Hk : kept ∈ active_bracket s label)
    by (rewrite Hbr; unfold kept; destruct first_wins; set_solver).
  split_and!.
  - cbn [remove_object fst]. rewrite getNode_removeNode. by rewrite decide_True.
  - rewrite active_bracket_remove, decide_True by done. set_solver.
  - cbn. apply lookup_delete_eq.
  - cbn. set_solver.
  - cbn [remove_object fst]. rewrite getNode_removeNode. by rewrite decide_False.
  - rewrite active_bracket_remove, decide_True by done.
    rewrite active_bracket_touch. set_solver.
  - cbn. by rewrite lookup_delete_ne.
Qed.

End DedupProofs.

(** Objects 1 (volume 8) and 2 (volume 64) overlap: object 1 is removed,
    object 2 is kept. *)
Lemma dedup_keeps_one_of_a_pair_witness :
  exists g' s',
    dedup 3 (Examples.pair_graph, Examples.pair_state) = Ret (g', s') /\
    getNode g' 1 = None /\
    (1 ∉ active_bracket s' 3) /\
    active_object_timestamps_ s' !! 1 = None /\
    (1 ∉ objects_to_check_for_places_ s') /\
    getNode g' 2 = getNode Examples.pair_graph 2 /\
    2 ∈ active_bracket s' 3 /\
    active_object_timestamps_ s' !! 2 = Some 0 /\
    (forall na nb, getNode g' 1 = Some na -> getNode g' 2 = Some nb ->
                   overlapping (attributes na) (attributes nb) = false).
Proof.
  destruct (dedup_keeps_one_of_a_pair 3 Examples.pair_graph Examples.pair_state)
    as [Hpair Hapart].
  destruct (Hpair 1 2 (Examples.object 1 (Examples.cube 4 6) 5)
              (Examples.object 2 (Examples.cube 3 7) 5))
    as (g' & s' & Hrun & Hrest); [vm_compute; reflexivity | lia | reflexivity..|].
  exists g', s'. split; [exact Hrun|].
  destruct Hrest as (H1 & H2 & H3 & H4 & H5 & H6 & H7).
  split_and!; [exact H1 | exact H2 | exact H3 | exact H4 | exact H5 | exact H6
              | exact H7 |].
  intros na nb. apply (Hapart g' s' Hrun 1 2 na nb); [by_compute | by_compute | lia].
Defined.

(** C2, as stated, fails: objects 1 and 2 of [crowd_state] overlap each
    other and both lie in the larger object 0; the pass removes both. *)
Lemma dedup_removes_both_of_a_pair :
  exists g' s' archived,
    updateGraph Examples.cfg3 Examples.crowd_graph {[ 3 := [] ]} 0 Examples.crowd_state
      = Ret (g', s', archived) /\
    1 ∈ active_bracket Examples.crowd_state 3 /\
    2 ∈ active_bracket Examples.crowd_state 3 /\
    overlapping (attributes (Examples.object 1 (Examples.cube 4 6) 5))
                (attributes (Examples.object 2 (Examples.cube 3 7) 5)) = true /\
    getNode Examples.crowd_graph 1 = Some (Examples.object 1 (Examples.cube 4 6) 5) /\
    getNode Examples.crowd_graph 2 = Some (Examples.object 2 (Examples.cube 3 7) 5) /\
    getNode g' 1 = None /\ getNode g' 2 = None /\
    (1 ∉ active_bracket s' 3) /\ (2 ∉ active_bracket s' 3).
Proof.
  exists (Examples.graph_of [(0, Examples.object 0 (Examples.cube 0 10) 5)]),
         (Examples.segmenter [0] [(0, 0)] [] 3), ∅.
  split_and!; first [vm_compute; reflexivity | by_compute].
Qed.

(** ** Consistency of the tracking state over a cycle *)

Section ConsistencyProofs.
Context `{Collaborators}.
Implicit Types (g : DynamicSceneGraph) (s : MeshSegmenter).

Lemma active_bracket_dom s l id :
  id ∈ active_bracket s l -> l ∈ dom (active_objects_ s).
Proof.
  unfold active_bracket. intros Hid. apply elem_of_dom.
  destruct (active_objects_ s !! l); [eauto | set_solver].
Qed.

(** The constructor's state is consistent. *)
Lemma consistent_new config_ first_id :
  consistent config_ (MeshSegmenter_new config_ first_id).
Proof.
  assert (Hbr : forall l, active_bracket (MeshSegmenter_new config_ first_id) l = ∅).
  { intros l. unfold active_bracket, MeshSegmenter_new; simpl.
    rewrite lookup_gset_to_gmap. by destruct (guard _). }
  unfold consistent. split_and!.
  - simpl. apply dom_gset_to_gmap.
  - intros id. simpl. rewrite lookup_empty. split; [by intros [? ?]|].
    intros [l Hl]. rewrite Hbr in Hl. set_solver.
  - intros l1 l2 id Hl. rewrite Hbr in Hl. set_solver.
  - intros l id Hl. rewrite Hbr in Hl. set_solver.
Qed.

Lemma archive_tracked config_ g t s s1 archived :
  consistent config_ s ->
  archiveOldObjects config_ g t s = Ret (s1, archived) ->
  consistent config_ s1 /\ resolved g s1 /\
  objects_to_check_for_places_ s1 = objects_to_check_for_places_ s.
Proof.
  intros (Hdom & Hts & Hdis & Hbound) Hrun.
  apply archiveOldObjects_spec in Hrun as (H0 & H1 & H2 & H3 & _ & H5 & H6).
  simpl in *.
  assert (Hlab : forall l id, id ∈ active_bracket s l -> l ∈ sorted_ids (labels config_)).
  { intros l id Hid. apply elem_of_sorted_ids. rewrite <- Hdom.
    by eapply active_bracket_dom. }
  assert (HA : forall l id, id ∈ active_bracket s1 l <->
             id ∈ active_bracket s l /\
             must_remove config_ g t (active_object_timestamps_ s) id = false).
  { intros l id. destruct (decide (l ∈ sorted_ids (labels config_))) as [Hl|Hl].
    - by apply H1.
    - assert (Heq : active_bracket s1 l = active_bracket s l)
        by (unfold active_bracket; by rewrite H2).
      rewrite Heq. split; [|by intros [? _]].
      intros Hid. exfalso. apply Hl. by eapply Hlab. }
  split_and!; [unfold consistent; split_and! | | done].
  - apply set_eq. intros l. rewrite <- Hdom, !elem_of_dom.
    destruct (decide (l ∈ sorted_ids (labels config_))) as [Hl|Hl].
    + split; intros _; [|by apply H1]. apply elem_of_dom. rewrite Hdom.
      by apply elem_of_sorted_ids.
    + by rewrite H2.
  - intros id. split.
    + intros [v Hv]. apply H3 in Hv as [Hv Hno].
      destruct (proj1 (Hts id)) as [l Hl]; [eauto|].
      exists l. apply HA. split; [done|].
      destruct (must_remove _ _ _ _ id) eqn:Hm; [|done].
      exfalso. apply Hno. exists l. eauto.
    + intros [l [Hid Hm]%HA].
      destruct (proj2 (Hts id)) as [v Hv]; [eauto|].
      exists v. apply H3. split; [done|]. intros (? & _ & _ & ?). congruence.
  - intros l1 l2 id [Hl1 _]%HA [Hl2 _]%HA. by eapply Hdis.
  - intros l id [Hid _]%HA. rewrite H6. by eapply Hbound.
  - intros l id [Hid Hm]%HA. apply hasNode_true.
    unfold must_remove in Hm. apply orb_false_iff in Hm as [Hm _].
    by apply negb_false_iff in Hm.
Qed.

Lemma updateObjectInGraph_spec g (cluster : Cluster) id node t s g' s' :
  updateObjectInGraph g cluster id node t s = Ret (g', s') ->
  is_Some (active_object_timestamps_ s !! id) /\
  active_objects_ s' = active_objects_ s /\
  active_object_timestamps_ s' = <[id := t]> (active_object_timestamps_ s) /\
  next_node_id_ s' = next_node_id_ s /\
  (objects_to_check_for_places_ s' = objects_to_check_for_places_ s \/
   objects_to_check_for_places_ s' = {[ id ]} ∪ objects_to_check_for_places_ s) /\
  (forall x, is_Some (getNode g' x) <-> is_Some (getNode g x)).
Proof.
  unfold updateObjectInGraph. intros Hrun.
  apply bind_Ret in Hrun as (last & Hlast%at_Ret & Hrun).
  destruct (Qle_bool _ _); injection Hrun as <- <-; simpl;
    (split_and!; [eauto | done | done | done | eauto |]).
  - intros x. by rewrite getNode_insertMeshEdges.
  - intros x. rewrite getNode_set_attributes, getNode_insertMeshEdges.
    case_decide; [|done]. by rewrite fmap_is_Some.
Qed.

Lemma find_match_Some g (cluster : Cluster) ids id node :
  find_match g cluster ids = Ret (Some (id, node)) ->
  id ∈ ids /\ getNode g id = Some node.
Proof.
  induction ids as [|a ids IH]; simpl; [done|]. intros Hrun.
  apply bind_Ret in Hrun as (n & Hn%value_Ret & Hrun).
  destruct (objectsMatch cluster n).
  - injection Hrun as <- <-. split; [left | done].
  - destruct (IH Hrun). split; [by right | done].
Qed.

Lemma match_or_create_inv config_ g0 s0 label t (cluster : Cluster) g s g' s' :
  label ∈ labels config_ ->
  cycle_inv config_ g0 s0 (g, s) ->
  match_or_create label t cluster (g, s) = Ret (g', s') ->
  cycle_inv config_ g0 s0 (g', s').
Proof.
  intros Hlabel ((Hdom & Hts & Hdis & Hbound) & Hres & Horph) Hrun. simpl in *.
  unfold match_or_create in Hrun.
  apply bind_Ret in Hrun as (X & HX%at_Ret & Hrun).
  apply bind_Ret in Hrun as (found & Hfound & Hrun).
  assert (HbrX : active_bracket s label = X) by (unfold active_bracket; by rewrite HX).
  destruct found as [[id node]|].
  - apply find_match_Some in Hfound as [Hid%elem_of_sorted_ids Hnode].
    apply updateObjectInGraph_spec in Hrun as (_ & Hact & Hts' & Hn & Hp & Hg).
    assert (Hbr : forall l, active_bracket s' l = active_bracket s l)
      by (intros l; unfold active_bracket; by rewrite Hact).
    unfold cycle_inv, consistent, resolved, no_new_orphans; simpl. split_and!.
    + by rewrite Hact.
    + intros x. rewrite Hts', lookup_insert_is_Some, Hts. split.
      * intros [<- | [_ [l Hl]]]; [exists label | exists l]; rewrite Hbr;
          [by rewrite HbrX | done].
      * intros [l Hl]. rewrite Hbr in Hl.
        destruct (decide (id = x)); [by left | right; split; [done | by exists l]].
    + intros l1 l2 x. rewrite !Hbr. apply Hdis.
    + intros l x. rewrite Hbr, Hn. apply Hbound.
    + intros l x. rewrite Hbr, Hg. apply Hres.
    + intros x Hx Hnone.
      assert (Hnone' : getNode g x = None).
      { apply eq_None_not_Some. rewrite <- Hg. by rewrite Hnone; intros [? ?]. }
      apply Horph; [|done].
      destruct Hp as [Hp | Hp]; rewrite Hp in Hx; [done|].
      apply elem_of_union in Hx as [->%elem_of_singleton | Hx]; [congruence | done].
  - apply addObjectToGraph_spec in Hrun
      as [(_ & -> & ->) | (point & pts & X' & _ & HX' & -> & ->)]; [done|].
    assert (X' = X) as -> by congruence.
    remember (next_node_id_ s) as n eqn:Hn in *.
    assert (Hfresh : forall l, n ∉ active_bracket s l).
    { intros l Hin. apply Hbound in Hin. lia. }
    unfold cycle_inv, consistent, resolved, no_new_orphans; simpl.
    assert (Hbr : forall l x,
               x ∈ active_bracket
                     {| active_objects_ := <[label := {[ n ]} ∪ X]> (active_objects_ s);
                        active_object_timestamps_ :=
                          <[n := t]> (active_object_timestamps_ s);
                        objects_to_check_for_places_ :=
                          {[ n ]} ∪ objects_to_check_for_places_ s;
                        next_node_id_ := n + 1 |} l <->
               (l = label /\ x = n) \/ x ∈ active_bracket s l).
    { intros l x. unfold active_bracket at 1; simpl.
      destruct (decide (label = l)) as [<-|Hne].
      - rewrite lookup_insert_eq; simpl. rewrite <- HbrX. set_solver.
      - rewrite lookup_insert_ne by done. fold (active_bracket s l). naive_solver. }
    assert (Hg : forall x attrs idxs,
               is_Some (getNode (insertMeshEdges (emplaceNode g n attrs) n idxs) x) <->
               x = n \/ is_Some (getNode g x)).
    { intros x attrs idxs. rewrite getNode_insertMeshEdges, getNode_emplaceNode.
      case_decide; [subst; split; eauto | naive_solver]. }
    split_and!.
    + rewrite dom_insert_L, Hdom. set_solver.
    + intros x. rewrite lookup_insert_is_Some, Hts. split.
      * intros [<- | [_ [l Hl]]]; [exists label | exists l]; apply Hbr;
          [by left | by right].
      * intros [l [[_ ->] | Hl]%Hbr]; [by left|].
        destruct (decide (n = x)); [by left | right; split; [done | by exists l]].
    + intros l1 l2 x [[-> Hx1] | H1]%Hbr [[-> Hx2] | H2]%Hbr; [done | | |].
      * subst x. by apply Hfresh in H2.
      * subst x. by apply Hfresh in H1.
      * by eapply Hdis.
    + intros l x [[-> ->] | Hx]%Hbr; [lia|]. apply Hbound in Hx. lia.
    + intros l x [[-> ->] | Hx]%Hbr; apply Hg; [by left | right; by eapply Hres].
    + intros x Hx Hnone.
      assert (Hno : ~ (x = n \/ is_Some (getNode g x))).
      { rewrite <- Hg. rewrite Hnone. by intros [? ?]. }
      apply Horph; [set_solver|]. apply eq_None_not_Some. tauto.
Qed.

(** Removing a checked object keeps the cycle's invariant. *)
Lemma remove_object_inv config_ g0 s0 label (T : gset Z) x g s :
  label ∈ labels config_ -> x ∈ T ->
  cycle_inv config_ g0 s0 (g, s) ->
  (forall l y, l ≠ label -> y ∈ T -> y ∉ active_bracket s l) ->
  cycle_inv config_ g0 s0 (remove_object label x g s) /\
  (forall l y, l ≠ label -> y ∈ T ->
               y ∉ active_bracket (remove_object label x g s).2 l).
Proof.
  intros Hlabel Hx ((Hdom & Hts & Hdis & Hbound) & Hres & Horph) Hother. simpl in *.
  assert (Hbr : forall l y, y ∈ active_bracket (remove_object label x g s).2 l <->
                            y ≠ x /\ y ∈ active_bracket s l).
  { intros l y. rewrite active_bracket_remove. case_decide as Hl.
    - subst. set_solver.
    - split; [|by intros [_ ?]]. intros Hy. split; [|done].
      intros ->. by eapply (Hother l x). }
  split; [|intros l y Hl Hy [_ Hin]%Hbr; by eapply Hother].
  unfold cycle_inv, consistent, resolved, no_new_orphans.
  cbn [fst snd]. split_and!.
  - cbn. rewrite dom_insert_L, Hdom. set_solver.
  - intros y. cbn [remove_object snd active_object_timestamps_].
    rewrite lookup_delete_is_Some, Hts. split.
    + intros [Hne [l Hl]]. exists l. apply Hbr. split; [congruence | done].
    + intros [l [Hne Hl]%Hbr]. split; [congruence | by exists l].
  - intros l1 l2 y [_ H1]%Hbr [_ H2]%Hbr. by eapply Hdis.
  - intros l y [_ Hy]%Hbr. cbn. by eapply Hbound.
  - intros l y [Hne Hy]%Hbr. cbn [remove_object fst].
    rewrite getNode_removeNode, decide_False by done. by eapply Hres.
  - intros y. cbn [remove_object fst snd objects_to_check_for_places_].
    rewrite getNode_removeNode. intros [Hy Hne%not_elem_of_singleton]%elem_of_difference.
    rewrite decide_False by done. by apply Horph.
Qed.

Lemma dedup_inv config_ g0 s0 label g s g' s' :
  label ∈ labels config_ ->
  cycle_inv config_ g0 s0 (g, s) ->
  dedup label (g, s) = Ret (g', s') ->
  cycle_inv config_ g0 s0 (g', s').
Proof.
  intros Hlabel Hinv Hrun. unfold dedup in Hrun.
  set (T := active_bracket (touch_label s label) label) in *.
  set (K := fun st : DynamicSceneGraph * MeshSegmenter =>
              cycle_inv config_ g0 s0 st /\
              forall l y, l ≠ label -> y ∈ T -> y ∉ active_bracket st.2 l).
  assert (HK0 : K (g, touch_label s label)).
  { destruct Hinv as ((Hdom & Hts & Hdis & Hbound) & Hres & Horph). simpl in *.
    split.
    - unfold cycle_inv, consistent, resolved, no_new_orphans; simpl. split_and!.
      + rewrite dom_insert_L, Hdom. set_solver.
      + intros id. rewrite Hts.
        split; intros [l Hl]; exists l;
          [by rewrite active_bracket_touch | by rewrite active_bracket_touch in Hl].
      + intros l1 l2 id. rewrite !active_bracket_touch. apply Hdis.
      + intros l id. rewrite active_bracket_touch. apply Hbound.
      + intros l id. rewrite active_bracket_touch. apply Hres.
      + done.
    - intros l y Hl Hy. simpl. rewrite active_bracket_touch.
      unfold T in Hy. rewrite active_bracket_touch in Hy.
      intros Hin. apply Hl. by eapply Hdis. }
  cut (K (g', s')); [by intros [? _]|].
  revert Hrun. apply (for_each_inv K); [done|].
  intros a [g1 s1] [g2 s2] Ha%elem_of_sorted_ids HK Hbody.
  rewrite dedup_outer_body_eq in Hbody.
  destruct (hasNode g1 a); [|by injection Hbody as <- <-].
  apply bind_Ret in Hbody as (node & _ & Hbody).
  apply bind_Ret in Hbody as ([[g3 s3] alive] & Hinner & [= <- <-]).
  cut (K (g3, s3, alive).1); [done|].
  revert Hinner.
  apply (for_each_inv (fun st : DynamicSceneGraph * MeshSegmenter * bool => K st.1));
    [done|].
  intros b [[ga sa] al] [[gb sb] al'] Hb%elem_of_sorted_ids [HKa HKo] Hstep.
  simpl in *.
  apply dedup_inner_body_spec in Hstep
    as [[[= -> -> ->] _] | (other & _ & _ & _ & _ & Hcase)]; [done|].
  destruct Hcase as [[Heq _] | [Heq _]].
  - destruct (remove_object_inv config_ g0 s0 label T b ga sa) as [? ?]; try done.
    rewrite <- Heq in *. done.
  - destruct (remove_object_inv config_ g0 s0 label T a ga sa) as [? ?]; try done.
    rewrite <- Heq in *. done.
Qed.

(** Neither an update nor a create touches a pending identifier without a
    node: the update goes to a node of the graph, the create to the
    counter's identifier. *)
Lemma match_or_create_orphan id label t (cluster : Cluster) g s g' s' :
  pending_orphan id (g, s) ->
  match_or_create label t cluster (g, s) = Ret (g', s') ->
  pending_orphan id (g', s').
Proof.
  intros (Hp & Hnone & Hlt) Hrun. simpl in *.
  unfold match_or_create in Hrun.
  apply bind_Ret in Hrun as (X & _ & Hrun).
  apply bind_Ret in Hrun as (found & _ & Hrun).
  destruct found as [[x node]|].
  - apply updateObjectInGraph_spec in Hrun as (_ & _ & _ & Hn & Hp' & Hg).
    unfold pending_orphan; simpl. split_and!.
    + destruct Hp' as [-> | ->]; [done | set_solver].
    + apply eq_None_not_Some. rewrite Hg. by rewrite Hnone; intros [? ?].
    + by rewrite Hn.
  - apply addObjectToGraph_spec in Hrun
      as [(_ & -> & ->) | (point & pts & X' & _ & _ & -> & ->)]; [done|].
    unfold pending_orphan; simpl. split_and!.
    + set_solver.
    + rewrite getNode_insertMeshEdges, getNode_emplaceNode.
      rewrite decide_False by lia. done.
    + lia.
Qed.

(** The duplicate pass removes only objects that have a node. *)
Lemma dedup_orphan id label g s g' s' :
  pending_orphan id (g, s) ->
  dedup label (g, s) = Ret (g', s') ->
  pending_orphan id (g', s').
Proof.
  intros Hinv Hrun. unfold dedup in Hrun.
  revert Hrun. apply (for_each_inv (pending_orphan id)); [done|].
  intros a [g1 s1] [g2 s2] _ Horph Hbody.
  rewrite dedup_outer_body_eq in Hbody.
  destruct (hasNode g1 a) eqn:Ha; [|by injection Hbody as <- <-].
  apply hasNode_true in Ha.
  apply bind_Ret in Hbody as (node & _ & Hbody).
  apply bind_Ret in Hbody as ([[g3 s3] alive] & Hinner & [= <- <-]).
  cut (pending_orphan id (g3, s3, alive).1 /\
       ((g3, s3, alive).2 = true -> is_Some (getNode (g3, s3, alive).1.1 a)));
    [by intros [? _]|].
  revert Hinner.
  apply (for_each_inv (fun st : DynamicSceneGraph * MeshSegmenter * bool =>
                         pending_orphan id st.1 /\
                         (st.2 = true -> is_Some (getNode st.1.1 a)))); [done|].
  intros b [[ga sa] al] [[gb sb] al'] _ [(Hp & Hnone & Hlt) Hal] Hstep.
  simpl in *.
  apply dedup_inner_body_spec in Hstep
    as [[[= -> -> ->] _] | (other & Hne & Hother & -> & _ & Hcase)]; [done|].
  specialize (Hal eq_refl).
  destruct Hcase as [[[= -> ->] ->] | [[= -> ->] ->]]; simpl.
  - assert (b ≠ id) by congruence.
    split.
    + unfold pending_orphan; simpl. split_and!; [set_solver | | done].
      by rewrite getNode_removeNode, decide_False.
    + intros _. by rewrite getNode_removeNode, decide_False.
  - assert (a ≠ id) by (intros ->; rewrite Hnone in Hal; by destruct Hal).
    split; [|done].
    unfold pending_orphan; simpl. split_and!; [set_solver | | done].
    by rewrite getNode_removeNode, decide_False.
Qed.

Lemma elem_of_sorted_entries {V} (m : gmap Z V) k v :
  (k, v) ∈ sorted_entries m <-> m !! k = Some v.
Proof.
  unfold sorted_entries. rewrite merge_sort_Permutation.
  apply elem_of_map_to_list.
Qed.

(** C6 (amended).  A [reconcile] cycle that starts from a consistent tracking
    state, with clusters of configured labels only, and completes, ends in a
    consistent tracking state: the timestamp map has an entry exactly for the
    identifiers of the active index, no identifier is active under two
    labels, and every identifier of the active index (hence of the timestamp
    map) resolves to a graph node.  The pending-linkage set is not pruned by
    the archive pass: the cycle adds no identifier without a node to it, and
    a pending identifier below the counter whose node had vanished before
    the cycle is still pending, and still without a node, after it. *)
Theorem reconcile_keeps_tracking_consistent config_ g clusters t s g' s' archived :
  consistent config_ s ->
  dom clusters ⊆ labels config_ ->
  updateGraph config_ g clusters t s = Ret (g', s', archived) ->
  consistent config_ s' /\
  resolved g' s' /\
  (forall id, is_Some (active_object_timestamps_ s' !! id) -> is_Some (getNode g' id)) /\
  (forall id, id ∈ objects_to_check_for_places_ s' -> getNode g' id = None ->
              id ∈ objects_to_check_for_places_ s /\ getNode g id = None) /\
  (forall id, id ∈ objects_to_check_for_places_ s -> getNode g id = None ->
              id < next_node_id_ s ->
              id ∈ objects_to_check_for_places_ s' /\ getNode g' id = None).
Proof.
  intros Hcons Hlabels Hrun. unfold updateGraph in Hrun.
  apply bind_Ret in Hrun as ([s1 a1] & Harch & Hrun).
  apply bind_Ret in Hrun as ([g2 s2] & Hloop & [= <- <- <-]).
  pose proof (archiveOldObjects_spec _ _ _ _ _ _ Harch) as (_ & _ & _ & _ & _ & _ & Hn1).
  apply archive_tracked in Harch as (Hc1 & Hr1 & Hp1); [|done].
  simpl in Hn1.
  cut (cycle_inv config_ g s (g2, s2) /\
       forall id, pending_orphan id (g, s1) -> pending_orphan id (g2, s2)).
  { intros [(Hc & Hr & Ho) Hstay]. split_and!; try done.
    - intros id [l Hl]%Hc. by eapply Hr.
    - intros id Hp Hnone Hlt.
      destruct (Hstay id) as (? & ? & _); [|done].
      unfold pending_orphan; simpl. by rewrite Hp1, Hn1. }
  split.
  - revert Hloop. apply (for_each_inv (cycle_inv config_ g s)).
    { split_and!; [done..|]. intros id. simpl. rewrite Hp1. done. }
    intros [label cl] [ga sa] [gb sb] Hin Hinv Hbody.
    assert (Hlabel : label ∈ labels config_).
    { apply Hlabels, elem_of_dom. apply elem_of_sorted_entries in Hin. eauto. }
    unfold update_label in Hbody. simpl in Hbody.
    apply bind_Ret in Hbody as ([gc sc] & Hcl & Hdedup).
    eapply dedup_inv; [done | | done].
    revert Hcl. apply (for_each_inv (cycle_inv config_ g s)); [done|].
    intros c [gd sd] [ge se] _ Hinv' Hb. by eapply match_or_create_inv.
  - intros id Horph. revert Hloop.
    apply (for_each_inv (pending_orphan id)); [done|].
    intros [label cl] [ga sa] [gb sb] _ Hinv Hbody.
    unfold update_label in Hbody. simpl in Hbody.
    apply bind_Ret in Hbody as ([gc sc] & Hcl & Hdedup).
    eapply dedup_orphan; [|done].
    revert Hcl. apply (for_each_inv (pending_orphan id)); [done|].
    intros c [gd sd] [ge se] _ Hinv' Hb. by eapply match_or_create_orphan.
Qed.

End ConsistencyProofs.

(** A first cycle on a fresh segmenter: two clusters become objects 0 and 1,
    the deduplication pass removes object 0, and the state is consistent. *)
Lemma reconcile_keeps_tracking_consistent_witness :
  exists g' s' archived,
    updateGraph Examples.cfg3 (Examples.graph_of [])
      {[ 3 := [Examples.scenario_cluster; Examples.neighbour_cluster] ]} 200
      (MeshSegmenter_new Examples.cfg3 0) = Ret (g', s', archived) /\
    active_bracket s' 3 = {[ 1 ]} /\
    consistent Examples.cfg3 s' /\
    resolved g' s' /\
    (forall id, is_Some (active_object_timestamps_ s' !! id) -> is_Some (getNode g' id)).
Proof.
  destruct (updateGraph Examples.cfg3 (Examples.graph_of [])
              {[ 3 := [Examples.scenario_cluster; Examples.neighbour_cluster] ]} 200
              (MeshSegmenter_new Examples.cfg3 0)) as [[[g' s'] archived]|e] eqn:Hrun;
    [|vm_compute in Hrun; discriminate Hrun].
  exists g', s', archived.
  destruct (reconcile_keeps_tracking_consistent Examples.cfg3 (Examples.graph_of [])
              {[ 3 := [Examples.scenario_cluster; Examples.neighbour_cluster] ]} 200
              (MeshSegmenter_new Examples.cfg3 0) g' s' archived)
    as (Hc & Hr & Ht & _).
  - apply consistent_new.
  - by_compute.
  - exact Hrun.
  - split_and!; [reflexivity | | exact Hc | exact Hr | exact Ht].
    vm_compute in Hrun. injection Hrun as <- <- <-. vm_compute. reflexivity.
Defined.

(** C6, as stated, fails: object 0 was created by this segmenter
    ([created_state]) and is pending; its node then leaves the graph.  The
    next cycle drops it from the active index and the timestamp map, and it
    is still in the pending-linkage set, without a node. *)
Lemma reconcile_leaves_vanished_object_pending :
  exists g' s' archived,
    addObjectToGraph (Examples.graph_of []) Examples.scenario_cluster 3 200
      (MeshSegmenter_new Examples.cfg3 0)
      = Ret (Examples.created_graph, Examples.created_state) /\
    updateGraph Examples.cfg3 (Examples.graph_of []) ∅ 300 Examples.created_state
      = Ret (g', s', archived) /\
    (0 ∉ active_bracket s' 3) /\
    active_object_timestamps_ s' !! 0 = None /\
    0 ∈ objects_to_check_for_places_ s' /\
    getNode g' 0 = None.
Proof.
  exists (Examples.graph_of []), (Examples.segmenter [] [] [0] 1), ∅.
  split_and!; first [vm_compute; reflexivity | by_compute].
Qed.

(** * Further properties *)

(** ** Detection helpers *)

Section DetectExtras.
Context `{Collaborators}.

Lemma mesh_at_in_range mesh idx :
  in_range mesh idx -> exists p, mesh !! Z.to_nat idx = Some p /\ mesh_at mesh idx = Ret p.
Proof.
  intros [H0 H1]. unfold mesh_at.
  destruct (idx <? 0) eqn:Hneg; [apply Z.ltb_lt in Hneg; lia|].
  destruct (lookup_lt_is_Some_2 mesh (Z.to_nat idx)) as [p Hp]; [lia|].
  exists p. by rewrite Hp.
Qed.

Lemma mesh_at_out_of_range mesh idx :
  ~ in_range mesh idx -> mesh_at mesh idx = Raise out_of_range.
Proof.
  intros Hout. unfold mesh_at, in_range in *.
  destruct (idx <? 0) eqn:Hneg; [done|]. apply Z.ltb_ge in Hneg.
  rewrite (lookup_ge_None_2 mesh (Z.to_nat idx)); [done | lia].
Qed.

Lemma getActiveIndices_loop mesh root_pos idxs acc :
  Forall (in_range mesh) idxs ->
  for_each (fun idx active_indices =>
              p ← mesh_at mesh idx;
              Ret (if within_horizon p root_pos
                   then active_indices ++ [idx] else active_indices))
           idxs acc
  = Ret (acc ++ filter (fun idx => vertex_in_horizon mesh root_pos idx = true) idxs).
Proof.
  revert acc. induction idxs as [|idx idxs IH]; intros acc Hall.
  - by rewrite filter_nil, app_nil_r.
  - apply Forall_cons in Hall as [Hidx Hall].
    destruct (mesh_at_in_range mesh idx Hidx) as (p & Hp & Hat).
    cbn [for_each]. rewrite Hat. cbn [mbind Res_bind]. rewrite IH by done.
    assert (Hv : vertex_in_horizon mesh root_pos idx = within_horizon p root_pos)
      by (unfold vertex_in_horizon; by rewrite Hp).
    rewrite filter_cons, Hv.
    destruct (within_horizon p root_pos).
    + rewrite decide_True by done. by rewrite <- app_assoc.
    + by rewrite decide_False by done.
Qed.

(** X1.  With a reference position and indices that are all inside the
    mesh, [getActiveIndices] completes and returns the indices whose vertex
    passes the horizon test, in their input order: the result is a
    subsequence of the input. *)
Theorem getActiveIndices_filters mesh idxs root_pos :
  Forall (in_range mesh) idxs ->
  exists active_indices,
    getActiveIndices mesh idxs (Some root_pos) = Ret active_indices /\
    active_indices = filter (fun idx => vertex_in_horizon mesh root_pos idx = true) idxs /\
    active_indices `sublist_of` idxs /\
    (forall idx, idx ∈ active_indices <->
                 idx ∈ idxs /\ vertex_in_horizon mesh root_pos idx = true).
Proof.
  intros Hall.
  exists (filter (fun idx => vertex_in_horizon mesh root_pos idx = true) idxs).
  split_and!.
  - unfold getActiveIndices. by rewrite getActiveIndices_loop.
  - done.
  - apply sublist_filter.
  - intros idx. rewrite list_elem_of_filter. tauto.
Qed.

(** X2.  Without a reference position [getActiveIndices] returns its input
    as it is, out-of-range indices included; with a reference position one
    index outside the mesh makes it raise [out_of_range], whatever the other
    indices are. *)
Theorem getActiveIndices_bounds mesh idxs :
  getActiveIndices mesh idxs None = Ret idxs /\
  (forall root_pos, Exists (fun idx => ~ in_range mesh idx) idxs ->
     getActiveIndices mesh idxs (Some root_pos) = Raise out_of_range).
Proof.
  split; [done|]. intros root_pos Hex. unfold getActiveIndices.
  cut (forall acc,
          for_each (fun idx active_indices =>
                      p ← mesh_at mesh idx;
                      Ret (if within_horizon p root_pos
                           then active_indices ++ [idx] else active_indices))
                   idxs acc = Raise out_of_range); [done|].
  induction Hex as [idx idxs Hout | idx idxs Hex IH]; intros acc; cbn [for_each].
  - by rewrite mesh_at_out_of_range.
  - destruct (mesh_at mesh idx) as [p|e] eqn:Hat; cbn [mbind Res_bind].
    + apply IH.
    + unfold mesh_at in Hat. destruct (idx <? 0); [congruence|].
      destruct (mesh !! Z.to_nat idx); congruence.
Qed.

(** X3.  [getLabelIndices] maps a label to the input indices whose vertex
    resolves to that label, in input order, when the label is configured and
    there is at least one such index, and has no entry for the label
    otherwise.  So no index of a configured label is dropped, no index of
    another label is kept, and indices that do not resolve (out of range, or
    a colour without a label) are skipped without stopping the scan. *)
Theorem getLabelIndices_partition config_ mesh label_map idxs label :
  getLabelIndices config_ mesh label_map idxs !! label =
  let group := filter (fun idx => getVertexLabel mesh label_map idx = Some label) idxs in
  if decide (label ∈ labels config_ /\ group ≠ []) then Some group else None.
Proof.
  unfold getLabelIndices. cbv zeta.
  induction idxs as [|idx idxs IH] using rev_ind.
  - simpl. rewrite lookup_empty. by rewrite decide_False by (intros [_ ?]; done).
  - rewrite foldl_app, filter_app. cbn [foldl].
    set (m := foldl _ ∅ idxs) in *.
    set (group := filter _ idxs) in *.
    rewrite filter_cons, filter_nil.
    destruct (getVertexLabel mesh label_map idx) as [l0|] eqn:Hl0.
    2: { rewrite (decide_False (P := None = Some label)) by done.
         rewrite app_nil_r. exact IH. }
    destruct (decide (l0 = label)) as [->|Hne].
    + rewrite (decide_True (P := Some label = Some label)) by done.
      destruct (decide (label ∈ labels config_)) as [Hin|Hout].
      * rewrite lookup_insert_eq.
        rewrite decide_True by (split; [done | by destruct group]).
        f_equal. f_equal. rewrite IH.
        destruct (decide (label ∈ labels config_ /\ group ≠ [])) as [_|Hno]; [done|].
        simpl. destruct group; [done|]. exfalso. apply Hno. done.
      * rewrite IH. rewrite !decide_False by (intros [? _]; done). done.
    + rewrite (decide_False (P := Some l0 = Some label)) by congruence.
      rewrite app_nil_r.
      destruct (decide (l0 ∈ labels config_)); [rewrite lookup_insert_ne by done|];
        exact IH.
Qed.

Lemma points_at_in_range mesh grp :
  Forall (in_range mesh) grp -> length (points_at mesh grp) = length grp.
Proof.
  unfold points_at. induction 1 as [|i grp Hi _ IH]; [done|].
  destruct (mesh_at_in_range mesh i Hi) as (p & Hp & _).
  cbn [omap list_omap]. rewrite Hp. cbn [length]. f_equal. exact IH.
Qed.

Lemma findClusters_points mesh grp acc :
  Forall (in_range mesh) grp ->
  for_each (fun i pts => cp ← mesh_at mesh i; Ret (pts ++ [cp])) grp acc
  = Ret (acc ++ points_at mesh grp).
Proof.
  intros Hall. revert acc. unfold points_at.
  induction Hall as [|i grp Hi _ IH]; intros acc; [by rewrite app_nil_r|].
  destruct (mesh_at_in_range mesh i Hi) as (p & Hp & Hat).
  cbn [for_each omap list_omap]. rewrite Hat, Hp. cbn [mbind Res_bind].
  rewrite IH. by rewrite <- app_assoc.
Qed.

(** X4.  When every index the clustering oracle returns is inside the mesh,
    [findClusters] completes with one cluster per group of the oracle, in the
    oracle's order: the group as the cluster's indices, the mesh points at
    these indices as its cloud, and their centroid.  A cluster's cloud has as
    many points as the cluster has indices. *)
Theorem findClusters_groups mesh idxs :
  Forall (Forall (in_range mesh)) (euclidean_clusters mesh idxs) ->
  findClusters mesh idxs =
    Ret (map (fun grp => {| indices := grp;
                            cloud := points_at mesh grp;
                            centroid := centroid_of (points_at mesh grp) |})
             (euclidean_clusters mesh idxs)) /\
  (forall clusters, findClusters mesh idxs = Ret clusters ->
     length clusters = length (euclidean_clusters mesh idxs) /\
     forall c, c ∈ clusters -> length (cloud c) = length (indices c)).
Proof.
  intros Hall.
  assert (Heq : forall acc,
             for_each (fun object_indices clusters =>
                         pts ← for_each (fun i pts => cp ← mesh_at mesh i;
                                                      Ret (pts ++ [cp]))
                                        object_indices [];
                         Ret (clusters ++ [{| indices := object_indices;
                                              cloud := pts;
                                              centroid := centroid_of pts |}]))
                      (euclidean_clusters mesh idxs) acc
             = Ret (acc ++ map (fun grp => {| indices := grp;
                                              cloud := points_at mesh grp;
                                              centroid := centroid_of (points_at mesh grp) |})
                               (euclidean_clusters mesh idxs))).
  { induction Hall as [|grp grps Hgrp _ IH]; intros acc; [by rewrite app_nil_r|].
    cbn [for_each map]. rewrite findClusters_points by done.
    cbn [mbind Res_bind app]. rewrite IH. by rewrite <- app_assoc. }
  unfold findClusters. rewrite Heq. split; [done|].
  intros clusters [= <-]. split; [by rewrite length_map|].
  intros c Hc. apply list_elem_of_In, in_map_iff in Hc as (grp & <- & Hgrp).
  simpl. apply points_at_in_range.
  rewrite Forall_forall in Hall. apply Hall. by apply list_elem_of_In.
Qed.

End DetectExtras.

(** A loop that raises does so in one of its iterations. *)
Lemma for_each_Raise {A S} (body : A -> S -> Res S) (l : list A) (s : S) e :
  for_each body l s = Raise e -> exists a s1, a ∈ l /\ body a s1 = Raise e.
Proof.
  revert s. induction l as [|a l IH]; intros s; simpl; [done|].
  destruct (body a s) as [s1|e1] eqn:Hb; simpl.
  - intros (b & s2 & Hin & Hr)%IH. exists b, s2. split; [by right | done].
  - intros [= ->]. exists a, s. split; [left | done].
Qed.

(** A loop whose iterations complete and keep an invariant completes. *)
Lemma for_each_total {A S} (P : S -> Prop) (body : A -> S -> Res S)
    (l : list A) (s : S) :
  P s ->
  (forall a s1, a ∈ l -> P s1 -> exists s2, body a s1 = Ret s2 /\ P s2) ->
  exists s', for_each body l s = Ret s' /\ P s'.
Proof.
  revert s. induction l as [|a l IH]; intros s HP Hstep; simpl; [eauto|].
  destruct (Hstep a s) as (s2 & Hb & HP2); [left | done |].
  rewrite Hb. simpl. apply IH; [done|]. intros b s1 Hin. apply Hstep. by right.
Qed.

(** A loop whose iterations complete with the invariant or raise [e]
    completes with the invariant or raises [e]. *)
Lemma for_each_total_or {A S} (P : S -> Prop) (body : A -> S -> Res S)
    (l : list A) (s : S) e :
  P s ->
  (forall a s1, a ∈ l -> P s1 ->
     (exists s2, body a s1 = Ret s2 /\ P s2) \/ body a s1 = Raise e) ->
  (exists s', for_each body l s = Ret s' /\ P s') \/ for_each body l s = Raise e.
Proof.
  revert s. induction l as [|a l IH]; intros s HP Hstep; simpl; [eauto|].
  destruct (Hstep a s) as [(s2 & Hb & HP2) | Hb]; [left | done | |].
  - rewrite Hb. simpl. apply IH; [done|]. intros b s1 Hin. apply Hstep. by right.
  - rewrite Hb. by right.
Qed.

Section LifecycleExtras.
Context `{Collaborators}.
Implicit Types (g : DynamicSceneGraph) (s : MeshSegmenter).

Lemma prune_scan_body_elem g acc id x :
  x ∈ prune_scan_body g acc id <-> x ∈ acc \/ (x = id /\ must_prune g id = true).
Proof.
  unfold prune_scan_body, must_prune.
  destruct (getNode g id) as [node|]; [destruct (has_parent node)|];
    rewrite ?elem_of_app, ?list_elem_of_singleton; intuition congruence.
Qed.

Lemma prune_scan_loop g ids acc x :
  x ∈ foldl (prune_scan_body g) acc ids <->
  x ∈ acc \/ (x ∈ ids /\ must_prune g x = true).
Proof.
  revert acc. induction ids as [|id ids IH]; intros acc; simpl.
  - rewrite elem_of_nil. tauto.
  - rewrite IH, prune_scan_body_elem, elem_of_cons. intuition congruence.
Qed.

Lemma erase_loop (P : gset Z) ids x :
  x ∈ foldl (fun p node_id => p ∖ {[ node_id ]}) P ids <-> x ∈ P /\ x ∉ ids.
Proof.
  revert P. induction ids as [|id ids IH]; intros P; simpl.
  - set_solver.
  - rewrite IH, not_elem_of_cons. set_solver.
Qed.

Lemma must_prune_false g id :
  must_prune g id = false <->
  exists node, getNode g id = Some node /\ has_parent node = false.
Proof.
  unfold must_prune. destruct (getNode g id) as [node|].
  - split; [eauto | by intros (? & [= <-] & ?)].
  - split; [done | by intros (? & ? & _)].
Qed.

(** X20.  [pruneObjectsToCheckForPlaces] keeps in the pending-linkage set
    exactly the identifiers whose node is in the graph and has no parent; it
    leaves the active index, the timestamp map and the counter as they are,
    and pruning a second time against the same graph changes nothing. *)
Theorem prune_keeps_unlinked_nodes g s :
  let s' := pruneObjectsToCheckForPlaces g s in
  (forall id, id ∈ objects_to_check_for_places_ s' <->
     id ∈ objects_to_check_for_places_ s /\
     exists node, getNode g id = Some node /\ has_parent node = false) /\
  active_objects_ s' = active_objects_ s /\
  active_object_timestamps_ s' = active_object_timestamps_ s /\
  next_node_id_ s' = next_node_id_ s /\
  pruneObjectsToCheckForPlaces g s' = s'.
Proof.
  assert (Hmem : forall s id,
            id ∈ objects_to_check_for_places_ (pruneObjectsToCheckForPlaces g s) <->
            id ∈ objects_to_check_for_places_ s /\
            exists node, getNode g id = Some node /\ has_parent node = false).
  { intros s0 id. unfold pruneObjectsToCheckForPlaces; simpl.
    rewrite erase_loop, prune_scan_loop, elem_of_sorted_ids, elem_of_nil.
    rewrite <- must_prune_false.
    split; intros [Hin Hx]; (split; [done|]).
    - destruct (must_prune g id) eqn:Hm; [|done]. exfalso. apply Hx. eauto.
    - intros [[] | [_ Hm]]. congruence. }
  cbv zeta. split_and!; try done.
  set (s1 := pruneObjectsToCheckForPlaces g s).
  assert (Hp : objects_to_check_for_places_ (pruneObjectsToCheckForPlaces g s1)
               = objects_to_check_for_places_ s1).
  { apply set_eq. intros id. unfold s1. rewrite !Hmem. tauto. }
  clearbody s1.
  transitivity
    {| active_objects_ := active_objects_ s1;
       active_object_timestamps_ := active_object_timestamps_ s1;
       objects_to_check_for_places_ :=
         objects_to_check_for_places_ (pruneObjectsToCheckForPlaces g s1);
       next_node_id_ := next_node_id_ s1 |}; [reflexivity|].
  rewrite Hp. by destruct s1.
Qed.

(** X7.  The state the constructor builds is consistent, and on it, for any
    graph and timestamp, the archive pass and a cycle without clusters
    complete, return the empty set and leave state and graph as they are. *)
Theorem fresh_segmenter_reconciles_to_itself config_ first_id g t :
  let s := MeshSegmenter_new config_ first_id in
  consistent config_ s /\
  archiveOldObjects config_ g t s = Ret (s, ∅) /\
  updateGraph config_ g ∅ t s = Ret (g, s, ∅).
Proof.
  intros s.
  assert (Harch : archiveOldObjects config_ g t s = Ret (s, ∅)).
  { apply archiveOldObjects_clean. intros l Hl. split.
    - unfold s, MeshSegmenter_new; simpl. rewrite lookup_gset_to_gmap.
      rewrite option_guard_True by done. eauto.
    - intros id. unfold active_bracket, s, MeshSegmenter_new; simpl.
      rewrite lookup_gset_to_gmap, option_guard_True by done. simpl. set_solver. }
  split_and!; [apply consistent_new | done |].
  unfold updateGraph. rewrite Harch. cbn [mbind Res_bind].
  by rewrite sorted_entries_empty.
Qed.

Lemma archive_label_total config_ g t label s arch :
  is_Some (active_objects_ s !! label) ->
  (forall id, id ∈ active_bracket s label ->
              is_Some (active_object_timestamps_ s !! id)) ->
  exists s' arch', archive_label config_ g t label (s, arch) = Ret (s', arch').
Proof.
  intros [X HX] Hts.
  assert (Hbr : active_bracket s label = X) by (unfold active_bracket; by rewrite HX).
  eexists _, _. apply archive_label_eq.
  unfold archive_scan, at_. rewrite HX. cbn [mbind Res_bind].
  apply archive_scan_loop. split; [|reflexivity].
  apply Forall_forall. intros id Hid%elem_of_sorted_ids. apply Hts. by rewrite Hbr.
Qed.

Lemma archiveOldObjects_total config_ g t s :
  consistent config_ s ->
  exists s' archived, archiveOldObjects config_ g t s = Ret (s', archived).
Proof.
  intros (Hdom & Hts & Hdis & _). unfold archiveOldObjects.
  set (P := fun st : MeshSegmenter * gset Z =>
              (forall l, l ∈ labels config_ -> is_Some (active_objects_ st.1 !! l)) /\
              (forall l id, id ∈ active_bracket st.1 l ->
                            is_Some (active_object_timestamps_ st.1 !! id)) /\
              (forall l1 l2 id, id ∈ active_bracket st.1 l1 ->
                                id ∈ active_bracket st.1 l2 -> l1 = l2)).
  destruct (for_each_total P (archive_label config_ g t)
              (sorted_ids (labels config_)) (s, ∅)) as ([s' a] & Hrun & _).
  - split_and!; simpl.
    + intros l Hl. apply elem_of_dom. by rewrite Hdom.
    + intros l id Hid. apply Hts. eauto.
    + done.
  - intros label [s1 a1] Hlabel%elem_of_sorted_ids (Hp1 & Hp2 & Hp3). simpl in *.
    destruct (archive_label_total config_ g t label s1 a1) as (s2 & a2 & Hstep);
      [by apply Hp1 | by apply Hp2 |].
    exists (s2, a2). split; [done|].
    apply archive_label_spec in Hstep
      as (_ & _ & Hsome & Hbr & Hoth & Hts2 & _).
    assert (Hsub : forall l id, id ∈ active_bracket s2 l -> id ∈ active_bracket s1 l).
    { intros l id. destruct (decide (l = label)) as [->|Hne].
      - by intros [? _]%Hbr.
      - unfold active_bracket. by rewrite Hoth. }
    split_and!; simpl.
    + intros l Hl. destruct (decide (l = label)) as [->|Hne]; [done|].
      rewrite Hoth by done. by apply Hp1.
    + intros l id Hid. rewrite Hts2. case_decide as Hdec; [|by eapply Hp2, Hsub].
      exfalso. destruct Hdec as [Hin Hrm].
      destruct (decide (l = label)) as [->|Hne].
      * apply Hbr in Hid as [_ Hkeep]. congruence.
      * apply Hne. eapply Hp3; [by apply Hsub | done].
    + intros l1 l2 id H1%Hsub H2%Hsub. by eapply Hp3.
  - eauto.
Qed.

(** X8.  On a consistent tracking state the archive pass completes (none of
    its [.at] lookups raises) and leaves a consistent state in which every
    active identifier resolves to a node of the graph. *)
Theorem archive_pass_completes config_ g t s :
  consistent config_ s ->
  exists s' archived,
    archiveOldObjects config_ g t s = Ret (s', archived) /\
    consistent config_ s' /\
    resolved g s'.
Proof.
  intros Hcons.
  destruct (archiveOldObjects_total config_ g t s Hcons) as (s' & a & Hrun).
  exists s', a. split; [done|].
  by destruct (archive_tracked config_ g t s s' a Hcons Hrun) as (? & ? & _).
Qed.

(** X9.  The only exception of the archive pass is [out_of_range]; it is
    raised when a configured label has no entry in the active index, and
    when an active identifier of a configured label has no timestamp
    entry. *)
Theorem archive_pass_raises_out_of_range config_ g t s :
  (forall e, archiveOldObjects config_ g t s = Raise e -> e = out_of_range) /\
  (forall label, label ∈ labels config_ ->
     active_objects_ s !! label = None \/
     (exists id, id ∈ active_bracket s label /\
                 active_object_timestamps_ s !! id = None) ->
     archiveOldObjects config_ g t s = Raise out_of_range).
Proof.
  assert (Honly : forall e, archiveOldObjects config_ g t s = Raise e -> e = out_of_range).
  { intros e (label & [s1 a1] & _ & Hstep)%for_each_Raise.
    unfold archive_label, archive_scan in Hstep.
    destruct (at_ (active_objects_ s1) label) as [X|e1] eqn:HX; simpl in Hstep.
    2: { unfold at_ in HX. destruct (_ !! label); congruence. }
    destruct (for_each _ (sorted_ids X) ([], a1)) as [[rem a2]|e2] eqn:Hloop;
      simpl in Hstep; [done|].
    injection Hstep as ->.
    apply for_each_Raise in Hloop as (id & [rem a2] & _ & Hbody).
    unfold archive_scan_body, at_ in Hbody.
    destruct (_ !! id); simpl in Hbody; [|congruence].
    by destruct (expired _ _ _). }
  split; [done|].
  intros label Hlabel Hbad.
  destruct (archiveOldObjects config_ g t s) as [[s' a]|e] eqn:Hrun.
  - exfalso. apply archiveOldObjects_spec in Hrun as (H0 & _). simpl in H0.
    destruct (H0 label) as [[X HX] Hts]; [by apply elem_of_sorted_ids|].
    destruct Hbad as [Hnone | (id & Hid & Hnone)]; [congruence|].
    destruct (Hts id Hid) as [v Hv]. congruence.
  - f_equal. by apply Honly.
Qed.

(** X10.  A completed archive pass leaves the pending-linkage set, the
    counter and the active sets of labels outside the configuration
    untouched and never changes a timestamp; an active identifier of a
    configured label that is in the graph and not older than the horizon
    stays active, keeps its timestamp and is not returned. *)
Theorem archive_pass_keeps_the_rest config_ g t s s' archived :
  archiveOldObjects config_ g t s = Ret (s', archived) ->
  objects_to_check_for_places_ s' = objects_to_check_for_places_ s /\
  next_node_id_ s' = next_node_id_ s /\
  (forall id last, active_object_timestamps_ s' !! id = Some last ->
                   active_object_timestamps_ s !! id = Some last) /\
  (forall label id, label ∈ labels config_ -> id ∈ active_bracket s label ->
     hasNode g id = true ->
     is_expired config_ t (active_object_timestamps_ s) id = false ->
     id ∈ active_bracket s' label /\
     active_object_timestamps_ s' !! id = active_object_timestamps_ s !! id /\
     id ∉ archived) /\
  (forall label, label ∉ labels config_ ->
                 active_objects_ s' !! label = active_objects_ s !! label).
Proof.
  intros Hrun.
  apply archiveOldObjects_spec in Hrun as (H0 & H1 & H2 & H3 & H4 & H5 & H6).
  simpl in *. split_and!; [done | done | | |].
  - intros id last Hl. by apply H3 in Hl as [? _].
  - intros label id Hlabel%elem_of_sorted_ids Hid Hnode Hexp.
    assert (Hm : must_remove config_ g t (active_object_timestamps_ s) id = false)
      by (unfold must_remove; by rewrite Hnode, Hexp).
    destruct (H0 label Hlabel) as [_ Hts]. destruct (Hts id Hid) as [v Hv].
    split_and!.
    + apply H1; [done|]. by split.
    + rewrite Hv. apply H3. split; [done|]. intros (? & _ & _ & ?). congruence.
    + intros (? & _ & _ & ?)%H4. congruence.
  - intros label Hlabel. apply H2. by rewrite elem_of_sorted_ids.
Qed.

End LifecycleExtras.

(** A loop whose iterations leave the state as it is leaves it as it is. *)
Lemma for_each_fixed {A S} (body : A -> S -> Res S) (l : list A) (st : S) :
  (forall a, a ∈ l -> body a st = Ret st) -> for_each body l st = Ret st.
Proof.
  induction l as [|a l IH]; intros Hfix; simpl; [done|].
  rewrite Hfix by left. simpl. apply IH. intros b Hb. apply Hfix. by right.
Qed.

Section DedupExtras.
Context `{Collaborators}.
Implicit Types (g : DynamicSceneGraph) (s : MeshSegmenter).

Lemma sorted_ids_triple (a b c : Z) :
  a < b -> b < c -> sorted_ids {[a; b; c]} = [a; b; c].
Proof.
  intros Hab Hbc. apply sorted_ids_unique.
  - repeat constructor; lia.
  - repeat (apply NoDup_cons; split; [set_solver by lia|]). apply NoDup_nil_2.
  - intros id. set_solver.
Qed.

Lemma touch_label_id s label :
  is_Some (active_objects_ s !! label) -> touch_label s label = s.
Proof.
  intros [X HX]. destruct s as [a ts p n]. unfold touch_label, active_bracket in *.
  simpl in *. rewrite HX. simpl. by rewrite insert_id.
Qed.

Lemma dedup_inner_body_miss label node_id node other_id other g s :
  getNode g other_id = Some other ->
  overlapping node (attributes other) = false ->
  dedup_inner_body label node_id node other_id (g, s, true) = Ret (g, s, true).
Proof.
  intros Hother Hov. unfold dedup_inner_body.
  case_decide; [done|].
  assert (hasNode g other_id = true) as -> by (apply hasNode_true; eauto).
  rewrite Hother. cbn [negb value mbind Res_bind]. by rewrite Hov.
Qed.

(** X14.  When no two checked objects that are in the graph have one's
    position inside the other's box, the deduplication pass completes and
    removes nothing: the graph is unchanged, and so is the state when the
    label has an entry in the active index (otherwise an empty entry is
    inserted for it). *)
Theorem dedup_without_overlap_changes_nothing label g s :
  (forall a b na nb,
     a ∈ active_bracket s label -> b ∈ active_bracket s label -> a ≠ b ->
     getNode g a = Some na -> getNode g b = Some nb ->
     overlapping (attributes na) (attributes nb) = false) ->
  dedup label (g, s) = Ret (g, touch_label s label) /\
  (is_Some (active_objects_ s !! label) -> dedup label (g, s) = Ret (g, s)).
Proof.
  intros Hapart.
  assert (Hrun : dedup label (g, s) = Ret (g, touch_label s label)).
  { unfold dedup. rewrite active_bracket_touch.
    apply for_each_fixed. intros a Ha%elem_of_sorted_ids.
    rewrite dedup_outer_body_eq.
    destruct (hasNode g a) eqn:Hhas; [|done].
    apply hasNode_true in Hhas as [na Hna]. rewrite Hna.
    cbn [value mbind Res_bind].
    rewrite for_each_fixed; [done|].
    intros b Hb%elem_of_sorted_ids.
    destruct (decide (a = b)) as [<-|Hne]; [apply dedup_inner_body_self|].
    destruct (getNode g b) as [nb|] eqn:Hnb.
    - apply (dedup_inner_body_miss _ _ _ _ nb); [done|]. by apply (Hapart a b na nb).
    - apply dedup_inner_body_gone; [done|]. by apply hasNode_false. }
  split; [done|]. intros Hsome. by rewrite Hrun, touch_label_id.
Qed.

(** X15.  A completed deduplication pass removes one set of identifiers,
    all taken from the label's active set and all in the graph before the
    pass, from the graph, from the label's active set, from the timestamp map
    and from the pending-linkage set alike; every other node, active set,
    timestamp and pending identifier, and the counter, are as before. *)
Theorem dedup_removes_uniformly label g s g' s' :
  dedup label (g, s) = Ret (g', s') ->
  exists R : gset Z,
    R ⊆ active_bracket s label /\
    (forall id, id ∈ R -> is_Some (getNode g id)) /\
    (forall id, getNode g' id = if decide (id ∈ R) then None else getNode g id) /\
    active_bracket s' label = active_bracket s label ∖ R /\
    (forall l, l ≠ label -> active_objects_ s' !! l = active_objects_ s !! l) /\
    (forall id, active_object_timestamps_ s' !! id =
                if decide (id ∈ R) then None else active_object_timestamps_ s !! id) /\
    objects_to_check_for_places_ s' = objects_to_check_for_places_ s ∖ R /\
    next_node_id_ s' = next_node_id_ s.
Proof.
  unfold dedup. set (T := active_bracket (touch_label s label) label).
  assert (HT : T = active_bracket s label) by apply active_bracket_touch.
  set (P := fun st : DynamicSceneGraph * MeshSegmenter =>
              exists R : gset Z,
                R ⊆ T /\
                (forall id, id ∈ R -> is_Some (getNode g id)) /\
                (forall id, getNode st.1 id =
                            if decide (id ∈ R) then None else getNode g id) /\
                active_bracket st.2 label = T ∖ R /\
                (forall l, l ≠ label ->
                           active_objects_ st.2 !! l = active_objects_ s !! l) /\
                (forall id, active_object_timestamps_ st.2 !! id =
                            if decide (id ∈ R) then None
                            else active_object_timestamps_ s !! id) /\
                objects_to_check_for_places_ st.2 =
                  objects_to_check_for_places_ s ∖ R /\
                next_node_id_ st.2 = next_node_id_ s).
  assert (Hrem : forall x g1 s1, x ∈ T -> is_Some (getNode g1 x) -> P (g1, s1) ->
                   P (remove_object label x g1 s1)).
  { intros x g1 s1 Hx [nx Hnx] (R & HR & Hin & Hg & Hbr & Hoth & Hts & Hp & Hn).
    simpl in *. exists ({[ x ]} ∪ R). split_and!.
    - set_solver.
    - intros id [->%elem_of_singleton | Hid]%elem_of_union; [|by apply Hin].
      rewrite Hg in Hnx. case_decide; [done | eauto].
    - intros id. cbn [remove_object fst]. rewrite getNode_removeNode, Hg.
      repeat case_decide; try done; set_solver.
    - rewrite active_bracket_remove, decide_True by done. rewrite Hbr. set_solver.
    - intros l Hl. cbn. rewrite lookup_insert_ne by done. by apply Hoth.
    - intros id. cbn. rewrite lookup_delete, Hts.
      repeat case_decide; try done; set_solver.
    - cbn. rewrite Hp. set_solver.
    - done. }
  intros Hrun.
  cut (P (g', s')).
  { intros (R & HR & Hin & Hg & Hbr & Hoth & Hts & Hp & Hn). exists R.
    rewrite <- HT. by split_and!. }
  revert Hrun. apply (for_each_inv P).
  { exists ∅. simpl. split_and!; try done.
    - rewrite active_bracket_touch. set_solver.
    - intros l Hl. by rewrite lookup_insert_ne.
    - set_solver. }
  intros a [g1 s1] [g2 s2] Ha%elem_of_sorted_ids HP Hbody.
  rewrite dedup_outer_body_eq in Hbody.
  destruct (hasNode g1 a) eqn:Hhas; [|by injection Hbody as <- <-].
  apply bind_Ret in Hbody as (node & _ & Hbody).
  apply bind_Ret in Hbody as ([[g3 s3] alive] & Hinner & [= <- <-]).
  cut ((fun st : DynamicSceneGraph * MeshSegmenter * bool =>
          P st.1 /\ (st.2 = true -> is_Some (getNode st.1.1 a))) (g3, s3, alive));
    [by intros [? _]|].
  revert Hinner. apply for_each_inv.
  { split; [done|]. intros _. by apply hasNode_true. }
  intros b [[ga sa] al] [[gb sb] al'] Hb%elem_of_sorted_ids [HPa Hal] Hstep.
  simpl in *.
  apply dedup_inner_body_spec in Hstep
    as [[[= -> -> ->] _] | (other & Hne & Hother & -> & _ & Hcase)]; [done|].
  destruct Hcase as [[Heq ->] | [Heq ->]].
  - pose proof (Hrem b ga sa Hb (ltac:(eauto)) HPa) as HP'.
    rewrite <- Heq in HP'. simpl. split; [done|]. intros _.
    assert (Hgb : gb = removeNode ga b) by (by injection Heq).
    rewrite Hgb, getNode_removeNode, decide_False by done. by apply Hal.
  - pose proof (Hrem a ga sa Ha (Hal eq_refl) HPa) as HP'.
    rewrite <- Heq in HP'. simpl. split; [done | done].
Qed.

Lemma dedup_inner_body_dangling label node_id node other_id
    (st : DynamicSceneGraph * MeshSegmenter) :
  node_id ≠ other_id -> is_Some (getNode st.1 other_id) ->
  dedup_inner_body label node_id node other_id (st, false) = Raise dangling_reference.
Proof.
  destruct st as [g s]. simpl. intros Hne [other Hother]. unfold dedup_inner_body.
  rewrite decide_False by done.
  assert (hasNode g other_id = true) as -> by (apply hasNode_true; eauto).
  by rewrite Hother.
Qed.

(** X16.  When the first two checked objects overlap, the first has the
    smaller volume and a third checked object is in the graph, the pass does
    not complete: after removing the first object (lines 335-338) the inner
    loop goes on to the third and reads the attributes of the node it has
    just removed (line 327). *)
Theorem dedup_reads_removed_node label g s A B C nA nB nC :
  active_bracket s label = {[ A; B; C ]} -> A < B -> B < C ->
  getNode g A = Some nA -> getNode g B = Some nB -> getNode g C = Some nC ->
  overlapping (attributes nA) (attributes nB) = true ->
  (volume (bounding_box (attributes nA)) < volume (bounding_box (attributes nB)))%Q ->
  dedup label (g, s) = Raise dangling_reference.
Proof.
  intros Hbr Hab Hbc HA HB HC Hov Hvol.
  assert (HhA : hasNode g A = true) by (apply hasNode_true; eauto).
  assert (Hcmp : Qle_bool (volume (bounding_box (attributes nB)))
                          (volume (bounding_box (attributes nA))) = false).
  { destruct (Qle_bool _ _) eqn:Hle; [|done].
    apply Qle_bool_iff in Hle. exfalso. exact (Qlt_not_le _ _ Hvol Hle). }
  unfold dedup. rewrite active_bracket_touch, Hbr, sorted_ids_triple by done.
  cbn [for_each]. rewrite dedup_outer_body_eq, HhA, HA.
  cbn [value mbind Res_bind for_each].
  rewrite dedup_inner_body_self. cbn [mbind Res_bind].
  rewrite (dedup_inner_body_hit _ _ _ _ nB) by (done || lia).
  rewrite Hcmp. cbn [mbind Res_bind].
  rewrite dedup_inner_body_dangling; [done | lia |].
  cbn [remove_object fst]. rewrite getNode_removeNode, decide_False by lia. eauto.
Qed.

(** X13.  For a label without an entry in the active index, one iteration
    of the loop over the clusters map with an empty cluster sequence
    completes and inserts an empty active set for the label
    ([operator[]], line 306), while with a non-empty cluster sequence it
    raises [out_of_range] ([.at], line 292). *)
Theorem update_label_without_entry t label g s :
  active_objects_ s !! label = None ->
  update_label t (label, []) (g, s) = Ret (g, touch_label s label) /\
  active_objects_ (touch_label s label) !! label = Some ∅ /\
  (forall (cluster : Cluster) clusters,
     update_label t (label, cluster :: clusters) (g, s) = Raise out_of_range).
Proof.
  intros Hnone. split_and!.
  - unfold update_label. cbn [fst snd for_each mbind Res_bind].
    unfold dedup. rewrite active_bracket_touch.
    unfold active_bracket at 1 2. rewrite Hnone. simpl.
    by rewrite sorted_ids_empty.
  - unfold touch_label, active_bracket. simpl. rewrite lookup_insert_eq.
    by rewrite Hnone.
  - intros cluster clusters. unfold update_label. cbn [fst snd for_each].
    unfold match_or_create, at_. by rewrite Hnone.
Qed.

End DedupExtras.

Section CycleExtras.
Context `{Collaborators}.
Implicit Types (g : DynamicSceneGraph) (s : MeshSegmenter).

Lemma find_match_total g (cluster : Cluster) ids :
  (forall id, id ∈ ids -> is_Some (getNode g id)) ->
  exists found, find_match g cluster ids = Ret found.
Proof.
  induction ids as [|id ids IH]; intros Hall; simpl; [eauto|].
  destruct (Hall id) as [node Hnode]; [left|]. rewrite Hnode. simpl.
  destruct (objectsMatch cluster node); [eauto|].
  apply IH. intros x Hx. apply Hall. by right.
Qed.

Lemma match_or_create_total config_ g0 s0 label t (cluster : Cluster) g s :
  label ∈ labels config_ ->
  cycle_inv config_ g0 s0 (g, s) ->
  exists st', match_or_create label t cluster (g, s) = Ret st' /\
              cycle_inv config_ g0 s0 st'.
Proof.
  intros Hlabel Hinv.
  cut (exists st', match_or_create label t cluster (g, s) = Ret st').
  { intros [[g' s'] Hrun]. exists (g', s'). split; [done|].
    by eapply match_or_create_inv. }
  destruct Hinv as ((Hdom & Hts & _) & Hres & _). simpl in *.
  assert (HX : is_Some (active_objects_ s !! label))
    by (apply elem_of_dom; by rewrite Hdom).
  destruct HX as [X HX].
  assert (Hbr : active_bracket s label = X) by (unfold active_bracket; by rewrite HX).
  unfold match_or_create, at_. rewrite HX. cbn [mbind Res_bind].
  destruct (find_match_total g cluster (sorted_ids X)) as [found Hfound].
  { intros id Hid%elem_of_sorted_ids. apply (Hres label). by rewrite Hbr. }
  rewrite Hfound. cbn [mbind Res_bind].
  destruct found as [[id node]|].
  - apply find_match_Some in Hfound as [Hid%elem_of_sorted_ids _].
    destruct (proj2 (Hts id)) as [last Hlast]; [exists label; by rewrite Hbr|].
    unfold updateObjectInGraph, at_. rewrite Hlast. cbn [mbind Res_bind].
    destruct (Qle_bool _ _); eauto.
  - unfold addObjectToGraph, at_. rewrite HX.
    destruct (cloud cluster); cbn [mbind Res_bind]; eauto.
Qed.

Lemma dedup_raises_dangling label (st : DynamicSceneGraph * MeshSegmenter) e :
  dedup label st = Raise e -> e = dangling_reference.
Proof.
  destruct st as [g s]. unfold dedup.
  intros (a & [g1 s1] & _ & Hbody)%for_each_Raise.
  rewrite dedup_outer_body_eq in Hbody.
  destruct (hasNode g1 a) eqn:Hhas; [|done].
  apply hasNode_true in Hhas as [node Hnode]. rewrite Hnode in Hbody.
  cbn [value mbind Res_bind] in Hbody.
  destruct (for_each _ _ (g1, s1, true)) as [[[g2 s2] al]|e1] eqn:Hinner;
    simpl in Hbody; [done|].
  injection Hbody as ->.
  apply for_each_Raise in Hinner as (b & [[g3 s3] alive] & _ & Hstep).
  unfold dedup_inner_body in Hstep.
  case_decide; [done|].
  destruct (hasNode g3 b) eqn:Hb; simpl in Hstep; [|done].
  apply hasNode_true in Hb as [other Hother]. rewrite Hother in Hstep.
  cbn [value mbind Res_bind] in Hstep.
  destruct alive; [|congruence].
  destruct (overlapping _ _); [|done]. by destruct (Qle_bool _ _).
Qed.

Lemma update_label_total_or config_ g0 s0 t label clusters
    (st : DynamicSceneGraph * MeshSegmenter) :
  label ∈ labels config_ ->
  cycle_inv config_ g0 s0 st ->
  (exists st', update_label t (label, clusters) st = Ret st' /\
               cycle_inv config_ g0 s0 st') \/
  update_label t (label, clusters) st = Raise dangling_reference.
Proof.
  intros Hlabel Hinv. unfold update_label. cbn [fst snd].
  destruct (for_each_total (cycle_inv config_ g0 s0)
              (match_or_create label t) clusters st) as (st1 & Hrun & Hinv1);
    [done | |].
  { intros c [g1 s1] _ Hi. by apply match_or_create_total. }
  rewrite Hrun. cbn [mbind Res_bind].
  destruct (dedup label st1) as [st2|e] eqn:Hd.
  - left. exists st2. split; [done|]. destruct st1, st2. by eapply dedup_inv.
  - right. f_equal. by eapply dedup_raises_dangling.
Qed.

(** A cycle from a consistent state completes, keeping the cycle's invariant,
    or stops at the read of a removed node. *)
Lemma updateGraph_total_or config_ g clusters t s :
  consistent config_ s ->
  dom clusters ⊆ labels config_ ->
  (exists g' s' archived,
     updateGraph config_ g clusters t s = Ret (g', s', archived) /\
     cycle_inv config_ g s (g', s')) \/
  updateGraph config_ g clusters t s = Raise dangling_reference.
Proof.
  intros Hcons Hlabels. unfold updateGraph.
  destruct (archiveOldObjects_total config_ g t s Hcons) as (s1 & a1 & Harch).
  rewrite Harch. cbn [mbind Res_bind].
  apply archive_tracked in Harch as (Hc1 & Hr1 & Hp1); [|done].
  destruct (for_each_total_or (cycle_inv config_ g s) (update_label t)
              (sorted_entries clusters) (g, s1) dangling_reference)
    as [([g2 s2] & Hrun & Hinv) | Hrun].
  - split_and!; [done..|]. intros id. simpl. by rewrite Hp1.
  - intros [label cl] st Hin%elem_of_sorted_entries Hinv.
    apply update_label_total_or; [|done].
    apply Hlabels, elem_of_dom. eauto.
  - left. exists g2, s2, a1. rewrite Hrun. done.
  - right. by rewrite Hrun.
Qed.

(** X17.  From a consistent tracking state and clusters of configured labels
    only, [updateGraph] either completes or stops at the read of a removed
    node in the deduplication pass: it raises neither [out_of_range] nor
    [bad_optional_access]. *)
Theorem reconcile_raises_only_dangling_reference config_ g clusters t s :
  consistent config_ s ->
  dom clusters ⊆ labels config_ ->
  (exists g' s' archived,
     updateGraph config_ g clusters t s = Ret (g', s', archived)) \/
  updateGraph config_ g clusters t s = Raise dangling_reference.
Proof.
  intros Hcons Hlabels.
  destruct (updateGraph_total_or config_ g clusters t s Hcons Hlabels)
    as [(g' & s' & a & Hrun & _) | Hrun]; [left; eauto | by right].
Qed.

Lemma match_or_create_brackets label t (cluster : Cluster) g s g' s' :
  match_or_create label t cluster (g, s) = Ret (g', s') ->
  next_node_id_ s <= next_node_id_ s' /\
  forall l x, x ∈ active_bracket s' l ->
              x ∈ active_bracket s l \/ next_node_id_ s <= x < next_node_id_ s'.
Proof.
  unfold match_or_create. intros Hrun.
  apply bind_Ret in Hrun as (X & HX%at_Ret & Hrun).
  apply bind_Ret in Hrun as (found & _ & Hrun).
  destruct found as [[id node]|].
  - apply updateObjectInGraph_spec in Hrun as (_ & Hact & _ & Hn & _).
    split; [lia|]. intros l x Hx. left. unfold active_bracket in *. by rewrite <- Hact.
  - apply addObjectToGraph_spec in Hrun
      as [(_ & -> & ->) | (point & pts & X' & _ & HX' & -> & ->)].
    + split; [lia | eauto].
    + simpl. split; [lia|]. intros l x. unfold active_bracket at 1; simpl.
      destruct (decide (label = l)) as [<-|Hne].
      * rewrite lookup_insert_eq; simpl.
        intros [->%elem_of_singleton | Hx]%elem_of_union; [right; lia | left].
        unfold active_bracket. by rewrite HX'.
      * rewrite lookup_insert_ne by done. by left.
Qed.

Lemma dedup_brackets label g s g' s' :
  dedup label (g, s) = Ret (g', s') ->
  next_node_id_ s' = next_node_id_ s /\
  forall l x, x ∈ active_bracket s' l -> x ∈ active_bracket s l.
Proof.
  intros Hrun. split; [by eapply dedup_next|].
  revert Hrun. unfold dedup.
  set (Q := fun st : DynamicSceneGraph * MeshSegmenter =>
              forall l x, x ∈ active_bracket st.2 l -> x ∈ active_bracket s l).
  assert (Hrem : forall x g1 s1, Q (g1, s1) -> Q (remove_object label x g1 s1)).
  { intros x g1 s1 HQ l y. rewrite active_bracket_remove.
    case_decide; [subst; intros [? _]%elem_of_difference|]; by apply HQ. }
  intros Hrun. cut (Q (g', s')); [done|]. revert Hrun.
  apply (for_each_inv Q).
  { intros l x. simpl. by rewrite active_bracket_touch. }
  intros a [g1 s1] [g2 s2] _ HQ Hbody.
  rewrite dedup_outer_body_eq in Hbody.
  destruct (hasNode g1 a); [|by injection Hbody as <- <-].
  apply bind_Ret in Hbody as (node & _ & Hbody).
  apply bind_Ret in Hbody as ([[g3 s3] alive] & Hinner & [= <- <-]).
  cut ((fun st : DynamicSceneGraph * MeshSegmenter * bool => Q st.1) (g3, s3, alive));
    [done|].
  revert Hinner. apply for_each_inv; [done|].
  intros b [[ga sa] al] [[gb sb] al'] _ HQa Hstep. simpl in *.
  apply dedup_inner_body_spec in Hstep
    as [[[= -> -> ->] _] | (other & _ & _ & _ & _ & Hcase)]; [done|].
  destruct Hcase as [[Heq _] | [Heq _]].
  - pose proof (Hrem b ga sa HQa) as HQ'. by rewrite <- Heq in HQ'.
  - pose proof (Hrem a ga sa HQa) as HQ'. by rewrite <- Heq in HQ'.
Qed.

(** After a cycle an active identifier is one the archive pass kept or one
    the cycle allocated. *)
Lemma updateGraph_brackets config_ g clusters t s g' s' archived :
  updateGraph config_ g clusters t s = Ret (g', s', archived) ->
  next_node_id_ s <= next_node_id_ s' /\
  forall l x, x ∈ active_bracket s' l ->
    (x ∈ active_bracket s l /\
     (l ∈ labels config_ ->
      must_remove config_ g t (active_object_timestamps_ s) x = false)) \/
    next_node_id_ s <= x < next_node_id_ s'.
Proof.
  unfold updateGraph. intros Hrun.
  apply bind_Ret in Hrun as ([s1 a1] & Harch & Hrun).
  apply bind_Ret in Hrun as ([g2 s2] & Hloop & [= <- <- <-]).
  apply archiveOldObjects_spec in Harch as (_ & H1 & H2 & _ & _ & _ & H6).
  simpl in *.
  assert (Hkept : forall l x, x ∈ active_bracket s1 l ->
            x ∈ active_bracket s l /\
            (l ∈ labels config_ ->
             must_remove config_ g t (active_object_timestamps_ s) x = false)).
  { intros l x Hx. destruct (decide (l ∈ sorted_ids (labels config_))) as [Hl|Hl].
    - apply H1 in Hx as [? ?]; done.
    - split; [|by rewrite <- elem_of_sorted_ids].
      unfold active_bracket in *. by rewrite <- H2. }
  set (Q := fun st : DynamicSceneGraph * MeshSegmenter =>
              next_node_id_ s <= next_node_id_ st.2 /\
              forall l x, x ∈ active_bracket st.2 l ->
                x ∈ active_bracket s1 l \/ next_node_id_ s <= x < next_node_id_ st.2).
  cut (Q (g2, s2)).
  { intros [Hn Hbr]. split; [done|]. intros l x [Hx | Hx]%Hbr; [left | by right].
    by apply Hkept. }
  revert Hloop. apply (for_each_inv Q).
  { split; simpl; [lia | eauto]. }
  intros [label cl] [ga sa] [gb sb] _ HQ Hbody.
  unfold update_label in Hbody. cbn [fst snd] in Hbody.
  apply bind_Ret in Hbody as ([gc sc] & Hcl & Hdedup).
  apply dedup_brackets in Hdedup as [Hn Hsub].
  cut (Q (gc, sc)).
  { intros [Hn' Hbr]. split; simpl in *; [lia|].
    intros l x Hx%Hsub. rewrite Hn. by apply Hbr. }
  revert Hcl. apply (for_each_inv Q); [done|].
  intros c [gd sd] [ge se] _ [Hn1 Hbr1] Hb.
  apply match_or_create_brackets in Hb as [Hn2 Hbr2]. simpl in *.
  split; simpl; [lia|]. intros l x [Hx | Hx]%Hbr2; [|right; lia].
  destruct (Hbr1 l x Hx) as [? | ?]; [by left | right; lia].
Qed.

(** X18.  After a completed cycle the counter has not moved back, and every
    active identifier either was active under the same label before the cycle
    (and, for a configured label, was in the graph and not older than the
    horizon) or was allocated during the cycle, between the counter's old and
    new value. *)
Theorem reconcile_active_ids_kept_or_new config_ g clusters t s g' s' archived :
  updateGraph config_ g clusters t s = Ret (g', s', archived) ->
  next_node_id_ s <= next_node_id_ s' /\
  forall l x, x ∈ active_bracket s' l ->
    (x ∈ active_bracket s l /\
     (l ∈ labels config_ ->
      hasNode g x = true /\
      is_expired config_ t (active_object_timestamps_ s) x = false)) \/
    next_node_id_ s <= x < next_node_id_ s'.
Proof.
  intros [Hn Hbr]%updateGraph_brackets. split; [done|].
  intros l x [[Hx Hkeep] | Hx]%Hbr; [left | by right].
  split; [done|]. intros Hl. specialize (Hkeep Hl).
  unfold must_remove in Hkeep. apply orb_false_iff in Hkeep as [Hnode Hexp].
  by apply negb_false_iff in Hnode.
Qed.

Lemma sub64_no_wrap t last :
  0 <= last -> last <= t -> t < two64 -> sub64 t last = t - last.
Proof. intros. unfold sub64. apply Z.mod_small. unfold two64 in *. lia. Qed.

(** X19.  From a consistent state, with timestamps that do not wrap, an
    active object whose age exceeds the horizon is returned as archived by a
    completed cycle and is in no active set and not in the timestamp map
    afterwards, whatever clusters the cycle brings: the archive pass runs
    before the matching, so a cluster that would match the stale object
    cannot keep it alive. *)
Theorem stale_object_is_archived_first config_ g clusters t s g' s' archived
    label id last :
  consistent config_ s ->
  dom clusters ⊆ labels config_ ->
  updateGraph config_ g clusters t s = Ret (g', s', archived) ->
  id ∈ active_bracket s label ->
  active_object_timestamps_ s !! id = Some last ->
  0 <= last -> last <= t -> t < two64 ->
  active_horizon_ns config_ < t - last ->
  id ∈ archived /\
  (forall l, id ∉ active_bracket s' l) /\
  active_object_timestamps_ s' !! id = None.
Proof.
  intros Hcons Hlabels Hrun Hid Hlast H0 Hle H64 Hold.
  assert (Hexp : is_expired config_ t (active_object_timestamps_ s) id = true).
  { unfold is_expired, expired. rewrite Hlast, sub64_no_wrap by done.
    by apply Z.ltb_lt. }
  assert (Hlabel : label ∈ labels config_).
  { destruct Hcons as (Hdom & _). rewrite <- Hdom. by eapply active_bracket_dom. }
  assert (Hno : forall l, id ∉ active_bracket s' l).
  { intros l Hin.
    destruct (updateGraph_brackets _ _ _ _ _ _ _ _ Hrun) as [_ Hbr].
    destruct Hcons as (_ & _ & Hdis & Hbound).
    destruct (Hbr l id Hin) as [[Hin0 Hkeep] | Hnew].
    - assert (l = label) as -> by (by eapply Hdis).
      specialize (Hkeep Hlabel).
      rewrite (is_expired_must_remove _ g _ _ _ Hexp) in Hkeep. done.
    - apply Hbound in Hid. lia. }
  split_and!; [|done|].
  - unfold updateGraph in Hrun.
    apply bind_Ret in Hrun as ([s1 a1] & Harch & Hrun).
    apply bind_Ret in Hrun as ([g2 s2] & _ & [= _ _ <-]).
    apply archiveOldObjects_spec in Harch as (_ & _ & _ & _ & H4 & _).
    apply H4. exists label. split; [by apply elem_of_sorted_ids | done].
  - destruct (updateGraph_total_or config_ g clusters t s Hcons Hlabels)
      as [(g2 & s2 & a2 & Hrun2 & (Hc & _)) | Hrun2]; [|congruence].
    rewrite Hrun in Hrun2. injection Hrun2 as <- <- <-.
    destruct Hc as (_ & Hts & _). simpl in Hts.
    apply eq_None_not_Some. intros [l Hl]%Hts. by eapply Hno.
Qed.

End CycleExtras.

Section CreateExtras.
Context `{Collaborators}.
Implicit Types (g : DynamicSceneGraph) (s : MeshSegmenter).

Lemma graph_eq g1 g2 :
  nodes g1 = nodes g2 -> mesh_edges g1 = mesh_edges g2 -> g1 = g2.
Proof. destruct g1, g2; simpl; congruence. Qed.

Lemma insertMeshEdges_present g id idxs :
  hasNode g id = true ->
  (forall idx, idx ∈ idxs -> (id, idx) ∈ mesh_edges g) ->
  insertMeshEdges g id idxs = g.
Proof.
  intros Hhas Hin. apply graph_eq; [apply insertMeshEdges_nodes|].
  apply set_eq. intros e. rewrite insertMeshEdges_edges by done.
  split; [|by left]. intros [? | (idx & Hidx & ->)]; [done | by apply Hin].
Qed.

(** X11.  A create on a non-empty cluster, for a label with an active set
    and a counter value not yet in the graph, completes: the graph gains a
    node under the counter's value with the label, the cluster's box, the
    colour of the cluster's first point and the cluster's centroid, and one
    mesh edge per cluster index; other nodes and edges are untouched; the
    identifier joins the label's active set and the pending-linkage set, its
    timestamp is the cycle's, and the counter moves by one. *)
Theorem create_tracks_new_object g (cluster : Cluster) label t s X point pts :
  active_objects_ s !! label = Some X ->
  cloud cluster = point :: pts ->
  getNode g (next_node_id_ s) = None ->
  let id := next_node_id_ s in
  exists g' s',
    addObjectToGraph g cluster label t s = Ret (g', s') /\
    getNode g' id =
      Some {| attributes := {| semantic_label := label; name := id;
                               bounding_box := extract (cloud cluster);
                               color := point_color point;
                               position := centroid cluster |};
              has_parent := false |} /\
    (forall x, x ≠ id -> getNode g' x = getNode g x) /\
    (forall e, e ∈ mesh_edges g' <->
               e ∈ mesh_edges g \/ exists idx, idx ∈ indices cluster /\ e = (id, idx)) /\
    active_bracket s' label = {[ id ]} ∪ X /\
    (forall l, l ≠ label -> active_objects_ s' !! l = active_objects_ s !! l) /\
    active_object_timestamps_ s' = <[id := t]> (active_object_timestamps_ s) /\
    objects_to_check_for_places_ s' = {[ id ]} ∪ objects_to_check_for_places_ s /\
    next_node_id_ s' = id + 1.
Proof.
  intros HX Hcloud Hfresh id. subst id.
  unfold addObjectToGraph, at_. rewrite Hcloud, HX. cbn [mbind Res_bind].
  eexists _, _. split; [reflexivity|]. simpl.
  assert (Hhas : hasNode g (next_node_id_ s) = false) by by apply hasNode_false.
  split_and!; try done.
  - rewrite getNode_insertMeshEdges, getNode_emplaceNode, decide_True by done.
    by rewrite Hfresh.
  - intros x Hx. rewrite getNode_insertMeshEdges, getNode_emplaceNode.
    by rewrite decide_False by done.
  - intros e. rewrite insertMeshEdges_edges.
    + unfold emplaceNode. by rewrite Hhas.
    + apply hasNode_true. rewrite getNode_emplaceNode, decide_True by done. eauto.
  - unfold active_bracket; simpl. by rewrite lookup_insert_eq.
  - intros l Hl. by rewrite lookup_insert_ne.
Qed.

Lemma match_or_create_eq label t (cluster : Cluster) g s X :
  active_objects_ s !! label = Some X ->
  match_or_create label t cluster (g, s) =
  found ← find_match g cluster (sorted_ids X);
  match found with
  | Some (prev_node_id, prev_node) =>
      updateObjectInGraph g cluster prev_node_id prev_node t s
  | None => addObjectToGraph g cluster label t s
  end.
Proof. intros HX. unfold match_or_create, at_. by rewrite HX. Qed.

Lemma updateObjectInGraph_keep g (cluster : Cluster) id node t s last :
  active_object_timestamps_ s !! id = Some last ->
  Qle_bool (volume (extract (cloud cluster)))
           (volume (bounding_box (attributes node))) = true ->
  updateObjectInGraph g cluster id node t s =
  Ret (insertMeshEdges g id (indices cluster),
       {| active_objects_ := active_objects_ s;
          active_object_timestamps_ := <[id := t]> (active_object_timestamps_ s);
          objects_to_check_for_places_ := objects_to_check_for_places_ s;
          next_node_id_ := next_node_id_ s |}).
Proof.
  intros Hlast Hle. unfold updateObjectInGraph, at_. rewrite Hlast.
  cbn [mbind Res_bind]. by rewrite Hle.
Qed.

(** X12.  When a cluster that matches no active object is created as a new
    object and the cluster's box contains its centroid, presenting the same
    cluster again matches the new object and only sets its timestamp: graph,
    active index, pending-linkage set and counter are as after the
    create. *)
Theorem reobserved_cluster_only_refreshes g (cluster : Cluster) label t t2 s X :
  active_objects_ s !! label = Some X ->
  (forall id, id ∈ X ->
     exists node, getNode g id = Some node /\ objectsMatch cluster node = false) ->
  cloud cluster ≠ [] ->
  getNode g (next_node_id_ s) = None ->
  isInside (extract (cloud cluster)) (centroid cluster) = true ->
  exists g1 s1,
    match_or_create label t cluster (g, s) = Ret (g1, s1) /\
    next_node_id_ s ∈ active_bracket s1 label /\
    match_or_create label t2 cluster (g1, s1) =
    Ret (g1, {| active_objects_ := active_objects_ s1;
                active_object_timestamps_ :=
                  <[next_node_id_ s := t2]> (active_object_timestamps_ s1);
                objects_to_check_for_places_ := objects_to_check_for_places_ s1;
                next_node_id_ := next_node_id_ s1 |}).
Proof.
  intros HX Hnone Hcloud Hfresh Hinside.
  destruct (cloud cluster) as [|point pts] eqn:Hc; [done|].
  set (n := next_node_id_ s).
  set (attrs := {| semantic_label := label; name := n;
                   bounding_box := extract (point :: pts);
                   color := point_color point; position := centroid cluster |}).
  set (g1 := insertMeshEdges (emplaceNode g n attrs) n (indices cluster)).
  set (s1 := {| active_objects_ := <[label := {[ n ]} ∪ X]> (active_objects_ s);
                active_object_timestamps_ := <[n := t]> (active_object_timestamps_ s);
                objects_to_check_for_places_ := {[ n ]} ∪ objects_to_check_for_places_ s;
                next_node_id_ := n + 1 |}).
  assert (Hn1 : getNode g1 n = Some {| attributes := attrs; has_parent := false |}).
  { unfold g1. rewrite getNode_insertMeshEdges, getNode_emplaceNode.
    rewrite decide_True by done. unfold n. by rewrite Hfresh. }
  assert (Hother : forall x, x ≠ n -> getNode g1 x = getNode g x).
  { intros x Hx. unfold g1. rewrite getNode_insertMeshEdges, getNode_emplaceNode.
    by rewrite decide_False by done. }
  assert (Hhas : hasNode (emplaceNode g n attrs) n = true).
  { apply hasNode_true. rewrite getNode_emplaceNode, decide_True by done. eauto. }
  assert (HX1 : active_objects_ s1 !! label = Some ({[ n ]} ∪ X))
    by (unfold s1; simpl; apply lookup_insert_eq).
  exists g1, s1. split_and!.
  - rewrite (match_or_create_eq _ _ _ _ _ X) by done.
    rewrite find_match_none by (intros a Ha%elem_of_sorted_ids; by apply Hnone).
    cbn [mbind Res_bind]. unfold addObjectToGraph, at_. rewrite Hc, HX. done.
  - unfold active_bracket. rewrite HX1. simpl. set_solver.
  - rewrite (match_or_create_eq _ _ _ _ _ ({[ n ]} ∪ X)) by done.
    assert (Hin : n ∈ sorted_ids ({[ n ]} ∪ X)) by (apply elem_of_sorted_ids; set_solver).
    apply list_elem_of_split in Hin as (pre & post & Hsplit).
    pose proof (NoDup_sorted_ids ({[ n ]} ∪ X)) as Hnd. rewrite Hsplit in Hnd.
    apply NoDup_app in Hnd as (_ & Hpre & _).
    rewrite Hsplit.
    rewrite (find_match_first g1 cluster pre n
               {| attributes := attrs; has_parent := false |} post).
    + cbn [mbind Res_bind].
      rewrite (updateObjectInGraph_keep _ _ _ _ _ _ t).
      * rewrite insertMeshEdges_present; [done | | ].
        -- apply hasNode_true. rewrite Hn1. eauto.
        -- intros idx Hidx. unfold g1. apply insertMeshEdges_edges; [done|]. eauto.
      * unfold s1. simpl. apply lookup_insert_eq.
      * simpl. rewrite Hc. apply Qle_bool_iff, Qle_refl.
    + intros a Ha.
      assert (Han : a ≠ n) by (intros ->; eapply Hpre; [done | left]).
      assert (HaX : a ∈ X).
      { assert (Hmem : a ∈ sorted_ids ({[ n ]} ∪ X))
          by (rewrite Hsplit; apply elem_of_app; by left).
        apply elem_of_sorted_ids in Hmem. set_solver. }
      rewrite Hother by done. by apply Hnone.
    + done.
    + unfold objectsMatch. simpl. exact Hinside.
Qed.

End CreateExtras.

Section PipelineExtras.
Context `{Collaborators}.

(** X6.  The labels of the map [detect] returns are configured labels, so
    from any consistent tracking state a cycle run on that map completes or
    stops at the read of a removed node in the deduplication pass. *)
Theorem detect_output_reconciles config_ mesh callback_funcs_ label_map
    frontend_indices pos label_clusters trace :
  detect config_ mesh callback_funcs_ label_map frontend_indices pos
    = Ret (label_clusters, trace) ->
  dom label_clusters ⊆ labels config_ /\
  (forall g t s, consistent config_ s ->
     (exists g' s' archived,
        updateGraph config_ g label_clusters t s = Ret (g', s', archived)) \/
     updateGraph config_ g label_clusters t s = Raise dangling_reference).
Proof.
  intros Hrun.
  assert (Hdom : dom label_clusters ⊆ labels config_).
  { unfold detect in Hrun.
    apply bind_Ret in Hrun as (active & _ & Hrun).
    destruct active as [|a rest]; [injection Hrun as <- _; set_solver|].
    destruct (decide _); [injection Hrun as <- _; set_solver|].
    apply bind_Ret in Hrun as ([lc tr] & Hloop & [= <- _]).
    apply detect_label_loop in Hloop as [_ Hlc]; [|apply NoDup_sorted_ids].
    intros l [cl Hcl]%elem_of_dom. apply Hlc in Hcl as [Hl _].
    by apply elem_of_sorted_ids in Hl. }
  split; [done|]. intros g t s Hcons.
  destruct (updateGraph_total_or config_ g label_clusters t s Hcons Hdom)
    as [(g' & s' & a & Hr & _) | Hr]; [left; eauto | by right].
Qed.

End PipelineExtras.

(** ** Examples of the further properties *)

Lemma created_state_tracked :
  consistent Examples.cfg3 Examples.created_state /\
  resolved Examples.created_graph Examples.created_state.
Proof.
  assert (Hrun : match_or_create 3 200 Examples.scenario_cluster
                   (Examples.graph_of [], MeshSegmenter_new Examples.cfg3 0)
                 = Ret (Examples.created_graph, Examples.created_state))
    by (vm_compute; reflexivity).
  destruct (match_or_create_inv Examples.cfg3 (Examples.graph_of [])
              (MeshSegmenter_new Examples.cfg3 0) 3 200 Examples.scenario_cluster
              (Examples.graph_of []) (MeshSegmenter_new Examples.cfg3 0)
              Examples.created_graph Examples.created_state) as (Hc & Hr & _).
  - by_compute.
  - split_and!; [apply consistent_new | | done].
    intros l id Hid. exfalso. revert Hid.
    unfold active_bracket, MeshSegmenter_new; simpl.
    rewrite lookup_gset_to_gmap. destruct (guard _); simpl; set_solver.
  - exact Hrun.
  - done.
Qed.

(** Of three vertices the second is 9 away from the reference: indices 0 and
    2 are kept, in order. *)
Lemma getActiveIndices_filters_witness :
  getActiveIndices (H := MoreExamples.near) MoreExamples.spread_mesh [0; 1; 2]
    (Some (0, 0, 0)) = Ret [0; 2].
Proof.
  destruct (getActiveIndices_filters (H := MoreExamples.near)
              MoreExamples.spread_mesh [0; 1; 2] (0, 0, 0))
    as (active & Hrun & -> & _).
  - repeat constructor; unfold in_range; simpl; lia.
  - exact Hrun.
Defined.

(** Index 7 is outside a mesh of three vertices. *)
Lemma getActiveIndices_bounds_witness :
  getActiveIndices (H := MoreExamples.near) MoreExamples.spread_mesh [0; 7] None
    = Ret [0; 7] /\
  getActiveIndices (H := MoreExamples.near) MoreExamples.spread_mesh [0; 7]
    (Some (0, 0, 0)) = Raise out_of_range.
Proof.
  destruct (getActiveIndices_bounds (H := MoreExamples.near)
              MoreExamples.spread_mesh [0; 7]) as [Hnone Hsome].
  split; [exact Hnone|]. apply Hsome.
  apply Exists_cons_tl, Exists_cons_hd. unfold in_range. simpl. lia.
Defined.

(** The oracle returns the two indices as one group. *)
Lemma findClusters_groups_witness :
  findClusters (H := Fake.collaborators) MoreExamples.mixed_mesh [0; 2]
    = Ret [MoreExamples.mixed_cluster].
Proof.
  destruct (findClusters_groups (H := Fake.collaborators) MoreExamples.mixed_mesh [0; 2])
    as [Hrun _].
  - repeat constructor; unfold in_range; simpl; lia.
  - exact Hrun.
Defined.

(** One vertex, two callbacks: the oracle runs, then both callbacks are
    called in order. *)
Lemma detect_notifies_active_region_witness :
  exists oracle_runs,
    [FindClusters 3 [0]; Callback 0%nat [0] {[ 3 := [0] ]};
     Callback 1%nat [0] {[ 3 := [0] ]}]
    = oracle_runs ++
      notify [0%nat; 1%nat] [0]
        (getLabelIndices (H := Fake.collaborators) Examples.cfg3 [(0, 0, 0, 3)] tt [0]) /\
    forall f ai li, Callback f ai li ∉ oracle_runs.
Proof.
  apply (detect_notifies_active_region (H := Fake.collaborators) Examples.cfg3
           [(0, 0, 0, 3)] [0%nat; 1%nat] tt [0] None 0 []
           {[ 3 := [MoreExamples.single_cluster] ]}).
  - reflexivity.
  - vm_compute. reflexivity.
Defined.

(** Object 0, created at 200 ns, is tracked consistently: the archive pass
    ten seconds later completes. *)
Lemma archive_pass_completes_witness :
  exists s' archived,
    archiveOldObjects Examples.cfg3 Examples.created_graph 10000000000
      Examples.created_state = Ret (s', archived) /\
    consistent Examples.cfg3 s' /\
    resolved Examples.created_graph s'.
Proof.
  apply (archive_pass_completes Examples.cfg3 Examples.created_graph 10000000000
           Examples.created_state).
  apply created_state_tracked.
Defined.

(** Label 3 is configured but the active index has no entry for it. *)
Lemma archive_pass_raises_out_of_range_witness :
  archiveOldObjects Examples.cfg3 Examples.vanished_graph 10 MoreExamples.blank_state
    = Raise out_of_range.
Proof.
  destruct (archive_pass_raises_out_of_range Examples.cfg3 Examples.vanished_graph 10
              MoreExamples.blank_state) as [_ Hbad].
  apply (Hbad 3); [by_compute | left; reflexivity].
Defined.

(** Object 2 of [aged_state] was seen one second ago and is in the graph. *)
Lemma archive_pass_keeps_the_rest_witness :
  2 ∈ active_bracket (Examples.segmenter [2] [(2, 5000000000)] [] 3) 3 /\
  active_object_timestamps_ (Examples.segmenter [2] [(2, 5000000000)] [] 3) !! 2
    = Some 5000000000 /\
  2 ∉ ({[ 0; 1 ]} : gset Z).
Proof.
  destruct (archive_pass_keeps_the_rest Examples.cfg3 Examples.aged_graph 6000000000
              Examples.aged_state (Examples.segmenter [2] [(2, 5000000000)] [] 3)
              {[ 0; 1 ]}) as (_ & _ & _ & Hkept & _).
  - vm_compute. reflexivity.
  - destruct (Hkept 3 2) as (Hin & Hts & Hno);
      [by_compute | by_compute | vm_compute; reflexivity | vm_compute; reflexivity |].
    split_and!; [exact Hin | | exact Hno].
    rewrite Hts. vm_compute. reflexivity.
Defined.

(** Objects 1 and 2 of [aged_graph] are far apart. *)
Lemma dedup_without_overlap_changes_nothing_witness :
  dedup 3 (Examples.aged_graph, MoreExamples.apart_state)
    = Ret (Examples.aged_graph, MoreExamples.apart_state).
Proof.
  destruct (dedup_without_overlap_changes_nothing 3 Examples.aged_graph
              MoreExamples.apart_state) as [_ Hsame].
  - intros a b na nb Ha Hb Hne Hna Hnb.
    assert (Ha' : a = 1 \/ a = 2) by set_solver.
    assert (Hb' : b = 1 \/ b = 2) by set_solver.
    destruct Ha' as [-> | ->], Hb' as [-> | ->]; try done;
      vm_compute in Hna, Hnb; injection Hna as <-; injection Hnb as <-;
      vm_compute; reflexivity.
  - apply Hsame. vm_compute. eauto.
Defined.

(** Of the overlapping objects 1 and 2 the pass removes object 1, from the
    graph and from the three bookkeeping structures. *)
Lemma dedup_removes_uniformly_witness :
  exists R : gset Z,
    R ⊆ active_bracket Examples.pair_state 3 /\
    (forall id, id ∈ R -> is_Some (getNode Examples.pair_graph id)) /\
    (forall id, getNode (Examples.graph_of [(2, Examples.object 2 (Examples.cube 3 7) 5)]) id
                = if decide (id ∈ R) then None else getNode Examples.pair_graph id) /\
    active_bracket (Examples.segmenter [2] [(2, 0)] [2] 3) 3
      = active_bracket Examples.pair_state 3 ∖ R.
Proof.
  destruct (dedup_removes_uniformly 3 Examples.pair_graph Examples.pair_state
              (Examples.graph_of [(2, Examples.object 2 (Examples.cube 3 7) 5)])
              (Examples.segmenter [2] [(2, 0)] [2] 3))
    as (R & HR & Hin & Hg & Hbr & _).
  - vm_compute. reflexivity.
  - exists R. split_and!; [exact HR | exact Hin | exact Hg | exact Hbr].
Defined.

(** Object 0 is removed while the inner loop still has object 2 to visit. *)
Lemma dedup_reads_removed_node_witness :
  dedup 3 (MoreExamples.rising_graph, MoreExamples.rising_state)
    = Raise dangling_reference.
Proof.
  apply (dedup_reads_removed_node 3 MoreExamples.rising_graph MoreExamples.rising_state
           0 1 2 (Examples.object 0 (Examples.cube 4 6) 5)
           (Examples.object 1 (Examples.cube 3 7) 5)
           (Examples.object 2 (Examples.cube 0 10) 5));
    first [lia | vm_compute; reflexivity].
Defined.

(** Label 4 has no entry in a segmenter built for label 3. *)
Lemma update_label_without_entry_witness :
  update_label 200 (4, []) (Examples.graph_of [], MeshSegmenter_new Examples.cfg3 0)
    = Ret (Examples.graph_of [], touch_label (MeshSegmenter_new Examples.cfg3 0) 4) /\
  update_label 200 (4, [Examples.scenario_cluster])
    (Examples.graph_of [], MeshSegmenter_new Examples.cfg3 0) = Raise out_of_range.
Proof.
  destruct (update_label_without_entry 200 4 (Examples.graph_of [])
              (MeshSegmenter_new Examples.cfg3 0)) as (Hempty & _ & Hraise).
  - vm_compute. reflexivity.
  - split; [exact Hempty | apply Hraise].
Defined.

(** A cycle on the tracked object 0 with one cluster. *)
Lemma reconcile_raises_only_dangling_reference_witness :
  (exists g' s' archived,
     updateGraph Examples.cfg3 Examples.created_graph
       {[ 3 := [Examples.neighbour_cluster] ]} 300 Examples.created_state
     = Ret (g', s', archived)) \/
  updateGraph Examples.cfg3 Examples.created_graph
    {[ 3 := [Examples.neighbour_cluster] ]} 300 Examples.created_state
  = Raise dangling_reference.
Proof.
  apply (reconcile_raises_only_dangling_reference Examples.cfg3 Examples.created_graph
           {[ 3 := [Examples.neighbour_cluster] ]} 300 Examples.created_state).
  - apply created_state_tracked.
  - by_compute.
Defined.

(** The first cycle of a fresh segmenter allocates identifiers 0 and 1. *)
Lemma reconcile_active_ids_kept_or_new_witness :
  exists g' s' archived,
    updateGraph Examples.cfg3 (Examples.graph_of [])
      {[ 3 := [Examples.scenario_cluster; Examples.neighbour_cluster] ]} 200
      (MeshSegmenter_new Examples.cfg3 0) = Ret (g', s', archived) /\
    0 <= next_node_id_ s' /\
    forall l x, x ∈ active_bracket s' l -> 0 <= x < next_node_id_ s'.
Proof.
  destruct (updateGraph Examples.cfg3 (Examples.graph_of [])
              {[ 3 := [Examples.scenario_cluster; Examples.neighbour_cluster] ]} 200
              (MeshSegmenter_new Examples.cfg3 0)) as [[[g' s'] archived]|e] eqn:Hrun;
    [|vm_compute in Hrun; discriminate Hrun].
  exists g', s', archived. split; [reflexivity|].
  destruct (reconcile_active_ids_kept_or_new _ _ _ _ _ _ _ _ Hrun) as [Hn Hbr].
  split; [exact Hn|]. intros l x Hx.
  destruct (Hbr l x Hx) as [[Hin _] | Hnew]; [|exact Hnew].
  exfalso. revert Hin. unfold active_bracket, MeshSegmenter_new; simpl.
  rewrite lookup_gset_to_gmap. destruct (guard _); simpl; set_solver.
Defined.

(** The scenario of section 8 of the spec, with a matching cluster: object 0
    was last observed at 200 ns, the horizon is 5 s, and the cycle at 10 s
    archives it although the cycle's cluster is the one it was created
    from. *)
Lemma stale_object_is_archived_first_witness :
  exists g' s' archived,
    updateGraph Examples.cfg3 Examples.created_graph
      {[ 3 := [Examples.scenario_cluster] ]} 10000000000 Examples.created_state
    = Ret (g', s', archived) /\
    0 ∈ archived /\
    (forall l, 0 ∉ active_bracket s' l) /\
    active_object_timestamps_ s' !! 0 = None.
Proof.
  destruct (updateGraph Examples.cfg3 Examples.created_graph
              {[ 3 := [Examples.scenario_cluster] ]} 10000000000
              Examples.created_state) as [[[g' s'] archived]|e] eqn:Hrun;
    [|vm_compute in Hrun; discriminate Hrun].
  exists g', s', archived. split; [reflexivity|].
  apply (stale_object_is_archived_first Examples.cfg3 Examples.created_graph
           {[ 3 := [Examples.scenario_cluster] ]} 10000000000 Examples.created_state
           g' s' archived 3 0 200).
  - apply created_state_tracked.
  - by_compute.
  - exact Hrun.
  - by_compute.
  - vm_compute. reflexivity.
  - lia.
  - lia.
  - vm_compute. reflexivity.
  - vm_compute. reflexivity.
Defined.

(** The first create of a fresh segmenter. *)
Lemma create_tracks_new_object_witness :
  exists g' s',
    addObjectToGraph (Examples.graph_of []) Examples.scenario_cluster 3 200
      (MeshSegmenter_new Examples.cfg3 0) = Ret (g', s') /\
    getNode g' 0 = Some (Examples.created_node 0) /\
    active_bracket s' 3 = {[ 0 ]} ∪ ∅ /\
    next_node_id_ s' = 0 + 1.
Proof.
  destruct (create_tracks_new_object (Examples.graph_of []) Examples.scenario_cluster
              3 200 (MeshSegmenter_new Examples.cfg3 0) ∅ (0, 0, 0, 3) [(2, 2, 2, 3)])
    as (g' & s' & Hrun & Hnode & _ & _ & Hbr & _ & _ & _ & Hn);
    [vm_compute; reflexivity | reflexivity | reflexivity |].
  exists g', s'. split_and!; [exact Hrun | exact Hnode | exact Hbr | exact Hn].
Defined.

(** [scenario_cluster] is seen at 200 ns and again at 300 ns. *)
Lemma reobserved_cluster_only_refreshes_witness :
  exists g1 s1,
    match_or_create 3 200 Examples.scenario_cluster
      (Examples.graph_of [], MeshSegmenter_new Examples.cfg3 0) = Ret (g1, s1) /\
    0 ∈ active_bracket s1 3 /\
    match_or_create 3 300 Examples.scenario_cluster (g1, s1) =
    Ret (g1, {| active_objects_ := active_objects_ s1;
                active_object_timestamps_ := <[0 := 300]> (active_object_timestamps_ s1);
                objects_to_check_for_places_ := objects_to_check_for_places_ s1;
                next_node_id_ := next_node_id_ s1 |}).
Proof.
  apply (reobserved_cluster_only_refreshes (Examples.graph_of [])
           Examples.scenario_cluster 3 200 300 (MeshSegmenter_new Examples.cfg3 0) ∅).
  - vm_compute. reflexivity.
  - intros id Hid. exfalso. set_solver.
  - vm_compute. discriminate.
  - reflexivity.
  - vm_compute. reflexivity.
Defined.

(** Detection on a one-vertex mesh, then a first cycle. *)
Lemma detect_output_reconciles_witness :
  dom ({[ 3 := [MoreExamples.single_cluster] ]} : gmap Z (list Cluster))
    ⊆ labels Examples.cfg3 /\
  ((exists g' s' archived,
      updateGraph Examples.cfg3 (Examples.graph_of [])
        {[ 3 := [MoreExamples.single_cluster] ]} 200 (MeshSegmenter_new Examples.cfg3 0)
      = Ret (g', s', archived)) \/
   updateGraph Examples.cfg3 (Examples.graph_of [])
     {[ 3 := [MoreExamples.single_cluster] ]} 200 (MeshSegmenter_new Examples.cfg3 0)
   = Raise dangling_reference).
Proof.
  destruct (detect_output_reconciles (H := Fake.collaborators) Examples.cfg3
              [(0, 0, 0, 3)] [0%nat; 1%nat] tt [0] None
              {[ 3 := [MoreExamples.single_cluster] ]}
              [FindClusters 3 [0]; Callback 0%nat [0] {[ 3 := [0] ]};
               Callback 1%nat [0] {[ 3 := [0] ]}]) as [Hdom Hcycle].
  - vm_compute. reflexivity.
  - split; [exact Hdom|]. apply Hcycle. apply consistent_new.
Defined.
